(** * In-place calculation of minimum-redundancy codeword lengths

    A shallow embedding of [src/c/inplace.c] (Moffat and Katajainen's
    in-place algorithm and the driver around it), and the properties of
    it that the specification states. *)

From Stdlib Require Import ZArith QArith Qpower Qfield Lia.
From stdpp Require Import base list sorting gmap.

Local Open Scope Z_scope.

(** * The program *)

(** ** Machine integers

    All scalars and array cells of the program are [long long], modelled
    as [Z].  The sums and products of frequencies are reduced to the
    signed 64-bit range: an overflow, which the language leaves
    undefined, is taken to wrap around.  Cursors, counters and depths are
    bounded by twice the array size, so their increments are written
    without reduction. *)

Definition wrap64 (z : Z) : Z := (z + 2 ^ 63) `mod` 2 ^ 64 - 2 ^ 63.

Definition add64 (x y : Z) : Z := wrap64 (x + y).

Definition mul64 (x y : Z) : Z := wrap64 (x * y).

Definition LIMIT : Z := 1000000000.

Definition INT64_MAX : Z := 2 ^ 63 - 1.

(** ** Results of array code

    An access outside the array, or a loop that runs out of its step
    budget, stops the computation. *)

Inductive res (T : Type) : Type :=
| Ok (x : T)
| OutOfBounds
| OutOfFuel.

Arguments Ok {T} x.
Arguments OutOfBounds {T}.
Arguments OutOfFuel {T}.

#[export] Instance res_ret : MRet res := fun T x => Ok x.

#[export] Instance res_bind : MBind res := fun T U f m =>
  match m with
  | Ok x => f x
  | OutOfBounds => OutOfBounds
  | OutOfFuel => OutOfFuel
  end.

(** ** The array [A] *)

Abbreviation arr := (list Z).

(** [A[i]] as an rvalue. *)
Definition rd (A : arr) (i : Z) : res Z :=
  if i <? 0 then OutOfBounds
  else match A !! Z.to_nat i with
       | Some v => Ok v
       | None => OutOfBounds
       end.

(** [A[i] = v]. *)
Definition wr (A : arr) (i v : Z) : res arr :=
  if (0 <=? i) && (i <? Z.of_nat (length A))
  then Ok (<[Z.to_nat i := v]> A)
  else OutOfBounds.

(** The number of cells of [A], as the program counts it. *)
Definition len (A : arr) : Z := Z.of_nat (length A).

(** ** First pass, left to right, setting parent pointers *)

Inductive pick : Type := Root | Leaf.

(** The test that selects the first item of a pairing:
    [leaf>=n || A[root]<A[leaf]]. *)
Definition select_first (n : Z) (A : arr) (root leaf : Z) : res pick :=
  if leaf >=? n then Ok Root
  else
    r ← rd A root;
    l ← rd A leaf;
    Ok (if r <? l then Root else Leaf).

(** The test that selects the second item:
    [leaf>=n || (root<next && A[root]<A[leaf])]. *)
Definition select_second (n : Z) (A : arr) (next root leaf : Z) : res pick :=
  if leaf >=? n then Ok Root
  else if root <? next then
    r ← rd A root;
    l ← rd A leaf;
    Ok (if r <? l then Root else Leaf)
  else Ok Leaf.

(** State of the first pass: the array and the cursors [root], [leaf]. *)
Record p1 : Type := P1 { p1_A : arr; p1_root : Z; p1_leaf : Z }.

(** [A[next] = A[root]; A[root++] = next;] or [A[next] = A[leaf++];] *)
Definition take_first (next : Z) (c : pick) (s : p1) : res p1 :=
  match c with
  | Root =>
      v ← rd (p1_A s) (p1_root s);
      A1 ← wr (p1_A s) next v;
      A2 ← wr A1 (p1_root s) next;
      Ok (P1 A2 (p1_root s + 1) (p1_leaf s))
  | Leaf =>
      v ← rd (p1_A s) (p1_leaf s);
      A1 ← wr (p1_A s) next v;
      Ok (P1 A1 (p1_root s) (p1_leaf s + 1))
  end.

(** [A[next] += A[root]; A[root++] = next;] or [A[next] += A[leaf++];] *)
Definition take_second (next : Z) (c : pick) (s : p1) : res p1 :=
  match c with
  | Root =>
      a ← rd (p1_A s) next;
      v ← rd (p1_A s) (p1_root s);
      A1 ← wr (p1_A s) next (add64 a v);
      A2 ← wr A1 (p1_root s) next;
      Ok (P1 A2 (p1_root s + 1) (p1_leaf s))
  | Leaf =>
      a ← rd (p1_A s) next;
      v ← rd (p1_A s) (p1_leaf s);
      A1 ← wr (p1_A s) next (add64 a v);
      Ok (P1 A1 (p1_root s) (p1_leaf s + 1))
  end.

(** One iteration of the [for] loop of the first pass. *)
Definition pass1_body (n next : Z) (s : p1) : res p1 :=
  c1 ← select_first n (p1_A s) (p1_root s) (p1_leaf s);
  s1 ← take_first next c1 s;
  c2 ← select_second n (p1_A s1) next (p1_root s1) (p1_leaf s1);
  take_second next c2 s1.

(** [A[0] += A[1]; root = 0; leaf = 2;] *)
Definition pass1_init (A : arr) : res p1 :=
  a0 ← rd A 0;
  a1 ← rd A 1;
  A1 ← wr A 0 (add64 a0 a1);
  Ok (P1 A1 0 2).

(** [k] iterations of [for (...; next < n-1; next++)] starting at [next]. *)
Fixpoint pass1_iter (n : Z) (k : nat) (next : Z) (s : p1) : res p1 :=
  match k with
  | O => Ok s
  | S k' =>
      s' ← pass1_body n next s;
      pass1_iter n k' (next + 1) s'
  end.

(** The loop runs for [next = 1 .. n-2]. *)
Definition pass1 (n : Z) (A : arr) : res p1 :=
  s ← pass1_init A;
  pass1_iter n (Z.to_nat (n - 2)) 1 s.

(** ** Second pass, right to left, setting internal depths *)

(** [A[next] = A[A[next]]+1] *)
Definition pass2_body (A : arr) (next : Z) : res arr :=
  p ← rd A next;
  d ← rd A p;
  wr A next (d + 1).

(** [k] iterations of [for (...; next>=0; next--)] starting at [next]. *)
Fixpoint pass2_iter (k : nat) (next : Z) (A : arr) : res arr :=
  match k with
  | O => Ok A
  | S k' =>
      A' ← pass2_body A next;
      pass2_iter k' (next - 1) A'
  end.

(** [A[n-2] = 0;] and the loop for [next = n-3 .. 0]. *)
Definition pass2 (n : Z) (A : arr) : res arr :=
  A0 ← wr A (n - 2) 0;
  pass2_iter (Z.to_nat (n - 2)) (n - 3) A0.

(** ** Third pass, right to left, setting leaf depths *)

Record p3 : Type :=
  P3 { p3_A : arr; p3_root : Z; p3_next : Z; p3_avbl : Z; p3_used : Z;
       p3_dpth : Z }.

(** [while (root>=0 && A[root]==dpth) { used++; root--; }]
    Every evaluation of a loop test takes one unit of [fuel]; the
    budget that remains is returned. *)
Fixpoint scan_level (fuel : nat) (s : p3) : res (p3 * nat) :=
  match fuel with
  | O => OutOfFuel
  | S f =>
      if p3_root s >=? 0 then
        v ← rd (p3_A s) (p3_root s);
        if v =? p3_dpth s then
          scan_level f (P3 (p3_A s) (p3_root s - 1) (p3_next s) (p3_avbl s)
                           (p3_used s + 1) (p3_dpth s))
        else Ok (s, f)
      else Ok (s, f)
  end.

(** [while (avbl>used) { A[next--] = dpth; avbl--; }] *)
Fixpoint fill_level (fuel : nat) (s : p3) : res (p3 * nat) :=
  match fuel with
  | O => OutOfFuel
  | S f =>
      if p3_avbl s >? p3_used s then
        A1 ← wr (p3_A s) (p3_next s) (p3_dpth s);
        fill_level f (P3 A1 (p3_root s) (p3_next s - 1) (p3_avbl s - 1)
                         (p3_used s) (p3_dpth s))
      else Ok (s, f)
  end.

(** [while (avbl>0) { ...; avbl = 2*used; dpth++; used = 0; }]
    The recursion is on [gas], a bound on the number of tests of the
    outer loop; [fuel] is the budget shared by the three loops. *)
Fixpoint pass3_loop (gas fuel : nat) (s : p3) : res (p3 * nat) :=
  match gas, fuel with
  | S g, S f =>
      if p3_avbl s >? 0 then
        '(s1, f1) ← scan_level f s;
        '(s2, f2) ← fill_level f1 s1;
        pass3_loop g f2
          (P3 (p3_A s2) (p3_root s2) (p3_next s2) (2 * p3_used s2) 0
              (p3_dpth s2 + 1))
      else Ok (s, f)
  | _, _ => OutOfFuel
  end.

(** [avbl = 1; used = dpth = 0; root = n-2; next = n-1;] and the loop. *)
Definition pass3 (fuel : nat) (n : Z) (A : arr) : res (arr * nat) :=
  '(s, f) ← pass3_loop fuel fuel (P3 A (n - 2) (n - 1) 1 0 0);
  Ok (p3_A s, f).

(** ** The length calculator

    [calculate_minimum_redundancy(A, n)], run with a budget of [fuel]
    loop tests for the third pass.  The result is the array on return
    and the part of the budget that was not used. *)
Definition calculate_minimum_redundancy_steps
    (fuel : nat) (A : arr) (n : Z) : res (arr * nat) :=
  if n =? 0 then Ok (A, fuel)
  else if n =? 1 then
    A1 ← wr A 0 0; Ok (A1, fuel)
  else
    s1 ← pass1 n A;
    A2 ← pass2 n (p1_A s1);
    pass3 fuel n A2.

Definition calculate_minimum_redundancy
    (fuel : nat) (A : arr) (n : Z) : res arr :=
  '(A', _) ← calculate_minimum_redundancy_steps fuel A n; Ok A'.

(** ** The program around the calculator

    [main] reads its input with [scanf("%lld")]: the input is modelled as
    the sequence of integers on the stream, and [scanf] returns [EOF]
    when that sequence is exhausted.  A numeral is stored as it is when
    it is within the range of [long long]; the properties of [main] that
    depend on the values stored state this range as a hypothesis.
    [n_init] is the value that the
    variable [n] holds before the first [scanf]; [alloc n] tells whether
    the two arrays of [n] cells can be allocated.  The entropy and the
    three summary lines are computed in floating point from the
    frequencies, [bits] and [totfreq]; they are kept as one line that
    records these two integers. *)

Inductive diagnostic : Type :=
| BadCount      (* n should be at least 0 and less than LIMIT *)
| NoMemory      (* unable to allocate memory *)
| BadOrder      (* input frequencies must be non-negative and non-decreasing *)
| ZeroTotal.    (* sum of frequencies must be positive *)

Inductive line : Type :=
| SymbolLine (i f l : Z)          (* f_i = f, |c_i| = l *)
| Summary (bits totfreq : Z).

Record outcome : Type := Outcome {
  exit_status : Z;
  stderr : list diagnostic;
  stdout : list line;
  calls : list (list Z * Z)       (* arguments of the calculator's calls *)
}.

(** [fprintf(stderr, ...); exit(1);] *)
Definition fail (d : diagnostic) : outcome := Outcome 1 [d] [] [].

(** [for (i=0; i<n; i++) if (scanf("%lld", A+i) == EOF) { n = i; break; }]
    [count] is the number of iterations left; the result holds the
    cells that were assigned, and its length is the value of [n] after
    the loop. *)
Fixpoint read_freqs (count : nat) (input : list Z) : list Z :=
  match count, input with
  | S c, t :: rest => t :: read_freqs c rest
  | _, _ => []
  end.

(** [totfreq += A[i]; if (A[i] < 0 || (i>0 && A[i-1] > A[i])) ... exit(1)]
    over the cells from [i] on; [prev] is [A[i-1]] when [i > 0].  The
    result is [totfreq] after the loop, or [None] when the program exits
    from it. *)
Fixpoint check_freqs (prev : option Z) (A : list Z) (totfreq : Z)
  : option Z :=
  match A with
  | [] => Some totfreq
  | a :: rest =>
      let totfreq' := add64 totfreq a in
      if (a <? 0) || (match prev with Some p => p >? a | None => false end)
      then None
      else check_freqs (Some a) rest totfreq'
  end.

(** [for (i=0; i<n; i++) bits += A[i] * B[i];] *)
Fixpoint total_bits (A B : list Z) (bits : Z) : Z :=
  match A, B with
  | a :: A', b :: B' => total_bits A' B' (add64 bits (mul64 a b))
  | _, _ => bits
  end.

(** [for (i=0; i<n; i++) printf(..., i, B[i], i, A[i]);] from index [i]. *)
Fixpoint symbol_lines (i : Z) (B A : list Z) : list line :=
  match B, A with
  | b :: B', a :: A' => SymbolLine i b a :: symbol_lines (i + 1) B' A'
  | _, _ => []
  end.

(** What [main] does once the frequencies are read into [A]. *)
Definition process (fuel : nat) (A : list Z) : res outcome :=
  let n := len A in
  match check_freqs None A 0 with
  | None => Ok (fail BadOrder)
  | Some totfreq =>
      if totfreq <=? 0 then Ok (fail ZeroTotal)
      else
        let B := A in
        L ← calculate_minimum_redundancy fuel A n;
        let bits := total_bits L B 0 in
        Ok (Outcome 0 []
              ((if n <=? 100 then symbol_lines 0 B L else [])
               ++ [Summary bits totfreq])
              [(A, n)])
  end.

Definition main (fuel : nat) (n_init : Z) (alloc : Z -> bool)
    (input : list Z) : res outcome :=
  let '(n, rest) := match input with
                    | [] => (n_init, [])
                    | t :: rest => (t, rest)
                    end in
  if (n <=? 0) || (n >? LIMIT) then Ok (fail BadCount)
  else if negb (alloc n) then Ok (fail NoMemory)
  else process fuel (read_freqs (Z.to_nat n) rest).

(** * Notions of the specification *)

(** ** Total reads and writes, for stating invariants *)

Definition geti (A : arr) (i : Z) : Z := default 0 (A !! Z.to_nat i).

Definition seti (A : arr) (i v : Z) : arr := <[Z.to_nat i := v]> A.

(** ** The input of the calculator *)

(** The input of the calculator, slot by slot. *)
Definition ascending (A : arr) (n : Z) : Prop :=
  forall i j, 0 <= i -> i <= j -> j <= n - 1 -> 0 <= geti A i <= geti A j.

(** The total of the frequencies. *)
Definition total (A : list Z) : Z := foldr Z.add 0 A.

(** ** Kraft's sum

    The sum of [2^(-l)] over the lengths [l] of a list, as an exact
    rational number. *)

Definition kraft_term (l : Z) : Q := Qpower 2 (- l).

Definition kraft (ls : list Z) : Q :=
  foldr (fun l acc => Qplus (kraft_term l) acc) 0%Q ls.

(** ** The tie-break rule, in the words of the specification

    A root candidate exists while [root < next], a leaf candidate while
    [leaf < n].  When only one kind is left it is chosen; otherwise the
    root is preferred when its value is strictly less than the leaf's, and
    the leaf when its value is less than or equal to the root's. *)
Definition spec_pick (n : Z) (A : arr) (next root leaf : Z) : option pick :=
  match root <? next, leaf <? n with
  | false, false => None
  | true, false => Some Root
  | false, true => Some Leaf
  | true, true => Some (if geti A root <? geti A leaf then Root else Leaf)
  end.

(** ** The combined weights

    [weight_at A k] is the value stored in [A[k]] immediately after the
    iteration [next = k] of the first pass; for [k = 0], after the
    pairing [A[0] += A[1]] that precedes the loop. *)
Definition weight_at (A : arr) (k : nat) : res Z :=
  s0 ← pass1_init A;
  s ← pass1_iter (len A) k 1 s0;
  rd (p1_A s) (Z.of_nat k).

(** * Invariants *)

(** ** Invariant of the first pass

    At the test of the [for] loop, with [next] still to be assigned:
    slots below [root] hold parent pointers, which point to the right of
    their slot and to the left of [next], never decrease, and take each
    value at most twice. *)

Record inv1 (n next : Z) (s : p1) : Prop := Inv1 {
  i1_len : len (p1_A s) = n;
  i1_root : 0 <= p1_root s;
  i1_sum : p1_root s + p1_leaf s = 2 * next;
  i1_leaf_lo : next + 1 <= p1_leaf s;
  i1_leaf_hi : p1_leaf s <= n;
  i1_ptr : forall i, 0 <= i < p1_root s -> i < geti (p1_A s) i < next;
  i1_mono : forall i j, 0 <= i -> i <= j -> j < p1_root s ->
            geti (p1_A s) i <= geti (p1_A s) j;
  i1_two : forall i, 0 <= i -> i + 2 < p1_root s ->
           geti (p1_A s) i < geti (p1_A s) (i + 2)
}.

(** ** What the second pass computes

    [depths n P D]: [D] holds in slots [0..n-2] the depths of the internal
    nodes whose parent pointers are in slots [0..n-3] of [P]. *)

Record depths (n : Z) (P D : arr) : Prop := Depths {
  dp_len : len D = n;
  dp_root : geti D (n - 2) = 0;
  dp_child : forall i, 0 <= i <= n - 3 -> geti D i = geti D (geti P i) + 1
}.

(** The parent pointers left by the first pass. *)
Record parents (n : Z) (P : arr) : Prop := Parents {
  pa_len : len P = n;
  pa_ptr : forall i, 0 <= i <= n - 3 -> i < geti P i <= n - 2;
  pa_mono : forall i j, 0 <= i -> i <= j -> j <= n - 3 ->
            geti P i <= geti P j;
  pa_two : forall i, 0 <= i -> i + 2 <= n - 3 -> geti P i < geti P (i + 2)
}.

(** ** Invariant of the second pass

    After [done] iterations, the slots already visited hold depths and
    the others still hold their parent pointer. *)

Record inv2 (n : Z) (P : arr) (done : Z) (A : arr) : Prop := Inv2 {
  i2_len : len A = n;
  i2_root : geti A (n - 2) = 0;
  i2_depth : forall i, n - 3 - done < i <= n - 3 ->
             geti A i = geti A (geti P i) + 1;
  i2_ptr : forall i, 0 <= i <= n - 3 - done -> geti A i = geti P i
}.

(** ** Invariant of the third pass

    At the test of the outer loop.  [D] is the array left by the second
    pass; the slots up to [root] still hold it, the slots to the right of
    [next] hold the leaf depths already assigned. *)

(** The slots to the right of [i], excluded. *)
Definition after (A : arr) (i : Z) : list Z := drop (Z.to_nat (i + 1)) A.

Record inv3 (n : Z) (P D : arr) (s : p3) : Prop := Inv3 {
  i3_len : len (p3_A s) = n;
  i3_root : -1 <= p3_root s <= n - 2;
  i3_next : p3_next s = p3_root s + p3_avbl s;
  i3_next_hi : p3_next s <= n - 1;
  i3_used : p3_used s = 0;
  i3_dpth : 0 <= p3_dpth s;
  i3_same : forall i, 0 <= i <= p3_root s -> geti (p3_A s) i = geti D i;
  i3_here : 0 <= p3_root s -> geti D (p3_root s) = p3_dpth s;
  i3_above : forall j, p3_root s < j <= n - 2 -> geti D j < p3_dpth s;
  i3_done : p3_avbl s = 0 -> p3_root s = -1;
  i3_width :
    (p3_dpth s = 0 /\ p3_avbl s = 1 /\ p3_root s = n - 2)
    \/ (1 <= p3_dpth s
        /\ exists c, p3_root s <= c <= n - 2
                     /\ p3_avbl s = 2 * (c - p3_root s)
                     /\ forall j, c < j <= n - 2 -> geti D j < p3_dpth s - 1);
  i3_kraft :
    Qeq (kraft (after (p3_A s) (p3_next s))
         + inject_Z (p3_avbl s) * kraft_term (p3_dpth s)) 1;
  i3_out : forall i, p3_next s < i <= n - 1 ->
           1 <= geti (p3_A s) i < p3_dpth s;
  i3_desc : forall i j, p3_next s < i -> i <= j -> j <= n - 1 ->
            geti (p3_A s) j <= geti (p3_A s) i
}.

(** Loop tests that the third pass still needs from a state at the test
    of the outer loop. *)
Definition need3 (s : p3) : Z :=
  if p3_avbl s =? 0 then 1 else 5 * (p3_root s + 1) + p3_avbl s + 4.

(** ** Sums of slots

    [sumrange B lo hi] is the sum of the slots [lo .. hi-1] of [B]. *)

Fixpoint sumfrom (B : arr) (lo : Z) (count : nat) : Z :=
  match count with
  | O => 0
  | S c => geti B lo + sumfrom B (lo + 1) c
  end.

Definition sumrange (B : arr) (lo hi : Z) : Z :=
  sumfrom B lo (Z.to_nat (hi - lo)).

(** ** The pairing made by one iteration of the first pass

    [pairing n next s s' x y]: from the state [s], the iteration picks
    [x] then [y] and leaves the cursors of [s'].  The four cases are the
    four combinations of root and leaf, each with what the two tests
    have established. *)
Definition pairing (n next : Z) (s s' : p1) (x y : Z) : Prop :=
  let B := p1_A s in
  let root := p1_root s in
  let leaf := p1_leaf s in
  (x = geti B root /\ y = geti B (root + 1) /\ root + 1 < next
   /\ p1_root s' = root + 2 /\ p1_leaf s' = leaf
   /\ (leaf < n -> x < geti B leaf /\ y < geti B leaf))
  \/ (x = geti B root /\ y = geti B leaf /\ leaf < n
      /\ p1_root s' = root + 1 /\ p1_leaf s' = leaf + 1
      /\ x < y /\ (root + 1 < next -> y <= geti B (root + 1)))
  \/ (x = geti B leaf /\ y = geti B root /\ leaf < n
      /\ p1_root s' = root + 1 /\ p1_leaf s' = leaf + 1
      /\ x <= y /\ (leaf + 1 < n -> y < geti B (leaf + 1)))
  \/ (x = geti B leaf /\ y = geti B (leaf + 1) /\ leaf + 1 < n
      /\ p1_root s' = root /\ p1_leaf s' = leaf + 2
      /\ x <= geti B root /\ y <= geti B root).

(** ** Invariant of the first pass on the weights

    [A] is the input.  The internal nodes not yet paired are the slots
    [root .. next-1], in non-decreasing order of weight; the leaves not
    yet paired are the slots from [leaf] on, unchanged.  Apart from the
    newest node, everything left weighs at least [m], while the newest
    node weighs at most [2m].  The total weight left is that of the
    input. *)
Record weights_inv (A : arr) (n next : Z) (s : p1) : Prop := WeightsInv {
  w_leaves : forall i, p1_leaf s <= i <= n - 1 ->
             geti (p1_A s) i = geti A i;
  w_queue : forall i j, p1_root s <= i -> i <= j -> j <= next - 1 ->
            geti (p1_A s) i <= geti (p1_A s) j;
  w_nonneg : forall i, p1_root s <= i <= next - 1 -> 0 <= geti (p1_A s) i;
  w_floor : exists m,
      0 <= m /\ geti (p1_A s) (next - 1) <= 2 * m
      /\ (forall i, p1_root s <= i <= next - 2 -> m <= geti (p1_A s) i)
      /\ (forall i, p1_leaf s <= i <= n - 1 -> m <= geti A i);
  w_sum : sumrange (p1_A s) (p1_root s) next + sumrange A (p1_leaf s) n
          <= INT64_MAX
}.

(** * The other programs of the repository *)

(** ** [checksum.c]

    The input is the sequence of values that [getchar] returns before
    [EOF]: the bytes of the file, as [unsigned char] converted to
    [int]. *)

Module Checksum.

(** [while ((c = getchar()) != -1) if (c > 32) check += c;] *)
Fixpoint loop (input : list Z) (check : Z) : Z :=
  match input with
  | [] => check
  | c :: rest => loop rest (if c >? 32 then add64 check c else check)
  end.

(** [long long check = 0; ...; printf("%lld\n", check);]
    The result is the number printed. *)
Definition main (input : list Z) : Z := loop input 0.

End Checksum.

(** The sum of the characters above 32, without reduction. *)
Definition sum_chars (input : list Z) : Z :=
  foldr (fun c acc => (if c >? 32 then c else 0) + acc) 0 input.

(** ** [webbase.c]

    A string is the list of the characters before its terminating zero.
    [isalpha] and [tolower] are those of the C locale. *)

Module Webbase.

Definition CR : Z := 13.

(** [int l = strlen(s); if (l == 0) return;
     if (s[l - 1] == '\r') s[l - 1] = 0;] *)
Definition fixCR (s : list Z) : list Z :=
  let l := length s in
  if (l =? 0)%nat then s
  else match s !! (l - 1)%nat with
       | Some c => if c =? CR then take (l - 1)%nat s else s
       | None => s
       end.

Definition isalpha (c : Z) : bool :=
  ((65 <=? c) && (c <=? 90)) || ((97 <=? c) && (c <=? 122)).

Definition tolower (c : Z) : Z :=
  if (65 <=? c) && (c <=? 90) then c + 32 else c.

(** [while( isalpha( *s ) ) { *s = tolower( *s ); s++; }] *)
Fixpoint fixProtocol (s : list Z) : list Z :=
  match s with
  | [] => []
  | c :: rest => if isalpha c then tolower c :: fixProtocol rest else s
  end.

(** *** The program

    The input is the sequence of the lines that [gets] reads, each one
    the string that it leaves in the buffer, without the newline.  The
    two buffers have [BUFSIZE] bytes; they are static, hence empty
    strings at the start.  [p] is an [int], 32 bits wide, [seen] and
    [output] are [long long]; their increments wrap around.

    [u_addr] is the address of the array [u]: when [strstr] finds
    nothing, the program subtracts [u] from the null pointer, taken to
    be the address zero, and compares the difference with a [size_t],
    as unsigned numbers of 64 bits. *)

Definition BUFSIZE : Z := 10000000.

Definition TAB : Z := 9.

Definition NL : Z := 10.

(** ["==P=>>>>=i===<<<<=T===>=A===<=!Junghoo!==>"] *)
Definition COOKIE : list Z :=
  [61; 61; 80; 61; 62; 62; 62; 62; 61; 105; 61; 61; 61; 60; 60; 60; 60; 61;
   84; 61; 61; 61; 62; 61; 65; 61; 61; 61; 60; 61; 33; 74; 117; 110; 103;
   104; 111; 111; 33; 61; 61; 62].

(** ["URL: "] *)
Definition URL : list Z := [85; 82; 76; 58; 32].

(** ["robots.txt"] *)
Definition ROBOTS : list Z := [114; 111; 98; 111; 116; 115; 46; 116; 120; 116].

(** ["http"] *)
Definition HTTP : list Z := [104; 116; 116; 112].

(** What the program writes to [stderr]. *)
Inductive message : Type :=
| Pages (p seen output : Z)
    (* Pages: %d Links seen: %lld Links output: %lld *)
| NoURL (p : Z) (b : list Z)
    (* Stopping at page %d--no URL found (found %s instead). *)
| ControlChar (c : Z) (u : list Z) (p : Z)
    (* Control or space character (%d) in URL %s at page %d--skipping
       this entry. *)
| NotHttp (u : list Z) (p : Z)
    (* URL %s at page %d does not start with "http"--skipping this
       entry. *)
| OutOfSync (p : Z) (u : list Z).
    (* Warning at page %d, URL %s: out of sync on the third skipped
       line. *)

Record st : Type := St {
  b : list Z;
  u : list Z;
  p : Z;
  skip : bool;
  seen : Z;
  output : Z;
  stdout : list Z;
  stderr : list message
}.

Definition with_b (b' : list Z) (s : st) : st :=
  St b' (u s) (p s) (skip s) (seen s) (output s) (stdout s) (stderr s).

Definition with_u (u' : list Z) (s : st) : st :=
  St (b s) u' (p s) (skip s) (seen s) (output s) (stdout s) (stderr s).

Definition with_p (p' : Z) (s : st) : st :=
  St (b s) (u s) p' (skip s) (seen s) (output s) (stdout s) (stderr s).

Definition with_skip (skip' : bool) (s : st) : st :=
  St (b s) (u s) (p s) skip' (seen s) (output s) (stdout s) (stderr s).

Definition with_seen (seen' : Z) (s : st) : st :=
  St (b s) (u s) (p s) (skip s) seen' (output s) (stdout s) (stderr s).

Definition with_output (output' : Z) (s : st) : st :=
  St (b s) (u s) (p s) (skip s) (seen s) output' (stdout s) (stderr s).

(** [printf] of the characters [cs]. *)
Definition say (cs : list Z) (s : st) : st :=
  St (b s) (u s) (p s) (skip s) (seen s) (output s) (stdout s ++ cs)
     (stderr s).

(** [fprintf(stderr, ...)] *)
Definition warn (m : message) (s : st) : st :=
  St (b s) (u s) (p s) (skip s) (seen s) (output s) (stdout s)
     (stderr s ++ [m]).

(** [gets(b)]: the result tells whether a line was read; at the end of
    the input [b] is left as it is.  A line that does not fit the buffer
    is written past its end. *)
Definition gets (input : list (list Z)) (s : st)
  : res (bool * st * list (list Z)) :=
  match input with
  | [] => Ok (false, s, [])
  | l :: rest =>
      if len l <? BUFSIZE then Ok (true, with_b l s, rest)
      else OutOfBounds
  end.

(** [strncmp(s, pre, strlen(pre)) == 0] *)
Definition starts_with (pre s : list Z) : bool :=
  bool_decide (take (length pre) s = pre).

(** [strstr(hay, needle)], as the index of the first occurrence. *)
Fixpoint strstr (hay needle : list Z) : option nat :=
  if starts_with needle hay then Some 0%nat
  else match hay with
       | [] => None
       | _ :: rest => S <$> strstr rest needle
       end.

(** [(strstr(u, "robots.txt") - u) == (strlen(u) - strlen("robots.txt"))] *)
Definition robots (u_addr : Z) (u : list Z) : bool :=
  let d := match strstr u ROBOTS with
           | Some k => Z.of_nat k
           | None => 0 - u_addr
           end in
  d `mod` 2 ^ 64 =? (len u - len ROBOTS) `mod` 2 ^ 64.

(** [while (i-- != 5) if (u[i] <= 32) { fprintf(stderr, ...); skip = 1; }]
    over the characters [cs] that the loop visits, the last one first. *)
Fixpoint check_url (cs : list Z) (s : st) : st :=
  match cs with
  | [] => s
  | c :: rest =>
      check_url rest
        (if c <=? 32 then with_skip true (warn (ControlChar c (u s) (p s)) s)
         else s)
  end.

(** [p++] *)
Definition next_page (p : Z) : Z := (p + 1 + 2 ^ 31) `mod` 2 ^ 32 - 2 ^ 31.

(** How an iteration of [for (;;)] ends: the loop goes on, or [main]
    returns. *)
Inductive next : Type :=
| Continue (input : list (list Z)) (s : st)
| Return (status : Z) (s : st).

(** [strcpy(u, b); skip = ...; i = strlen(u); while (i-- != 5) ...;
     if (strncasecmp("http", b + 5, 4)) { fprintf(stderr, ...); skip = 1; }] *)
Definition examine (u_addr : Z) (s : st) : st :=
  let s := with_u (b s) s in
  let s := with_skip (robots u_addr (u s)) s in
  let s := check_url (reverse (drop 5 (u s))) s in
  if negb (starts_with HTTP (tolower <$> take 4 (drop 5 (b s)))) then
    with_skip true (warn (NotHttp (u s) (p s)) s)
  else s.

(** [if (!skip) { if (p % 1000000 == 0) fprintf(stderr, ...);
     if (p != -1) printf("\n"); p++; fixProtocol(b + 5);
     printf("%s", b + 5); }] *)
Definition announce (s : st) : st :=
  if negb (skip s) then
    let s :=
      if Z.rem (p s) 1000000 =? 0 then
        warn (Pages (p s) (seen s) (output s)) s
      else s in
    let s := if negb (p s =? -1) then say [NL] s else s in
    let s := with_p (next_page (p s)) s in
    let s := with_b (take 5 (b s) ++ fixProtocol (drop 5 (b s))) s in
    say (drop 5 (b s)) s
  else s.

(** [gets(b); gets(b); gets(b); if (b[0] != 0) fprintf(stderr, ...);] *)
Definition skip_three (input : list (list Z)) (s : st)
  : res (st * list (list Z)) :=
  '(_, s, input) ← gets input s;
  '(_, s, input) ← gets input s;
  '(_, s, input) ← gets input s;
  Ok (if negb (bool_decide (b s = [])) then warn (OutOfSync (p s) (u s)) s
      else s,
      input).

(** The branch of the magic cookie: the header of a page. *)
Definition page (u_addr : Z) (input : list (list Z)) (s : st) : res next :=
  '(_, s, input) ← gets input s;
  let s := with_b (fixCR (b s)) s in
  if negb (starts_with URL (b s)) then
    Ok (Return 1 (warn (NoURL (p s) (b s)) s))
  else
    '(s, input) ← skip_three input (announce (examine u_addr s));
    Ok (Continue input s).

(** [i = strlen(b); while (i-- != 0) if (b[i] <= 32) break;]
    over the characters [cs] still to visit, the last one first, [i]
    being the index of the first of them; the result is [i] after the
    loop. *)
Fixpoint last_control (cs : list Z) (i : Z) : Z :=
  match cs with
  | [] => -1
  | c :: rest => if c <=? 32 then i else last_control rest (i - 1)
  end.

(** The other branch: a line of a successor list. *)
Definition successor (s : st) : st :=
  if skip s then s
  else
    let s := with_seen (add64 (seen s) 1) s in
    let i := last_control (reverse (b s)) (len (b s) - 1) in
    if i >=? 0 then s
    else if starts_with HTTP (b s) then
      let s := with_output (add64 (output s) 1) s in
      let s := with_b (fixCR (b s)) s in
      let s := with_b (fixProtocol (b s)) s in
      say (TAB :: b s) s
    else s.

(** One iteration of [for (;;)]. *)
Definition step (u_addr : Z) (input : list (list Z)) (s : st) : res next :=
  '(ok, s, input) ← gets input s;
  if negb ok then
    Ok (Return 0 (warn (Pages (p s) (seen s) (output s)) (say [NL] s)))
  else if bool_decide (b s = COOKIE) then page u_addr input s
  else Ok (Continue input (successor s)).

(** At most [fuel] iterations. *)
Fixpoint loop (fuel : nat) (u_addr : Z) (input : list (list Z)) (s : st)
  : res (Z * st) :=
  match fuel with
  | O => OutOfFuel
  | S f =>
      r ← step u_addr input s;
      match r with
      | Continue input' s' => loop f u_addr input' s'
      | Return status s' => Ok (status, s')
      end
  end.

(** [int i, p = -1; int skip = 0; long long seen = 0, output = 0;]
    The result is the exit status and the state on return. *)
Definition main (fuel : nat) (u_addr : Z) (input : list (list Z))
  : res (Z * st) :=
  loop fuel u_addr input (St [] [] (-1) false 0 0 [] []).

End Webbase.

(** The total of the lengths [L] weighted by the frequencies [B],
    without reduction. *)
Definition dot (L B : list Z) : Z := foldr Z.add 0 (zip_with Z.mul L B).

(** ** [filter.c]

    The input is the sequence of the pairs [c n] that [scanf("%d %d")]
    reads before it fails.  [int] values are 32 bits wide; a numeral is
    stored as it is when it is within their range, which the properties
    that mention the counts state as a hypothesis.  The array
    [C] has [SIZE] cells, all zero at the start.  The total [tot] and the
    quotients [C[i] / tot] are floating point: a line of the output is
    kept as the number [i - offset] and the count [C[i]] that is
    divided. *)

Module Filter.

Definition SIZE : Z := 100000000.

Definition wrap32 (z : Z) : Z := (z + 2 ^ 31) `mod` 2 ^ 32 - 2 ^ 31.

Definition add32 (x y : Z) : Z := wrap32 (x + y).

Definition sub32 (x y : Z) : Z := wrap32 (x - y).

Definition neg32 (x : Z) : Z := wrap32 (- x).

Record st : Type := St { C : gmap Z Z; offset : Z; n : Z }.

(** [C[i]] as an rvalue: a cell that was never assigned holds 0. *)
Definition cell (s : st) (i : Z) : Z := default 0 (C s !! i).

(** [if (offset + n < 0) offset = - n; C[offset + n] = c;] *)
Definition store (c n : Z) (s : st) : res st :=
  let offset' := if add32 (offset s) n <? 0 then neg32 n else offset s in
  let i := add32 offset' n in
  if (0 <=? i) && (i <? SIZE) then Ok (St (<[i := c]> (C s)) offset' n)
  else OutOfBounds.

(** [while (scanf("%d %d", &c, &n) == 2) { ... }] *)
Fixpoint read (pairs : list (Z * Z)) (s : st) : res st :=
  match pairs with
  | [] => Ok s
  | (c, n) :: rest => s' ← store c n s; read rest s'
  end.

(** [k] iterations of [for (...; i <= n + offset; i++) printf(...)]
    from [i]. *)
Fixpoint print (k : nat) (i : Z) (s : st) : res (list (Z * Z)) :=
  match k with
  | O => Ok []
  | S k' =>
      if (0 <=? i) && (i <? SIZE) then
        rest ← print k' (i + 1) s;
        Ok ((sub32 i (offset s), cell s i) :: rest)
      else OutOfBounds
  end.

(** [n_init] is the value that [n] holds before the first [scanf]. *)
Definition main (n_init : Z) (pairs : list (Z * Z)) : res (list (Z * Z)) :=
  s ← read pairs (St ∅ 1 n_init);
  print (Z.to_nat (add32 (n s) (offset s) + 1)) 0 s.

End Filter.

(** The count last given for the number [v] in [pairs], [init] if
    none. *)
Fixpoint count_of (pairs : list (Z * Z)) (v init : Z) : Z :=
  match pairs with
  | [] => init
  | (c, n) :: rest => count_of rest v (if n =? v then c else init)
  end.

(** The number of the last pair, [d] if there is none. *)
Fixpoint last_number (pairs : list (Z * Z)) (d : Z) : Z :=
  match pairs with
  | [] => d
  | (c, n) :: rest => last_number rest n
  end.

(** ** Notions for [webbase.c] *)

(** The state that an iteration leaves. *)
Definition state_of (r : Webbase.next) : Webbase.st :=
  match r with
  | Webbase.Continue _ s => s
  | Webbase.Return _ s => s
  end.

(** A line without control or space characters. *)
Definition clean (l : list Z) : bool := forallb (fun c => 32 <? c) l.

(** What the program prints for a line of a successor list. *)
Definition link (l : list Z) : list Z :=
  if clean l && Webbase.starts_with Webbase.HTTP l
  then Webbase.TAB :: Webbase.fixProtocol l
  else [].

(** * Notions for the optimality of the code *)

(** ** The cost of a code

    A code gives a length to each weight: [cost ps] is the weighted
    length of a list of pairs of a weight and a length.
    [scaled_kraft D ls] is Kraft's sum of the lengths [ls] multiplied by
    [2^D], an integer when no length exceeds [D]. *)

Definition cost (ps : list (Z * Z)) : Z :=
  foldr (fun p acc => p.1 * p.2 + acc) 0 ps.

Definition scaled_kraft (D : Z) (ls : list Z) : Z :=
  foldr (fun l acc => 2 ^ (D - l) + acc) 0 ls.

(** A code whose lengths lie in [0 .. D] and satisfy Kraft's
    inequality. *)
Definition code_ok (D : Z) (ps : list (Z * Z)) : Prop :=
  Forall (fun l => 0 <= l <= D) (ps.*2)
  /\ scaled_kraft D (ps.*2) <= 2 ^ D.

(** ** The items still to be paired

    [slice B lo hi] lists the slots [lo .. hi-1] of [B].  At the test
    of the [for] loop of the first pass the items that remain are the
    internal nodes in the slots [root .. next-1] and the leaves in the
    slots from [leaf] on. *)

Definition slice (B : arr) (lo hi : Z) : list Z :=
  geti B <$> seqZ lo (hi - lo).

Definition items (n next : Z) (s : p1) : list Z :=
  slice (p1_A s) (p1_root s) next ++ slice (p1_A s) (p1_leaf s) n.

(** The weights that [j] iterations of the first pass store in the slots
    from [next] on. *)
Fixpoint merged_weights (n : Z) (j : nat) (next : Z) (s : p1) : list Z :=
  match j with
  | O => []
  | S j' =>
      match pass1_body n next s with
      | Ok s' => geti (p1_A s') next :: merged_weights n j' (next + 1) s'
      | _ => []
      end
  end.

(** All the combined weights of the first pass, in the order in which
    they are stored. *)
Definition combined_weights (A : arr) : list Z :=
  match pass1_init A with
  | Ok s0 =>
      geti (p1_A s0) 0
      :: merged_weights (len A) (Z.to_nat (len A - 2)) 1 s0
  | _ => []
  end.

(** ** The internal nodes paired before an iteration

    [paired_before n P k r]: among the parent pointers [P], exactly the
    slots below [r] point to the left of [k]; [r] is the value of [root]
    at the test of the iteration [next = k] of the first pass. *)
Definition paired_before (n : Z) (P : arr) (k r : Z) : Prop :=
  0 <= r <= n - 2
  /\ forall x, 0 <= x <= n - 3 -> (x < r <-> geti P x < k).

(** ** Invariant of the third pass on the leaves

    At the test of the outer loop.  A leaf paired by the iteration
    [next = k] of the first pass lies in the slots [2k-r .. 2(k+1)-r'-1],
    where [r] and [r'] internal nodes are paired before the iterations
    [k] and [k+1]; once assigned, its depth is one more than that of the
    node [k].  The level above the current one ends at the node [c] with
    [avbl = 2 (c - root)]. *)
Record leaves3 (n : Z) (P D : arr) (s : p3) : Prop := Leaves3 {
  l3_done : forall k r r' i,
      0 <= k <= n - 2 ->
      paired_before n P k r -> paired_before n P (k + 1) r' ->
      p3_next s < i <= n - 1 -> 2 * k - r <= i < 2 * (k + 1) - r' ->
      geti (p3_A s) i = geti D k + 1;
  l3_level : 1 <= p3_dpth s -> 0 < p3_avbl s ->
      forall c, p3_avbl s = 2 * (c - p3_root s) ->
      geti D c = p3_dpth s - 1
      /\ paired_before n P (c + 1) (p3_root s + 1)
}.

(** * Lemmas *)

(** ** Reading and writing inside the bounds *)

Lemma res_bind_Ok {T U : Type} (x : T) (f : T -> res U) :
  (Ok x ≫= f) = f x.
Proof. reflexivity. Qed.

Lemma len_nonneg (A : arr) : 0 <= len A.
Proof. unfold len. lia. Qed.

Lemma rd_in (A : arr) (i : Z) : 0 <= i < len A -> rd A i = Ok (geti A i).
Proof.
  unfold rd, geti, len. intros H.
  destruct (Z.ltb_spec i 0) as [Hn|_]; [lia|].
  destruct (lookup_lt_is_Some_2 A (Z.to_nat i)) as [v Hv]; [lia|].
  rewrite Hv. reflexivity.
Qed.

Lemma rd_Ok (A : arr) (i v : Z) :
  rd A i = Ok v -> 0 <= i < len A /\ v = geti A i.
Proof.
  unfold rd, geti, len.
  destruct (Z.ltb_spec i 0) as [Hn|Hp]; [discriminate|].
  destruct (A !! Z.to_nat i) as [w|] eqn:E; [|discriminate].
  intros [= <-]. apply lookup_lt_Some in E. simpl. lia.
Qed.

Lemma wr_in (A : arr) (i v : Z) : 0 <= i < len A -> wr A i v = Ok (seti A i v).
Proof.
  unfold wr, seti, len. intros H.
  destruct (Z.leb_spec 0 i); [|lia].
  destruct (Z.ltb_spec i (Z.of_nat (length A))); [|lia].
  reflexivity.
Qed.

Lemma wr_Ok (A A' : arr) (i v : Z) :
  wr A i v = Ok A' -> 0 <= i < len A /\ A' = seti A i v.
Proof.
  unfold wr, seti, len.
  destruct (Z.leb_spec 0 i); simpl; [|discriminate].
  destruct (Z.ltb_spec i (Z.of_nat (length A))); [|discriminate].
  intros [= <-]. split; [lia|reflexivity].
Qed.

Lemma len_seti (A : arr) (i v : Z) : len (seti A i v) = len A.
Proof. unfold len, seti. rewrite length_insert. reflexivity. Qed.

Lemma geti_seti_eq (A : arr) (i v : Z) :
  0 <= i < len A -> geti (seti A i v) i = v.
Proof.
  unfold geti, seti, len. intros H.
  rewrite list_lookup_insert_eq by lia. reflexivity.
Qed.

Lemma geti_seti_ne (A : arr) (i j v : Z) :
  0 <= i -> 0 <= j -> i <> j -> geti (seti A i v) j = geti A j.
Proof.
  unfold geti, seti. intros Hi Hj Hne.
  rewrite list_lookup_insert_ne by lia. reflexivity.
Qed.

Lemma geti_seti (A : arr) (i j v : Z) :
  0 <= i < len A -> 0 <= j ->
  geti (seti A i v) j = if j =? i then v else geti A j.
Proof.
  intros Hi Hj. destruct (Z.eqb_spec j i) as [->|Hne].
  - apply geti_seti_eq; assumption.
  - apply geti_seti_ne; lia.
Qed.

Lemma geti_in (A : arr) (i : Z) :
  0 <= i < len A -> A !! Z.to_nat i = Some (geti A i).
Proof.
  intros H. pose proof (rd_in A i H) as E. unfold rd, geti in *.
  destruct (Z.ltb_spec i 0); [lia|].
  destruct (A !! Z.to_nat i); [reflexivity|discriminate].
Qed.

Lemma geti_lookup (L : list Z) (i : nat) (x : Z) :
  L !! i = Some x -> geti L (Z.of_nat i) = x.
Proof. unfold geti. rewrite Nat2Z.id. intros ->. reflexivity. Qed.

Lemma lookup_in_len (L : list Z) (i : nat) (x : Z) :
  L !! i = Some x -> 0 <= Z.of_nat i <= len L - 1.
Proof. intros H. apply lookup_lt_Some in H. unfold len. lia. Qed.

Lemma geti_cons (a : Z) (A : arr) (i : Z) :
  0 <= i -> geti (a :: A) (i + 1) = geti A i.
Proof.
  intros H. unfold geti.
  replace (Z.to_nat (i + 1)) with (S (Z.to_nat i)) by lia. reflexivity.
Qed.

(** ** The first pass keeps its invariant *)

Ltac in_bounds := rewrite ?len_seti; lia.

Ltac run_step :=
  first [ rewrite rd_in by in_bounds
        | rewrite wr_in by in_bounds ];
  simpl.

Ltac split_geti :=
  repeat match goal with
  | |- context [geti (seti ?A ?i ?v) ?j] =>
      rewrite (geti_seti A i j v) by in_bounds
  | H : context [geti (seti ?A ?i ?v) ?j] |- _ =>
      rewrite (geti_seti A i j v) in H by in_bounds
  end;
  repeat match goal with
  | |- context [?a =? ?b] => destruct (Z.eqb_spec a b)
  | H : context [?a =? ?b] |- _ => destruct (Z.eqb_spec a b)
  end.

Lemma pass1_init_inv (A : arr) :
  2 <= len A ->
  exists s, pass1_init A = Ok s /\ inv1 (len A) 1 s.
Proof.
  intros Hn. unfold pass1_init. repeat run_step.
  eexists; split; [reflexivity|].
  constructor; simpl; try in_bounds.
Qed.

(** The fields of [inv1] after an iteration, from those before it. *)
Ltac keep_inv1 Hptr Hmono Htwo :=
  eexists; split; [reflexivity|];
  constructor; simpl;
  [ in_bounds | in_bounds | in_bounds | in_bounds | in_bounds
  | intros i Hi; pose proof (Hptr i); split_geti; lia
  | intros i j Hi Hij Hj; pose proof (Hptr i); pose proof (Hptr j);
    pose proof (Hmono i j); split_geti; lia
  | intros i Hi Hi2; pose proof (Hptr i); pose proof (Hptr (i + 2));
    pose proof (Htwo i); split_geti; lia ].

(** The value test [A[root] < A[leaf]] of a selection, both ways. *)
Ltac split_test :=
  match goal with
  | |- context [if ?a <? ?b then _ else _] => destruct (Z.ltb_spec a b)
  end; simpl.

Lemma pass1_body_inv (n next : Z) (s : p1) :
  1 <= next <= n - 2 -> inv1 n next s ->
  exists s', pass1_body n next s = Ok s' /\ inv1 n (next + 1) s'.
Proof.
  intros Hnext [Hlen Hroot Hsum Hlo Hhi Hptr Hmono Htwo].
  destruct s as [A root leaf]; simpl in *.
  unfold pass1_body, select_first, select_second, take_first, take_second;
    simpl.
  destruct (Z.geb_spec leaf n) as [Hl|Hl]; simpl.
  - (* no leaf remains: two roots *)
    repeat run_step.
    destruct (Z.geb_spec leaf n) as [_|?]; [simpl|lia].
    repeat run_step. keep_inv1 Hptr Hmono Htwo.
  - repeat run_step. split_test.
    + (* root first *)
      repeat run_step.
      destruct (Z.geb_spec leaf n) as [?|_]; [lia|simpl].
      destruct (Z.ltb_spec (root + 1) next) as [Hr|Hr]; simpl.
      * repeat run_step. split_test; repeat run_step;
          keep_inv1 Hptr Hmono Htwo.
      * repeat run_step. keep_inv1 Hptr Hmono Htwo.
    + (* leaf first *)
      repeat run_step.
      destruct (Z.geb_spec (leaf + 1) n) as [Hl1|Hl1]; simpl.
      * repeat run_step. keep_inv1 Hptr Hmono Htwo.
      * destruct (Z.ltb_spec root next) as [Hr|Hr]; [simpl|lia].
        repeat run_step. split_test; repeat run_step;
          keep_inv1 Hptr Hmono Htwo.
Qed.

Lemma pass1_iter_inv (n : Z) (k : nat) : forall (next : Z) (s : p1),
  1 <= next -> next + Z.of_nat k <= n - 1 -> inv1 n next s ->
  exists s', pass1_iter n k next s = Ok s' /\ inv1 n (next + Z.of_nat k) s'.
Proof.
  induction k as [|k IH]; intros next s Hlo Hhi Hinv; simpl.
  - exists s. split; [reflexivity|].
    replace (next + Z.of_nat 0) with next by lia. assumption.
  - destruct (pass1_body_inv n next s) as (s1 & E1 & Hinv1);
      [lia|assumption|].
    rewrite E1; simpl.
    destruct (IH (next + 1) s1) as (s2 & E2 & Hinv2); [lia|lia|assumption|].
    exists s2. split; [assumption|].
    replace (next + Z.of_nat (S k)) with (next + 1 + Z.of_nat k) by lia.
    assumption.
Qed.

Lemma pass1_inv (A : arr) :
  2 <= len A ->
  exists s, pass1 (len A) A = Ok s /\ inv1 (len A) (len A - 1) s.
Proof.
  intros Hn. unfold pass1.
  destruct (pass1_init_inv A Hn) as (s0 & E0 & H0). rewrite E0; simpl.
  destruct (pass1_iter_inv (len A) (Z.to_nat (len A - 2)) 1 s0)
    as (s1 & E1 & H1); [lia|lia|assumption|].
  exists s1. split; [assumption|].
  replace (len A - 1) with (1 + Z.of_nat (Z.to_nat (len A - 2))) by lia.
  assumption.
Qed.

Lemma inv1_final (n : Z) (s : p1) :
  inv1 n (n - 1) s ->
  p1_root s = n - 2 /\ p1_leaf s = n /\ parents n (p1_A s).
Proof.
  intros [Hlen Hroot Hsum Hlo Hhi Hptr Hmono Htwo].
  assert (p1_leaf s = n) by lia. assert (p1_root s = n - 2) by lia.
  repeat split; try assumption.
  - pose proof (Hptr i). lia.
  - pose proof (Hptr i). lia.
  - intros i j Hi Hij Hj. apply Hmono; lia.
  - intros i Hi Hi2. apply Htwo; lia.
Qed.

Lemma pass1_parents (A : arr) :
  2 <= len A ->
  exists s, pass1 (len A) A = Ok s /\ parents (len A) (p1_A s).
Proof.
  intros Hn. destruct (pass1_inv A Hn) as (s & E & Hinv).
  exists s. split; [assumption|]. apply inv1_final in Hinv. tauto.
Qed.

(** ** The second pass *)

Lemma pass2_body_inv (n : Z) (P A : arr) (done : Z) :
  2 <= n -> parents n P -> 0 <= done < n - 2 -> inv2 n P done A ->
  exists A', pass2_body A (n - 3 - done) = Ok A' /\ inv2 n P (done + 1) A'.
Proof.
  intros Hn [_ Pptr _ _] Hd [Hlen Hroot Hdepth Hp].
  unfold pass2_body.
  pose proof (Pptr (n - 3 - done)) as Hpp.
  pose proof (Hp (n - 3 - done)) as Hq.
  run_step. rewrite Hq by lia. repeat run_step.
  eexists; split; [reflexivity|].
  constructor; try in_bounds.
  - split_geti; lia.
  - intros i Hi. destruct (Z.eq_dec i (n - 3 - done)) as [->|Hne].
    + split_geti; lia.
    + pose proof (Pptr i). pose proof (Hdepth i). split_geti; lia.
  - intros i Hi. pose proof (Hp i). split_geti; lia.
Qed.

Lemma pass2_iter_inv (n : Z) (P : arr) (k : nat) : forall (done : Z) (A : arr),
  2 <= n -> parents n P -> 0 <= done -> done + Z.of_nat k <= n - 2 ->
  inv2 n P done A ->
  exists A', pass2_iter k (n - 3 - done) A = Ok A'
             /\ inv2 n P (done + Z.of_nat k) A'.
Proof.
  induction k as [|k IH]; intros done A Hn HP Hd Hk Hinv; simpl.
  - exists A. split; [reflexivity|].
    replace (done + Z.of_nat 0) with done by lia. assumption.
  - destruct (pass2_body_inv n P A done) as (A1 & E1 & H1);
      [assumption|assumption|lia|assumption|].
    rewrite E1; simpl.
    replace (n - 3 - done - 1) with (n - 3 - (done + 1)) by lia.
    destruct (IH (done + 1) A1) as (A2 & E2 & H2);
      [assumption|assumption|lia|lia|assumption|].
    exists A2. split; [assumption|].
    replace (done + Z.of_nat (S k)) with (done + 1 + Z.of_nat k) by lia.
    assumption.
Qed.

Lemma pass2_start (n : Z) (P : arr) :
  2 <= n -> parents n P -> inv2 n P 0 (seti P (n - 2) 0).
Proof.
  intros Hn [Plen _ _ _].
  constructor.
  - in_bounds.
  - apply geti_seti_eq. lia.
  - intros i Hi. lia.
  - intros i Hi. apply geti_seti_ne; lia.
Qed.

Lemma pass2_depths (n : Z) (P : arr) :
  2 <= n -> parents n P ->
  exists D, pass2 n P = Ok D /\ depths n P D.
Proof.
  intros Hn HP. unfold pass2.
  rewrite wr_in by (destruct HP; lia). simpl.
  destruct (pass2_iter_inv n P (Z.to_nat (n - 2)) 0 (seti P (n - 2) 0))
    as (D & E & HD); [assumption|assumption|lia|lia| |].
  { apply pass2_start; assumption. }
  replace (n - 3 - 0) with (n - 3) in E by lia.
  exists D. split; [assumption|].
  destruct HD as [Hlen Hroot Hdepth _].
  constructor; try assumption.
  intros i Hi. apply Hdepth. lia.
Qed.

(** ** The second pass, iteration by iteration *)

Lemma pass2_iter_app (k m : nat) : forall (next : Z) (A : arr),
  pass2_iter (k + m) next A
  = (A1 ← pass2_iter k next A; pass2_iter m (next - Z.of_nat k) A1).
Proof.
  induction k as [|k IH]; intros next A.
  - replace (next - Z.of_nat 0) with next by lia. reflexivity.
  - change (S k + m)%nat with (S (k + m)). cbn [pass2_iter].
    destruct (pass2_body A next) as [A1| |]; simpl; try reflexivity.
    rewrite IH.
    replace (next - 1 - Z.of_nat k) with (next - Z.of_nat (S k)) by lia.
    reflexivity.
Qed.

Lemma pass2_iter_keeps (m : nat) : forall (next : Z) (A A' : arr),
  pass2_iter m next A = Ok A' ->
  len A' = len A /\ forall j, next < j -> geti A' j = geti A j.
Proof.
  induction m as [|m IH]; intros next A A'; simpl.
  - intros [= <-]. split; reflexivity.
  - unfold pass2_body.
    destruct (rd A next) as [p| |] eqn:Ep; simpl; try discriminate.
    destruct (rd A p) as [d| |] eqn:Ed; simpl; try discriminate.
    destruct (wr A next (d + 1)) as [A1| |] eqn:Ew; simpl; try discriminate.
    intros E. apply wr_Ok in Ew as [Hb ->].
    apply IH in E as [Hlen Hkeep]. rewrite len_seti in Hlen.
    split; [assumption|].
    intros j Hj. rewrite Hkeep by lia. apply geti_seti_ne; lia.
Qed.

(** ** The third pass: the two inner loops *)

Lemma scan_level_spec (fuel : nat) : forall (s : p3),
  -1 <= p3_root s < len (p3_A s) ->
  p3_root s + 1 < Z.of_nat fuel ->
  exists (u : Z) (f : nat),
    scan_level fuel s
    = Ok (P3 (p3_A s) (p3_root s - u) (p3_next s) (p3_avbl s)
             (p3_used s + u) (p3_dpth s), f)
    /\ 0 <= u <= p3_root s + 1
    /\ Z.of_nat fuel = Z.of_nat f + u + 1
    /\ (forall i, p3_root s - u < i <= p3_root s ->
                  geti (p3_A s) i = p3_dpth s)
    /\ (0 <= p3_root s - u -> geti (p3_A s) (p3_root s - u) <> p3_dpth s).
Proof.
  induction fuel as [|fuel IH]; intros [A root next avbl used dpth];
    simpl; intros Hr Hf; [lia|].
  destruct (Z.geb_spec root 0) as [Hr0|Hr0].
  - run_step.
    destruct (Z.eqb_spec (geti A root) dpth) as [Heq|Hne].
    + destruct (IH (P3 A (root - 1) next avbl (used + 1) dpth))
        as (u & f & E & Hu & Hfu & Hall & Hstop); simpl in *; [lia|lia|].
      exists (u + 1), f. rewrite E.
      replace (root - 1 - u) with (root - (u + 1)) in * by lia.
      replace (used + 1 + u) with (used + (u + 1)) by lia.
      repeat split; try lia.
      intros i Hi. destruct (Z.eq_dec i root) as [->|?]; [assumption|].
      apply Hall. lia.
    + exists 0, fuel.
      replace (root - 0) with root by lia.
      replace (used + 0) with used by lia.
      repeat split; try lia.
  - exists 0, fuel.
    replace (root - 0) with root by lia.
    replace (used + 0) with used by lia.
    repeat split; try lia.
Qed.

Lemma after_seti (A : arr) (i v : Z) :
  0 <= i < len A -> after (seti A i v) (i - 1) = v :: after A i.
Proof.
  unfold after, seti, len. intros Hi.
  replace (Z.to_nat (i - 1 + 1)) with (Z.to_nat i) by lia.
  replace (Z.to_nat (i + 1)) with (S (Z.to_nat i)) by lia.
  rewrite (drop_S _ v (Z.to_nat i)) by (apply list_lookup_insert_eq; lia).
  rewrite drop_insert_lt by lia. reflexivity.
Qed.

Lemma after_last (A : arr) : after A (len A - 1) = [].
Proof. unfold after, len. apply drop_ge. lia. Qed.

Lemma after_all (A : arr) : after A (-1) = A.
Proof. reflexivity. Qed.

Lemma kraft_cons (l : Z) (ls : list Z) :
  kraft (l :: ls) = Qplus (kraft_term l) (kraft ls).
Proof. reflexivity. Qed.

Lemma kraft_term_succ (d : Z) :
  Qeq (2 * kraft_term (d + 1)) (kraft_term d).
Proof.
  unfold kraft_term.
  replace (- (d + 1)) with (- d + -1) by lia.
  rewrite Qpower_plus by discriminate.
  change (Qpower 2 (-1)) with (1 # 2)%Q. field.
Qed.

Lemma fill_level_spec (k : nat) : forall (fuel : nat) (s : p3),
  p3_avbl s - p3_used s = Z.of_nat k ->
  (k < fuel)%nat ->
  -1 <= p3_next s - Z.of_nat k -> p3_next s < len (p3_A s) ->
  exists (A' : arr) (f : nat),
    fill_level fuel s
    = Ok (P3 A' (p3_root s) (p3_next s - Z.of_nat k) (p3_used s) (p3_used s)
             (p3_dpth s), f)
    /\ fuel = (f + k + 1)%nat
    /\ len A' = len (p3_A s)
    /\ (forall i, 0 <= i -> i <= p3_next s - Z.of_nat k \/ p3_next s < i ->
                  geti A' i = geti (p3_A s) i)
    /\ (forall i, p3_next s - Z.of_nat k < i <= p3_next s ->
                  geti A' i = p3_dpth s)
    /\ Qeq (kraft (after A' (p3_next s - Z.of_nat k)))
           (kraft (after (p3_A s) (p3_next s))
            + inject_Z (Z.of_nat k) * kraft_term (p3_dpth s)).
Proof.
  induction k as [|k IH]; intros fuel [A root next avbl used dpth]; simpl;
    intros Hk Hf Hlo Hhi.
  - destruct fuel as [|f]; [lia|]. simpl.
    destruct (Z.gtb_spec avbl used) as [?|_]; [lia|].
    exists A, f. change (Z.of_nat 0) with 0 in *.
    replace (next - 0) with next by lia.
    replace avbl with used by lia.
    split; [reflexivity|].
    repeat split; try lia.
    change (inject_Z 0) with 0%Q. ring.
  - destruct fuel as [|fuel]; [lia|]. simpl.
    destruct (Z.gtb_spec avbl used) as [_|?]; [|lia].
    run_step.
    destruct (IH fuel (P3 (seti A next dpth) root (next - 1) (avbl - 1) used
                           dpth))
      as (A' & f & E & Hfu & Hlen & Hout & Hin & Hkr); simpl in *;
      [lia|lia|lia|in_bounds|].
    replace (next - 1 - Z.of_nat k) with (next - Z.pos (Pos.of_succ_nat k))
      in * by lia.
    exists A', f. rewrite E.
    split; [reflexivity|]. split; [lia|].
    split; [rewrite Hlen; apply len_seti|].
    split; [|split].
    + intros i Hi Hio. rewrite Hout by lia. apply geti_seti_ne; lia.
    + intros i Hi. destruct (Z.eq_dec i next) as [->|Hne].
      * rewrite Hout by lia. apply geti_seti_eq. lia.
      * apply Hin. lia.
    + rewrite Hkr. rewrite after_seti by lia. rewrite kraft_cons.
      replace (Z.of_nat (S k)) with (Z.of_nat k + 1) by lia.
      rewrite inject_Z_plus. change (inject_Z 1) with 1%Q. ring.
Qed.

(** ** The levels of the tree

    From here on [P] holds the parent pointers left by the first pass
    and [D] the depths left by the second pass. *)

Section Levels.

Variables (n : Z) (P D : arr).
Hypothesis Hn : 2 <= n.
Hypothesis HP : parents n P.
Hypothesis HD : depths n P D.

(** The depths never decrease towards the left, and grow by at most one
    from a slot to its left neighbour. *)

Lemma depths_below (k : nat) :
  forall i j, n - 2 - Z.of_nat k <= i -> 0 <= i -> i <= j -> j <= n - 2 ->
  0 <= geti D j <= geti D i.
Proof.
  pose proof HP as [_ Pptr Pmono _]. pose proof HD as [_ Droot Dchild].
  induction k as [|k IH]; intros i j Hk Hi Hij Hj.
  - assert (i = n - 2) by lia. assert (j = n - 2) by lia. subst i j. lia.
  - destruct (Z.eq_dec i (n - 2)) as [->|Hi2].
    { assert (j = n - 2) by lia. subst j. lia. }
    pose proof (Pptr i ltac:(lia)) as Hpi.
    pose proof (Dchild i ltac:(lia)) as Hdi.
    destruct (Z.eq_dec j (n - 2)) as [->|Hj2].
    { pose proof (IH (geti P i) (n - 2) ltac:(lia) ltac:(lia) ltac:(lia)
                     ltac:(lia)). lia. }
    pose proof (Pptr j ltac:(lia)) as Hpj.
    pose proof (Dchild j ltac:(lia)) as Hdj.
    pose proof (Pmono i j ltac:(lia) ltac:(lia) ltac:(lia)) as Hm.
    pose proof (IH (geti P i) (geti P j) ltac:(lia) ltac:(lia) ltac:(lia)
                   ltac:(lia)). lia.
Qed.

Lemma depths_mono (i j : Z) :
  0 <= i -> i <= j -> j <= n - 2 -> 0 <= geti D j <= geti D i.
Proof.
  intros Hi Hij Hj. apply (depths_below (Z.to_nat (n - 2))); lia.
Qed.

Lemma depths_gap (i : Z) :
  0 <= i <= n - 3 -> geti D i <= geti D (i + 1) + 1.
Proof.
  intros Hi.
  pose proof (pa_ptr n P HP i Hi) as Hp.
  pose proof (dp_child n P D HD i Hi) as Hd.
  pose proof (depths_mono (i + 1) (geti P i) ltac:(lia) ltac:(lia)
                ltac:(lia)).
  lia.
Qed.

(** A parent has at most two children among the internal nodes, so a
    level is at most twice as wide as the one above it. *)

Lemma parents_stride (k : nat) :
  forall i, 0 <= i -> i + 2 * Z.of_nat k <= n - 3 ->
  geti P i + Z.of_nat k <= geti P (i + 2 * Z.of_nat k).
Proof.
  induction k as [|k IH]; intros i Hi Hk.
  - replace (i + 2 * Z.of_nat 0) with i by lia. lia.
  - pose proof (IH i Hi ltac:(lia)) as H1.
    pose proof (pa_two n P HP (i + 2 * Z.of_nat k) ltac:(lia) ltac:(lia))
      as H2.
    replace (i + 2 * Z.of_nat (S k)) with (i + 2 * Z.of_nat k + 2) by lia.
    lia.
Qed.

Lemma level_width (a b c : Z) :
  -1 <= a -> a <= b -> b <= n - 3 -> b <= c ->
  (forall i, a < i <= b -> b < geti P i <= c) ->
  b - a <= 2 * (c - b).
Proof.
  intros Ha Hab Hb Hbc Hrange.
  destruct (Z.eq_dec a b) as [->|Hne]; [lia|].
  pose proof (Z.div_mod (b - a - 1) 2 ltac:(lia)) as Hdm.
  pose proof (Z.mod_pos_bound (b - a - 1) 2 ltac:(lia)) as Hmod.
  set (q := (b - a - 1) / 2) in *.
  assert (0 <= q) as Hq by (subst q; apply Z.div_pos; lia).
  pose proof (parents_stride (Z.to_nat q) (a + 1) ltac:(lia) ltac:(lia))
    as Hs.
  rewrite Z2Nat.id in Hs by assumption.
  pose proof (Hrange (a + 1) ltac:(lia)) as H1.
  pose proof (Hrange (a + 1 + 2 * q) ltac:(lia)) as H2.
  lia.
Qed.

(** One level of the third pass. *)

Lemma pass3_level (f : nat) (s : p3) :
  inv3 n P D s ->
  0 < p3_avbl s ->
  5 * (p3_root s + 1) + p3_avbl s + 3 <= Z.of_nat f ->
  exists s1 f1 s2 f2,
    scan_level f s = Ok (s1, f1)
    /\ fill_level f1 s1 = Ok (s2, f2)
    /\ inv3 n P D (P3 (p3_A s2) (p3_root s2) (p3_next s2) (2 * p3_used s2) 0
                      (p3_dpth s2 + 1))
    /\ need3 (P3 (p3_A s2) (p3_root s2) (p3_next s2) (2 * p3_used s2) 0
                 (p3_dpth s2 + 1)) <= Z.of_nat f2
    /\ (f2 <= f)%nat
    /\ Z.of_nat (S f) - need3 s
       <= Z.of_nat f2
          - need3 (P3 (p3_A s2) (p3_root s2) (p3_next s2) (2 * p3_used s2) 0
                      (p3_dpth s2 + 1)).
Proof.
  intros [Hlen Hroot Hnext Hnhi Hused Hdpth Hsame Hhere Habove Hdone Hwidth
          Hkraft Hout Hdesc] Havbl Hfuel.
  destruct s as [A root next avbl used d]; simpl in *. subst used.
  destruct (scan_level_spec f (P3 A root next avbl 0 d))
    as (u & f1 & E1 & Hu & Hf1 & Hall & Hstop); simpl in *; [lia|lia|].
  replace (0 + u) with u in E1 by lia.
  (* a level that is not empty is scanned *)
  assert (0 <= root -> 1 <= u) as Hu1.
  { intros Hr. destruct (Z.eq_dec u 0) as [->|]; [|lia].
    replace (root - 0) with root in Hstop by lia.
    specialize (Hstop Hr). rewrite Hsame in Hstop by lia.
    specialize (Hhere Hr). contradiction. }
  (* and is no wider than the slots available *)
  assert (u <= avbl) as Hua.
  { destruct (Z.eq_dec u 0) as [->|Hu0]; [lia|].
    destruct Hwidth as [(Hd0 & Ha1 & Hr2)|(Hd1 & c & Hc & Hac & Hcj)].
    - subst d avbl root.
      destruct (Z_le_gt_dec u 1) as [|Hgt]; [lia|].
      pose proof (Hall (n - 3) ltac:(lia)) as H3.
      rewrite Hsame in H3 by lia.
      pose proof (dp_child n P D HD (n - 3) ltac:(lia)) as H4.
      pose proof (pa_ptr n P HP (n - 3) ltac:(lia)) as H5.
      pose proof (depths_mono (geti P (n - 3)) (geti P (n - 3))
                    ltac:(lia) ltac:(lia) ltac:(lia)).
      lia.
    - assert (root <= n - 3) as Hr3.
      { destruct (Z.eq_dec root (n - 2)) as [->|]; [|lia].
        specialize (Hhere ltac:(lia)). pose proof (dp_root n P D HD). lia. }
      pose proof (level_width (root - u) root c ltac:(lia) ltac:(lia)
                    Hr3 ltac:(lia)) as Hw.
      enough (forall i, root - u < i <= root -> root < geti P i <= c)
        as Hrange by (specialize (Hw Hrange); lia).
      intros i Hi.
      pose proof (Hall i Hi) as Hdi. rewrite Hsame in Hdi by lia.
      pose proof (dp_child n P D HD i ltac:(lia)) as Hci.
      pose proof (pa_ptr n P HP i ltac:(lia)) as Hpi.
      split.
      + destruct (Z_lt_le_dec root (geti P i)) as [|Hle]; [assumption|].
        pose proof (depths_mono (geti P i) root ltac:(lia) Hle
                      ltac:(lia)).
        specialize (Hhere ltac:(lia)). lia.
      + destruct (Z_le_gt_dec (geti P i) c) as [|Hgt]; [assumption|].
        pose proof (Hcj (geti P i) ltac:(lia)). lia. }
  destruct (fill_level_spec (Z.to_nat (avbl - u)) f1
              (P3 A (root - u) next avbl u d))
    as (A' & f2 & E2 & Hf2 & Hlen' & Hsame' & Hnew & Hkr); simpl in *;
    [lia|lia|lia|lia|].
  rewrite Z2Nat.id in * by lia.
  replace (next - (avbl - u)) with (root + u) in * by lia.
  exists (P3 A (root - u) next avbl u d), f1,
         (P3 A' (root - u) (root + u) u u d), f2.
  split; [assumption|]. split; [assumption|]. simpl.
  split; [|split; [|split]].
  - constructor; simpl; try lia.
    + intros i Hi. rewrite Hsame' by lia. apply Hsame. lia.
    + intros Hr. pose proof (Hu1 ltac:(lia)) as Hu2.
      specialize (Hstop Hr). rewrite Hsame in Hstop by lia.
      pose proof (Hall (root - u + 1) ltac:(lia)) as Hd1.
      rewrite Hsame in Hd1 by lia.
      pose proof (depths_mono (root - u) (root - u + 1)
                    ltac:(lia) ltac:(lia) ltac:(lia)).
      pose proof (depths_gap (root - u) ltac:(lia)).
      lia.
    + intros j Hj. destruct (Z_lt_le_dec root j) as [Hlt|Hle].
      * pose proof (Habove j ltac:(lia)). lia.
      * pose proof (Hall j ltac:(lia)) as Hdj.
        rewrite Hsame in Hdj by lia. lia.
    + right. split; [lia|]. exists root. split; [lia|]. split; [lia|].
      intros j Hj. pose proof (Habove j Hj). lia.
    + rewrite Hkr.
      rewrite <- Hkraft.
      rewrite <- (kraft_term_succ d).
      rewrite !inject_Z_mult. unfold Z.sub. rewrite inject_Z_plus.
      rewrite inject_Z_opp. change (inject_Z 2) with 2%Q. ring.
    + intros i Hi. destruct (Z_le_gt_dec i next) as [Hle|Hgt].
      * rewrite Hnew by lia.
        destruct Hwidth as [(Hd0 & Ha1 & Hr2)|(Hd1 & _)]; lia.
      * rewrite Hsame' by lia. pose proof (Hout i ltac:(lia)). lia.
    + intros i j Hi Hij Hj.
      destruct (Z_le_gt_dec j next) as [Hjn|Hjn].
      * rewrite !Hnew by lia. lia.
      * rewrite (Hsame' j) by lia.
        destruct (Z_le_gt_dec i next) as [Hin|Hin].
        -- rewrite Hnew by lia. pose proof (Hout j ltac:(lia)). lia.
        -- rewrite Hsame' by lia. apply Hdesc; lia.
  - unfold need3; simpl.
    destruct (Z.eqb_spec (2 * u) 0); lia.
  - lia.
  - unfold need3; simpl.
    destruct (Z.eqb_spec avbl 0); [lia|].
    destruct (Z.eqb_spec (2 * u) 0); lia.
Qed.

(** The third pass as a whole. *)

Lemma inv3_avbl_nonneg (s : p3) :
  inv3 n P D s -> 0 <= p3_avbl s.
Proof.
  intros H. destruct (i3_width n P D s H) as [(_ & ? & _)|(_ & c & ? & ? & _)];
    lia.
Qed.

Lemma need3_pos (s : p3) : inv3 n P D s -> 1 <= need3 s.
Proof.
  intros H. pose proof (inv3_avbl_nonneg s H).
  pose proof (i3_root n P D s H). unfold need3.
  destruct (Z.eqb_spec (p3_avbl s) 0); lia.
Qed.

Lemma pass3_loop_spec (gas : nat) :
  forall (fuel : nat) (s : p3),
  inv3 n P D s -> (fuel <= gas)%nat -> need3 s <= Z.of_nat fuel ->
  exists s' f',
    pass3_loop gas fuel s = Ok (s', f') /\ inv3 n P D s' /\ p3_avbl s' = 0
    /\ Z.of_nat fuel - need3 s <= Z.of_nat f'.
Proof.
  induction gas as [|gas IH]; intros fuel s Hinv Hgas Hneed;
    pose proof (need3_pos s Hinv) as Hpos.
  - lia.
  - destruct fuel as [|f]; [lia|]. simpl.
    pose proof (inv3_avbl_nonneg s Hinv) as Ha.
    destruct (Z.gtb_spec (p3_avbl s) 0) as [Hgt|Hle].
    + assert (5 * (p3_root s + 1) + p3_avbl s + 3 <= Z.of_nat f) as Hf.
      { unfold need3 in Hneed.
        destruct (Z.eqb_spec (p3_avbl s) 0); lia. }
      destruct (pass3_level f s Hinv ltac:(lia) Hf)
        as (s1 & f1 & s2 & f2 & E1 & E2 & Hinv' & Hneed' & Hf2 & Hslack).
      rewrite E1; simpl. rewrite E2; simpl.
      destruct (IH f2 _ Hinv' ltac:(lia) Hneed')
        as (s' & f' & E & Hinv'' & Hav & Hleft).
      exists s', f'. split; [assumption|]. split; [assumption|].
      split; [assumption|]. lia.
    + exists s, f. split; [reflexivity|]. split; [assumption|].
      split; [lia|]. unfold need3.
      destruct (Z.eqb_spec (p3_avbl s) 0); lia.
Qed.

Lemma inv3_start : inv3 n P D (P3 D (n - 2) (n - 1) 1 0 0).
Proof.
  pose proof HD as [Dlen Droot Dchild].
  constructor; simpl; try lia.
  rewrite <- Dlen. rewrite after_last. reflexivity.
Qed.

Lemma pass3_spec (fuel : nat) :
  5 * n <= Z.of_nat fuel ->
  exists L f,
    pass3 fuel n D = Ok (L, f)
    /\ len L = n
    /\ Qeq (kraft L) 1
    /\ (forall i, 0 <= i <= n - 1 -> 1 <= geti L i)
    /\ (forall i j, 0 <= i -> i <= j -> j <= n - 1 -> geti L j <= geti L i)
    /\ Z.of_nat fuel - Z.of_nat f <= 5 * n.
Proof.
  intros Hfuel. unfold pass3.
  destruct (pass3_loop_spec fuel fuel (P3 D (n - 2) (n - 1) 1 0 0))
    as (s & f & E & Hinv & Hav & Hleft).
  - apply inv3_start.
  - lia.
  - unfold need3; simpl. lia.
  - rewrite E; simpl. exists (p3_A s), f.
    destruct Hinv as [Hlen Hroot Hnext _ _ _ _ _ _ Hdone _ Hkraft Hout Hdesc].
    specialize (Hdone Hav).
    assert (p3_next s = -1) as Hn1 by lia.
    rewrite Hn1, Hav in *.
    split; [reflexivity|]. split; [assumption|].
    split; [|split; [|split]].
    + rewrite after_all in Hkraft. rewrite <- Hkraft.
      change (inject_Z 0) with 0%Q. ring.
    + intros i Hi. pose proof (Hout i ltac:(lia)). lia.
    + intros i j Hi Hij Hj. apply Hdesc; lia.
    + unfold need3 in Hleft; simpl in Hleft. lia.
Qed.

End Levels.

(** ** The calculator on two or more symbols *)

Lemma cmr_steps_spec (A : arr) (fuel : nat) :
  2 <= len A -> 5 * len A <= Z.of_nat fuel ->
  exists L f,
    calculate_minimum_redundancy_steps fuel A (len A) = Ok (L, f)
    /\ len L = len A
    /\ Qeq (kraft L) 1
    /\ (forall i, 0 <= i <= len A - 1 -> 1 <= geti L i)
    /\ (forall i j, 0 <= i -> i <= j -> j <= len A - 1 ->
                    geti L j <= geti L i)
    /\ Z.of_nat fuel - Z.of_nat f <= 5 * len A.
Proof.
  intros Hn Hfuel. unfold calculate_minimum_redundancy_steps.
  destruct (Z.eqb_spec (len A) 0); [lia|].
  destruct (Z.eqb_spec (len A) 1); [lia|].
  destruct (pass1_parents A Hn) as (s1 & E1 & HP). rewrite E1; simpl.
  destruct (pass2_depths (len A) (p1_A s1) Hn HP) as (D & E2 & HD).
  rewrite E2; simpl.
  apply (pass3_spec (len A) (p1_A s1)); assumption.
Qed.

Lemma cmr_spec (A : arr) (fuel : nat) :
  2 <= len A -> 5 * len A <= Z.of_nat fuel ->
  exists L,
    calculate_minimum_redundancy fuel A (len A) = Ok L
    /\ len L = len A
    /\ Qeq (kraft L) 1
    /\ (forall i, 0 <= i <= len A - 1 -> 1 <= geti L i)
    /\ (forall i j, 0 <= i -> i <= j -> j <= len A - 1 ->
                    geti L j <= geti L i).
Proof.
  intros Hn Hfuel.
  destruct (cmr_steps_spec A fuel Hn Hfuel)
    as (L & f & E & Hlen & Hk & Hp & Hd & _).
  exists L. unfold calculate_minimum_redundancy. rewrite E. simpl.
  repeat split; assumption.
Qed.

(** ** Sums of slots *)

Lemma add64_small (x y : Z) :
  - 2 ^ 63 <= x + y <= INT64_MAX -> add64 x y = x + y.
Proof.
  unfold add64, wrap64, INT64_MAX. intros H.
  rewrite Z.mod_small by lia. lia.
Qed.

Lemma sumrange_empty (B : arr) (lo hi : Z) : hi <= lo -> sumrange B lo hi = 0.
Proof.
  intros H. unfold sumrange. replace (Z.to_nat (hi - lo)) with 0%nat by lia.
  reflexivity.
Qed.

Lemma sumrange_head (B : arr) (lo hi : Z) :
  lo < hi -> sumrange B lo hi = geti B lo + sumrange B (lo + 1) hi.
Proof.
  intros H. unfold sumrange.
  replace (Z.to_nat (hi - lo)) with (S (Z.to_nat (hi - (lo + 1)))) by lia.
  reflexivity.
Qed.

Lemma sumfrom_last (B : arr) (count : nat) : forall lo : Z,
  sumfrom B lo (S count)
  = sumfrom B lo count + geti B (lo + Z.of_nat count).
Proof.
  induction count as [|c IH]; intros lo.
  - simpl. change (Z.of_nat 0) with 0. rewrite !Z.add_0_r. reflexivity.
  - change (sumfrom B lo (S (S c)))
      with (geti B lo + sumfrom B (lo + 1) (S c)).
    rewrite IH. simpl sumfrom at 2.
    replace (lo + 1 + Z.of_nat c) with (lo + Z.of_nat (S c)) by lia. lia.
Qed.

Lemma sumrange_last (B : arr) (lo hi : Z) :
  lo <= hi -> sumrange B lo (hi + 1) = sumrange B lo hi + geti B hi.
Proof.
  intros H. unfold sumrange.
  replace (Z.to_nat (hi + 1 - lo)) with (S (Z.to_nat (hi - lo))) by lia.
  rewrite sumfrom_last. rewrite Z2Nat.id by lia.
  replace (lo + (hi - lo)) with hi by lia. reflexivity.
Qed.

Lemma sumfrom_ext (B B' : arr) (count : nat) : forall lo : Z,
  (forall i, lo <= i < lo + Z.of_nat count -> geti B i = geti B' i) ->
  sumfrom B lo count = sumfrom B' lo count.
Proof.
  induction count as [|c IH]; intros lo H; simpl; [reflexivity|].
  rewrite (H lo) by lia. rewrite (IH (lo + 1)); [reflexivity|].
  intros i Hi. apply H. lia.
Qed.

Lemma sumrange_ext (B B' : arr) (lo hi : Z) :
  (forall i, lo <= i < hi -> geti B i = geti B' i) ->
  sumrange B lo hi = sumrange B' lo hi.
Proof.
  intros H. unfold sumrange. apply sumfrom_ext.
  intros i Hi. apply H. lia.
Qed.

Lemma sumfrom_nonneg (B : arr) (count : nat) : forall lo : Z,
  (forall i, lo <= i < lo + Z.of_nat count -> 0 <= geti B i) ->
  0 <= sumfrom B lo count.
Proof.
  induction count as [|c IH]; intros lo H; simpl; [lia|].
  pose proof (H lo ltac:(lia)).
  pose proof (IH (lo + 1) ltac:(intros i Hi; apply H; lia)). lia.
Qed.

Lemma sumrange_nonneg (B : arr) (lo hi : Z) :
  (forall i, lo <= i < hi -> 0 <= geti B i) -> 0 <= sumrange B lo hi.
Proof.
  intros H. unfold sumrange. apply sumfrom_nonneg.
  intros i Hi. apply H. lia.
Qed.

Lemma sumfrom_cons (a : Z) (A : arr) (count : nat) : forall lo : Z,
  0 <= lo -> sumfrom (a :: A) (lo + 1) count = sumfrom A lo count.
Proof.
  induction count as [|c IH]; intros lo Hlo; simpl; [reflexivity|].
  rewrite geti_cons by lia. rewrite IH by lia. reflexivity.
Qed.

Lemma sumrange_total (A : list Z) : sumrange A 0 (len A) = total A.
Proof.
  unfold sumrange, len. rewrite Z.sub_0_r, Nat2Z.id.
  induction A as [|a A IH]; simpl; [reflexivity|].
  rewrite (sumfrom_cons a A (length A) 0) by lia. rewrite IH. reflexivity.
Qed.

(** ** The input, slot by slot *)

Lemma sorted_lookup (A : list Z) :
  Sorted Z.le A ->
  forall (i j : nat) (x y : Z),
    (i <= j)%nat -> A !! i = Some x -> A !! j = Some y -> x <= y.
Proof.
  intros HS. apply Sorted_StronglySorted in HS; [|intros a b c; lia].
  induction HS as [|a A HS IH Hall]; intros i j x y Hij Hx Hy.
  - discriminate.
  - destruct i as [|i], j as [|j]; simpl in *; try lia.
    + injection Hx as <-. injection Hy as <-. lia.
    + injection Hx as <-.
      apply (proj1 (Forall_lookup _ _) Hall j y Hy).
    + apply (IH i j x y); [lia|assumption|assumption].
Qed.

Lemma valid_ascending (A : list Z) :
  Forall (Z.le 0) A -> Sorted Z.le A -> ascending A (len A).
Proof.
  intros Hpos Hsort i j Hi Hij Hj.
  pose proof (geti_in A i ltac:(lia)) as Ei.
  pose proof (geti_in A j ltac:(lia)) as Ej.
  pose proof (proj1 (Forall_lookup _ _) Hpos _ _ Ei).
  pose proof (sorted_lookup A Hsort (Z.to_nat i) (Z.to_nat j) (geti A i)
                (geti A j) ltac:(lia) Ei Ej).
  simpl in *.
  lia.
Qed.

Lemma sumrange_asc_nonneg (A : arr) (n lo : Z) :
  ascending A n -> 0 <= lo -> 0 <= sumrange A lo n.
Proof.
  intros Hasc Hlo. apply sumrange_nonneg.
  intros i Hi. apply (Hasc i i); lia.
Qed.

(** ** The first pass and the weights *)

Ltac pairing_case :=
  repeat split; try reflexivity; try lia; intros; split_geti; lia.

Ltac solve_pairing :=
  unfold pairing; simpl;
  first [ left; solve [pairing_case]
        | right; left; solve [pairing_case]
        | right; right; left; solve [pairing_case]
        | right; right; right; solve [pairing_case] ].

Ltac finish_shape :=
  do 3 eexists; split; [reflexivity|];
  split; [solve_pairing|];
  simpl; split; [|split];
  [ split_geti; try lia; reflexivity
  | intros; split_geti; lia
  | in_bounds ].

Lemma pass1_body_shape (n next : Z) (s : p1) :
  1 <= next <= n - 2 -> inv1 n next s ->
  exists s' x y,
    pass1_body n next s = Ok s'
    /\ pairing n next s s' x y
    /\ geti (p1_A s') next = add64 x y
    /\ (forall i, 0 <= i -> i <> next -> i < p1_root s \/ p1_root s' <= i ->
                  geti (p1_A s') i = geti (p1_A s) i)
    /\ len (p1_A s') = n.
Proof.
  intros Hnext [Hlen Hroot Hsum Hlo Hhi _ _ _].
  destruct s as [A root leaf]; simpl in *.
  unfold pass1_body, select_first, select_second, take_first, take_second;
    simpl.
  destruct (Z.geb_spec leaf n) as [Hl|Hl]; simpl.
  - repeat run_step.
    destruct (Z.geb_spec leaf n) as [_|?]; [simpl|lia].
    repeat run_step. finish_shape.
  - repeat run_step.
    destruct (Z.ltb_spec (geti A root) (geti A leaf)) as [Hc|Hc]; simpl.
    + repeat run_step.
      destruct (Z.geb_spec leaf n) as [?|_]; [lia|simpl].
      destruct (Z.ltb_spec (root + 1) next) as [Hr|Hr]; simpl.
      * repeat run_step.
        match goal with
        | |- context [if ?a <? ?b then _ else _] =>
            destruct (Z.ltb_spec a b) as [Hc2|Hc2]
        end; simpl; repeat run_step; split_geti; try lia; finish_shape.
      * repeat run_step. finish_shape.
    + repeat run_step.
      destruct (Z.geb_spec (leaf + 1) n) as [Hl1|Hl1]; simpl.
      * repeat run_step. finish_shape.
      * destruct (Z.ltb_spec root next) as [Hr|Hr]; [simpl|lia].
        repeat run_step.
        match goal with
        | |- context [if ?a <? ?b then _ else _] =>
            destruct (Z.ltb_spec a b) as [Hc2|Hc2]
        end; simpl; repeat run_step; split_geti; try lia; finish_shape.
Qed.

Lemma weights_step_core (A : arr) (n next : Z) (s s' : p1) (x y : Z) :
  1 <= next <= n - 2 -> ascending A n ->
  inv1 n next s -> weights_inv A n next s ->
  geti (p1_A s') next = x + y ->
  (forall i, 0 <= i -> i <> next -> i < p1_root s \/ p1_root s' <= i ->
             geti (p1_A s') i = geti (p1_A s) i) ->
  p1_root s <= p1_root s' <= next -> p1_leaf s <= p1_leaf s' ->
  0 <= x <= y ->
  geti (p1_A s) (next - 1) <= x + y ->
  sumrange (p1_A s) (p1_root s') next + (x + y) + sumrange A (p1_leaf s') n
  <= INT64_MAX ->
  (forall i, p1_root s' <= i <= next - 1 -> y <= geti (p1_A s) i) ->
  (forall i, p1_leaf s' <= i <= n - 1 -> y <= geti A i) ->
  weights_inv A n (next + 1) s'.
Proof.
  intros Hnext Hasc [Hlen Hroot Hsum Hlo Hhi _ _ _]
    [Hleaves Hqueue Hnonneg _ _] Hnew Hframe Hr Hl Hxy Hgrow Htot Hfr Hfl.
  destruct s as [B root leaf], s' as [B' root' leaf']; simpl in *.
  constructor; simpl.
  - intros i Hi. rewrite Hframe by lia. apply Hleaves. lia.
  - intros i j Hi Hij Hj.
    destruct (Z.eq_dec j next) as [->|Hjn].
    + rewrite Hnew. destruct (Z.eq_dec i next) as [->|Hin].
      * rewrite Hnew. lia.
      * rewrite Hframe by lia.
        pose proof (Hqueue i (next - 1) ltac:(lia) ltac:(lia) ltac:(lia)).
        lia.
    + rewrite !Hframe by lia. apply Hqueue; lia.
  - intros i Hi. destruct (Z.eq_dec i next) as [->|Hin].
    + rewrite Hnew. lia.
    + rewrite Hframe by lia. apply Hnonneg. lia.
  - exists y. split; [lia|]. split; [|split].
    + replace (next + 1 - 1) with next by lia. rewrite Hnew. lia.
    + intros i Hi. rewrite Hframe by lia. apply Hfr. lia.
    + assumption.
  - rewrite sumrange_last by lia. rewrite Hnew.
    rewrite (sumrange_ext B' B root' next); [lia|].
    intros i Hi. apply Hframe; lia.
Qed.

Lemma pass1_body_weights (A : arr) (n next : Z) (s : p1) :
  1 <= next <= n - 2 -> ascending A n ->
  inv1 n next s -> weights_inv A n next s ->
  exists s',
    pass1_body n next s = Ok s'
    /\ inv1 n (next + 1) s'
    /\ weights_inv A n (next + 1) s'
    /\ geti (p1_A s) (next - 1) <= geti (p1_A s') next.
Proof.
  intros Hnext Hasc Hinv Hw.
  destruct (pass1_body_shape n next s Hnext Hinv)
    as (s' & x & y & E & Hpair & Hnew & Hframe & Hlen').
  destruct (pass1_body_inv n next s Hnext Hinv) as (s'' & E' & Hinv').
  rewrite E in E'. injection E' as <-.
  exists s'. split; [assumption|]. split; [assumption|].
  pose proof Hinv as [Hlen Hroot Hsum Hlo Hhi _ _ _].
  pose proof Hw as [Hleaves Hqueue Hnonneg (m & Hm0 & Hm1 & Hmr & Hml) Htot].
  destruct s as [B root leaf], s' as [B' root' leaf']; simpl in *.
  assert (0 <= x <= y /\ geti B (next - 1) <= x + y
          /\ root <= root' <= next /\ leaf <= leaf'
          /\ sumrange B root' next + (x + y) + sumrange A leaf' n
             <= INT64_MAX
          /\ (forall i, root' <= i <= next - 1 -> y <= geti B i)
          /\ (forall i, leaf' <= i <= n - 1 -> y <= geti A i))
    as (Hxy & Hgrow & Hr & Hl & Htot' & Hfr & Hfl).
  { unfold pairing in Hpair; simpl in Hpair.
    destruct Hpair as [(-> & -> & Hr1 & -> & -> & Hlt)
                      |[(-> & -> & Hl1 & -> & -> & Hlt & Hle)
                      |[(-> & -> & Hl1 & -> & -> & Hle & Hlt)
                       |(-> & -> & Hl1 & -> & -> & Hle1 & Hle2)]]].
    - (* two roots *)
      pose proof (Hnonneg root ltac:(lia)).
      pose proof (Hqueue root (root + 1) ltac:(lia) ltac:(lia) ltac:(lia)).
      rewrite (sumrange_head B root next) in Htot by lia.
      rewrite (sumrange_head B (root + 1) next) in Htot by lia.
      replace (root + 1 + 1) with (root + 2) in Htot by lia.
      repeat split; try lia.
      + destruct (Z.eq_dec (root + 1) (next - 1)) as [Heq|Hne].
        * rewrite <- Heq. lia.
        * pose proof (Hmr root ltac:(lia)).
          pose proof (Hmr (root + 1) ltac:(lia)). lia.
      + intros i Hi. apply Hqueue; lia.
      + intros i Hi. pose proof (Hlt ltac:(lia)) as [_ Hy].
        rewrite (Hleaves leaf) in Hy by lia.
        pose proof (Hasc leaf i ltac:(lia) ltac:(lia) ltac:(lia)). lia.
    - (* a root, then a leaf *)
      pose proof (Hnonneg root ltac:(lia)).
      rewrite (Hleaves leaf) in * by lia.
      pose proof (Hasc leaf leaf ltac:(lia) ltac:(lia) ltac:(lia)).
      rewrite (sumrange_head B root next) in Htot by lia.
      rewrite (sumrange_head A leaf n) in Htot by lia.
      repeat split; try lia.
      + destruct (Z.eq_dec root (next - 1)) as [Heq|Hne].
        * rewrite <- Heq. lia.
        * pose proof (Hmr root ltac:(lia)).
          pose proof (Hml leaf ltac:(lia)). lia.
      + intros i Hi. specialize (Hle ltac:(lia)).
        pose proof (Hqueue (root + 1) i ltac:(lia) ltac:(lia) ltac:(lia)).
        lia.
      + intros i Hi.
        pose proof (Hasc leaf i ltac:(lia) ltac:(lia) ltac:(lia)). lia.
    - (* a leaf, then a root *)
      pose proof (Hnonneg root ltac:(lia)).
      rewrite (Hleaves leaf) in * by lia.
      pose proof (Hasc leaf leaf ltac:(lia) ltac:(lia) ltac:(lia)).
      rewrite (sumrange_head B root next) in Htot by lia.
      rewrite (sumrange_head A leaf n) in Htot by lia.
      repeat split; try lia.
      + destruct (Z.eq_dec root (next - 1)) as [Heq|Hne].
        * rewrite <- Heq. lia.
        * pose proof (Hmr root ltac:(lia)).
          pose proof (Hml leaf ltac:(lia)). lia.
      + intros i Hi. apply Hqueue; lia.
      + intros i Hi. specialize (Hlt ltac:(lia)).
        rewrite (Hleaves (leaf + 1)) in Hlt by lia.
        pose proof (Hasc (leaf + 1) i ltac:(lia) ltac:(lia) ltac:(lia)).
        lia.
    - (* two leaves *)
      rewrite (Hleaves leaf) in * by lia.
      rewrite (Hleaves (leaf + 1)) in * by lia.
      pose proof (Hasc leaf (leaf + 1) ltac:(lia) ltac:(lia) ltac:(lia)).
      rewrite (sumrange_head A leaf n) in Htot by lia.
      rewrite (sumrange_head A (leaf + 1) n) in Htot by lia.
      replace (leaf + 1 + 1) with (leaf + 2) in Htot by lia.
      repeat split; try lia.
      + pose proof (Hml leaf ltac:(lia)).
        pose proof (Hml (leaf + 1) ltac:(lia)). lia.
      + intros i Hi.
        pose proof (Hqueue root i ltac:(lia) ltac:(lia) ltac:(lia)). lia.
      + intros i Hi.
        pose proof (Hasc (leaf + 1) i ltac:(lia) ltac:(lia) ltac:(lia)).
        lia. }
  assert (0 <= sumrange B root' next) as Hs1.
  { apply sumrange_nonneg. intros i Hi. apply Hnonneg. lia. }
  pose proof (sumrange_asc_nonneg A n leaf' Hasc ltac:(lia)) as Hs2.
  rewrite add64_small in Hnew by (unfold INT64_MAX in *; lia).
  split; [|rewrite Hnew; assumption].
  apply (weights_step_core A n next (P1 B root leaf) (P1 B' root' leaf') x y);
    simpl; assumption.
Qed.

(** ** The first pass keeps the invariant on the weights *)

Lemma pass1_init_weights (A : arr) :
  2 <= len A -> ascending A (len A) -> total A <= INT64_MAX ->
  exists s,
    pass1_init A = Ok s /\ inv1 (len A) 1 s /\ weights_inv A (len A) 1 s
    /\ geti (p1_A s) 0 = geti A 0 + geti A 1.
Proof.
  intros Hn Hasc Htot.
  destruct (pass1_init_inv A Hn) as (s & E & Hinv).
  exists s. split; [assumption|]. split; [assumption|].
  unfold pass1_init in E. rewrite !rd_in in E by lia. simpl in E.
  rewrite wr_in in E by lia. simpl in E. injection E as <-.
  rewrite <- sumrange_total in Htot.
  rewrite (sumrange_head A 0) in Htot by lia.
  rewrite (sumrange_head A (0 + 1)) in Htot by lia.
  change (0 + 1 + 1) with 2 in Htot. change (0 + 1) with 1 in Htot.
  pose proof (sumrange_asc_nonneg A (len A) 2 Hasc ltac:(lia)) as Hrest.
  pose proof (Hasc 0 1 ltac:(lia) ltac:(lia) ltac:(lia)) as H01.
  rewrite add64_small by (unfold INT64_MAX in *; lia).
  split; [|simpl; apply geti_seti_eq; lia].
  constructor; simpl.
  - intros i Hi. apply geti_seti_ne; lia.
  - intros i j Hi Hij Hj. assert (i = 0) by lia. assert (j = 0) by lia.
    subst i j. lia.
  - intros i Hi. assert (i = 0) by lia. subst i.
    rewrite geti_seti_eq by lia. lia.
  - exists (geti A 1). split; [lia|]. split; [|split].
    + rewrite geti_seti_eq by lia. lia.
    + intros i Hi. lia.
    + intros i Hi. pose proof (Hasc 1 i ltac:(lia) ltac:(lia) ltac:(lia)).
      lia.
  - rewrite (sumrange_head _ 0 1) by lia. rewrite sumrange_empty by lia.
    rewrite geti_seti_eq by lia. lia.
Qed.

Lemma pass1_iter_snoc (n : Z) (k : nat) : forall (next : Z) (s : p1),
  pass1_iter n (S k) next s
  = (s1 ← pass1_iter n k next s; pass1_body n (next + Z.of_nat k) s1).
Proof.
  induction k as [|k IH]; intros next s.
  - simpl. change (Z.of_nat 0) with 0. rewrite Z.add_0_r.
    destruct (pass1_body n next s); reflexivity.
  - change (pass1_iter n (S (S k)) next s)
      with (s' ← pass1_body n next s; pass1_iter n (S k) (next + 1) s').
    change (pass1_iter n (S k) next s)
      with (s' ← pass1_body n next s; pass1_iter n k (next + 1) s').
    destruct (pass1_body n next s) as [s'| |]; [|reflexivity|reflexivity].
    change (pass1_iter n (S k) (next + 1) s'
            = (s1 ← pass1_iter n k (next + 1) s';
               pass1_body n (next + Z.of_nat (S k)) s1)).
    rewrite IH.
    replace (next + 1 + Z.of_nat k) with (next + Z.of_nat (S k)) by lia.
    reflexivity.
Qed.

Lemma pass1_iter_weights (A : arr) (n : Z) (k : nat) (s0 : p1) :
  ascending A n -> inv1 n 1 s0 -> weights_inv A n 1 s0 ->
  1 + Z.of_nat k <= n - 1 ->
  exists s,
    pass1_iter n k 1 s0 = Ok s
    /\ inv1 n (1 + Z.of_nat k) s /\ weights_inv A n (1 + Z.of_nat k) s.
Proof.
  intros Hasc Hinv0 Hw0. induction k as [|k IH]; intros Hk.
  - exists s0. split; [reflexivity|]. split; assumption.
  - destruct (IH ltac:(lia)) as (s & E & Hinv & Hw).
    destruct (pass1_body_weights A n (1 + Z.of_nat k) s ltac:(lia) Hasc
                Hinv Hw) as (s' & E' & Hinv' & Hw' & _).
    exists s'. rewrite pass1_iter_snoc, E. simpl.
    replace (1 + Z.of_nat (S k)) with (1 + Z.of_nat k + 1) by lia.
    split; [assumption|]. split; assumption.
Qed.

(** ** Reading and checking the frequencies *)

Lemma read_freqs_take (count : nat) : forall input : list Z,
  read_freqs count input = take count input.
Proof.
  induction count as [|c IH]; intros [|t rest]; simpl; f_equal; auto.
Qed.

Lemma read_freqs_all (count : nat) (input : list Z) :
  (length input <= count)%nat -> read_freqs count input = input.
Proof. intros H. rewrite read_freqs_take. apply take_ge. assumption. Qed.

Lemma check_freqs_Some (A : list Z) : forall (prev : option Z) (tot t : Z),
  check_freqs prev A tot = Some t ->
  Forall (Z.le 0) A /\ Sorted Z.le A
  /\ forall p, prev = Some p -> HdRel Z.le p A.
Proof.
  induction A as [|a A IH]; intros prev tot t; simpl.
  - intros _. repeat split; constructor.
  - destruct (Z.ltb_spec a 0) as [?|Ha]; simpl; [discriminate|].
    destruct prev as [p|].
    + destruct (Z.gtb_spec p a) as [?|Hp]; [discriminate|].
      intros E. apply IH in E as (Hpos & Hsort & Hhd).
      repeat split.
      * constructor; assumption.
      * constructor; [assumption|]. apply Hhd. reflexivity.
      * intros q [= <-]. constructor. assumption.
    + intros E. apply IH in E as (Hpos & Hsort & Hhd).
      repeat split.
      * constructor; assumption.
      * constructor; [assumption|]. apply Hhd. reflexivity.
      * intros q [=].
Qed.

Lemma check_freqs_violation (A : list Z) :
  (exists (i : nat) (x : Z), A !! i = Some x /\ x < 0)
  \/ (exists (i j : nat) (x y : Z),
        (i < j)%nat /\ A !! i = Some x /\ A !! j = Some y /\ y < x) ->
  check_freqs None A 0 = None.
Proof.
  intros Hv. destruct (check_freqs None A 0) as [t|] eqn:E; [|reflexivity].
  apply check_freqs_Some in E as (Hpos & Hsort & _).
  destruct Hv as [(i & x & Hx & Hneg)|(i & j & x & y & Hij & Hx & Hy & Hlt)].
  - pose proof (proj1 (Forall_lookup _ _) Hpos i x Hx). simpl in *. lia.
  - pose proof (sorted_lookup A Hsort i j x y ltac:(lia) Hx Hy). lia.
Qed.

(** ** Scenarios of the specification *)

Example scenario_two_symbols :
  calculate_minimum_redundancy 10 [5; 7] 2 = Ok [1; 1].
Proof. reflexivity. Qed.

Example scenario_equal_weights :
  calculate_minimum_redundancy 20 [1; 1; 1; 1] 4 = Ok [2; 2; 2; 2].
Proof. reflexivity. Qed.

Example scenario_three_symbols :
  calculate_minimum_redundancy 15 [1; 2; 3] 3 = Ok [2; 2; 1].
Proof. reflexivity. Qed.

Example scenario_fibonacci :
  calculate_minimum_redundancy_steps 40 [1; 1; 2; 3; 5; 8; 13; 21] 8
  = Ok ([7; 7; 6; 5; 4; 3; 2; 1], 0%nat).
Proof. reflexivity. Qed.

Example scenario_budget_too_small :
  calculate_minimum_redundancy 39 [1; 1; 2; 3; 5; 8; 13; 21] 8 = OutOfFuel.
Proof. reflexivity. Qed.

Example scenario_report :
  main 20 0 (fun _ => true) [4; 1; 1; 2; 3]
  = Ok (Outcome 0 []
          [SymbolLine 0 1 3; SymbolLine 1 1 3; SymbolLine 2 2 2;
           SymbolLine 3 3 1; Summary 13 7]
          [([1; 1; 2; 3], 4)]).
Proof. reflexivity. Qed.

(** * The properties of the specification *)

(** C1. For a non-decreasing sequence of two or more non-negative
    frequencies, the calculator returns lengths that satisfy Kraft's
    equality: the sum of [2^(-length)] over all symbols is exactly 1. *)
Theorem kraft_equality (A : list Z) (fuel : nat) :
  Forall (Z.le 0) A -> Sorted Z.le A -> 2 <= len A ->
  5 * len A <= Z.of_nat fuel ->
  exists L,
    calculate_minimum_redundancy fuel A (len A) = Ok L
    /\ length L = length A
    /\ Qeq (kraft L) 1.
Proof.
  intros _ _ Hn Hfuel.
  destruct (cmr_spec A fuel Hn Hfuel) as (L & E & Hlen & Hk & _).
  exists L. repeat split; try assumption. unfold len in Hlen. lia.
Qed.

Lemma kraft_equality_witness :
  exists L,
    calculate_minimum_redundancy 20 [1; 1; 2; 3] 4 = Ok L
    /\ length L = 4%nat
    /\ Qeq (kraft L) 1.
Proof.
  apply (kraft_equality [1; 1; 2; 3] 20).
  - repeat constructor; lia.
  - repeat constructor; lia.
  - vm_compute. discriminate.
  - vm_compute. discriminate.
Defined.

(** C2. For such an input the lengths never increase with the position:
    for [i <= j], the length at [i] is at least the length at [j]. *)
Theorem lengths_nonincreasing (A : list Z) (fuel : nat) :
  Forall (Z.le 0) A -> Sorted Z.le A -> 2 <= len A ->
  5 * len A <= Z.of_nat fuel ->
  exists L,
    calculate_minimum_redundancy fuel A (len A) = Ok L
    /\ length L = length A
    /\ forall (i j : nat) (x y : Z),
         (i <= j)%nat -> L !! i = Some x -> L !! j = Some y -> y <= x.
Proof.
  intros _ _ Hn Hfuel.
  destruct (cmr_spec A fuel Hn Hfuel) as (L & E & Hlen & _ & _ & Hd).
  exists L. split; [assumption|]. split; [unfold len in Hlen; lia|].
  intros i j x y Hij Hx Hy.
  pose proof (lookup_in_len L j y Hy) as Hj. rewrite Hlen in Hj.
  rewrite <- (geti_lookup L i x Hx), <- (geti_lookup L j y Hy).
  apply Hd; lia.
Qed.

Lemma lengths_nonincreasing_witness :
  exists L,
    calculate_minimum_redundancy 20 [1; 1; 2; 3] 4 = Ok L
    /\ length L = 4%nat
    /\ forall (i j : nat) (x y : Z),
         (i <= j)%nat -> L !! i = Some x -> L !! j = Some y -> y <= x.
Proof.
  apply (lengths_nonincreasing [1; 1; 2; 3] 20).
  - repeat constructor; lia.
  - repeat constructor; lia.
  - vm_compute. discriminate.
  - vm_compute. discriminate.
Defined.



(** C4. After the first pass on a non-decreasing sequence of two or more
    non-negative frequencies, every slot [i] of [0..n-3] holds a parent
    pointer [p] with [i < p <= n-2].  The second pass therefore stays
    inside the array, and at each of its steps the slot [A[next]] it
    reads through lies to the right of [next] and already holds its final
    depth. *)
Theorem parent_pointers_forward (A : list Z) :
  Forall (Z.le 0) A -> Sorted Z.le A -> 2 <= len A ->
  exists s A0 D,
    pass1 (len A) A = Ok s
    /\ (forall i, 0 <= i <= len A - 3 ->
          exists p, rd (p1_A s) i = Ok p /\ i < p <= len A - 2)
    /\ wr (p1_A s) (len A - 2) 0 = Ok A0
    /\ pass2 (len A) (p1_A s) = Ok D
    /\ forall k : nat, Z.of_nat k < len A - 2 ->
         exists Ak p d,
           pass2_iter k (len A - 3) A0 = Ok Ak
           /\ rd Ak (len A - 3 - Z.of_nat k) = Ok p
           /\ len A - 3 - Z.of_nat k < p <= len A - 2
           /\ rd Ak p = Ok d
           /\ rd D p = Ok d.
Proof.
  intros _ _ Hn.
  destruct (pass1_parents A Hn) as (s & E1 & HP).
  set (n := len A) in *. clearbody n.
  destruct s as [P root leaf]; simpl in HP. exists (P1 P root leaf). simpl.
  pose proof (pass2_start n P Hn HP) as Hstart.
  destruct (pass2_iter_inv n P (Z.to_nat (n - 2)) 0 (seti P (n - 2) 0))
    as (D & ED & HD); [assumption|assumption|lia|lia|assumption|].
  replace (n - 3 - 0) with (n - 3) in ED by lia.
  assert (len P = n) as HlenP by (destruct HP; assumption).
  exists (seti P (n - 2) 0), D.
  split; [assumption|]. split; [|split; [|split]].
  - intros i Hi. exists (geti P i).
    split; [apply rd_in; lia|]. apply (pa_ptr n P HP i Hi).
  - apply wr_in. lia.
  - unfold pass2. rewrite wr_in by lia. simpl. assumption.
  - intros k Hk.
    destruct (pass2_iter_inv n P k 0 (seti P (n - 2) 0))
      as (Ak & Ek & Hk2); [assumption|assumption|lia|lia|assumption|].
    replace (n - 3 - 0) with (n - 3) in Ek by lia.
    replace (0 + Z.of_nat k) with (Z.of_nat k) in Hk2 by lia.
    destruct Hk2 as [Hlenk _ _ Hptr].
    pose proof (pa_ptr n P HP (n - 3 - Z.of_nat k) ltac:(lia)) as Hp.
    pose proof (Hptr (n - 3 - Z.of_nat k) ltac:(lia)) as Hq.
    exists Ak, (geti P (n - 3 - Z.of_nat k)),
      (geti Ak (geti P (n - 3 - Z.of_nat k))).
    split; [assumption|].
    split; [rewrite rd_in by lia; rewrite Hq; reflexivity|].
    split; [assumption|].
    split; [apply rd_in; lia|].
    replace (Z.to_nat (n - 2)) with (k + Z.to_nat (n - 2 - Z.of_nat k))%nat
      in ED by lia.
    rewrite pass2_iter_app, Ek in ED. simpl in ED.
    apply pass2_iter_keeps in ED as [HlenD Hkeep].
    rewrite rd_in by lia. rewrite Hkeep by lia. reflexivity.
Qed.

Lemma parent_pointers_forward_witness :
  exists s A0 D,
    pass1 4 [1; 1; 2; 3] = Ok s
    /\ (forall i, 0 <= i <= 1 ->
          exists p, rd (p1_A s) i = Ok p /\ i < p <= 2)
    /\ wr (p1_A s) 2 0 = Ok A0
    /\ pass2 4 (p1_A s) = Ok D
    /\ forall k : nat, Z.of_nat k < 2 ->
         exists Ak p d,
           pass2_iter k 1 A0 = Ok Ak
           /\ rd Ak (1 - Z.of_nat k) = Ok p
           /\ 1 - Z.of_nat k < p <= 2
           /\ rd Ak p = Ok d
           /\ rd D p = Ok d.
Proof.
  apply (parent_pointers_forward [1; 1; 2; 3]).
  - repeat constructor; lia.
  - repeat constructor; lia.
  - vm_compute. discriminate.
Defined.

(** C5. On a non-decreasing sequence of [n] non-negative frequencies the
    calculator returns.  The first two passes are loops of [n-2]
    iterations; the three loops of the third pass evaluate their tests at
    most [5n] times altogether: a budget of [5n] tests is enough, and at
    most [5n] of any larger budget are used. *)
Theorem terminates_linear (A : list Z) (fuel : nat) :
  Forall (Z.le 0) A -> Sorted Z.le A ->
  5 * len A <= Z.of_nat fuel ->
  exists L f,
    calculate_minimum_redundancy_steps fuel A (len A) = Ok (L, f)
    /\ Z.of_nat fuel - Z.of_nat f <= 5 * len A.
Proof.
  intros _ _ Hfuel.
  destruct (Z_lt_le_dec (len A) 2) as [Hlt|Hge].
  - destruct A as [|x [|y A]]; [| |unfold len in Hlt; simpl in Hlt; lia].
    + exists [], fuel. split; [reflexivity|]. unfold len; simpl; lia.
    + exists [0], fuel. split; [reflexivity|]. unfold len; simpl; lia.
  - destruct (cmr_steps_spec A fuel Hge Hfuel)
      as (L & f & E & _ & _ & _ & _ & Hused).
    exists L, f. split; assumption.
Qed.

Lemma terminates_linear_witness :
  exists L f,
    calculate_minimum_redundancy_steps 20 [1; 1; 2; 3] 4 = Ok (L, f)
    /\ Z.of_nat 20 - Z.of_nat f <= 5 * 4.
Proof.
  apply (terminates_linear [1; 1; 2; 3] 20).
  - repeat constructor; lia.
  - repeat constructor; lia.
  - vm_compute. discriminate.
Defined.

(** C6. With no symbol the buffer is returned as it is, so an empty input
    gives an empty output; with one symbol the output is [[0]]. *)
Theorem degenerate_inputs :
  (forall (fuel : nat) (A : list Z),
     calculate_minimum_redundancy fuel A 0 = Ok A)
  /\ (forall fuel : nat, calculate_minimum_redundancy fuel [] 0 = Ok [])
  /\ (forall (fuel : nat) (x : Z),
        calculate_minimum_redundancy fuel [x] 1 = Ok [0]).
Proof. repeat split. Qed.

(** C7. When one of the frequency values that the program reads is
    negative, or a later one is strictly smaller than an earlier one, the
    program writes one diagnostic to the error stream and exits with
    status 1, with nothing written to the output and no call of the
    calculator.  [n] is the declared count; the values read are the first
    [n] of [rest].  The numerals of the stream are within the range of
    [long long], so that the values read are the numerals. *)
Theorem ordering_violation_rejected
    (fuel : nat) (n_init : Z) (alloc : Z -> bool) (n : Z) (rest : list Z) :
  Forall (fun z => - 2 ^ 63 <= z <= INT64_MAX) (n :: rest) ->
  (exists (i : nat) (x : Z),
     Z.of_nat i < n /\ rest !! i = Some x /\ x < 0)
  \/ (exists (i j : nat) (x y : Z),
        (i < j)%nat /\ Z.of_nat j < n
        /\ rest !! i = Some x /\ rest !! j = Some y /\ y < x) ->
  exists d,
    main fuel n_init alloc (n :: rest) = Ok (Outcome 1 [d] [] []).
Proof.
  intros _ Hv. unfold main.
  destruct ((n <=? 0) || (n >? LIMIT)); [exists BadCount; reflexivity|].
  destruct (alloc n); simpl; [|exists NoMemory; reflexivity].
  exists BadOrder. unfold process.
  rewrite check_freqs_violation; [reflexivity|].
  rewrite read_freqs_take.
  destruct Hv as [(i & x & Hi & Hx & Hneg)
                 |(i & j & x & y & Hij & Hj & Hx & Hy & Hlt)].
  - left. exists i, x. split; [|assumption].
    rewrite lookup_take_lt by lia. assumption.
  - right. exists i, j, x, y. split; [assumption|].
    rewrite !lookup_take_lt by lia. repeat split; assumption.
Qed.

Lemma ordering_violation_rejected_witness :
  exists d,
    main 0 0 (fun _ => true) [3; 1; 5; 2] = Ok (Outcome 1 [d] [] []).
Proof.
  apply (ordering_violation_rejected 0 0 (fun _ => true) 3 [1; 5; 2]).
  - repeat constructor; vm_compute; discriminate.
  - right. exists 1%nat, 2%nat, 5, 2.
    repeat split; try reflexivity; lia.
Defined.




(** C9. For such an input every length is at least 1. *)
Theorem lengths_positive (A : list Z) (fuel : nat) :
  Forall (Z.le 0) A -> Sorted Z.le A -> 2 <= len A ->
  5 * len A <= Z.of_nat fuel ->
  exists L,
    calculate_minimum_redundancy fuel A (len A) = Ok L
    /\ length L = length A
    /\ Forall (Z.le 1) L.
Proof.
  intros _ _ Hn Hfuel.
  destruct (cmr_spec A fuel Hn Hfuel) as (L & E & Hlen & _ & Hp & _).
  exists L. split; [assumption|]. split; [unfold len in Hlen; lia|].
  apply Forall_lookup. intros i x Hx.
  pose proof (lookup_in_len L i x Hx) as Hi. rewrite Hlen in Hi.
  rewrite <- (geti_lookup L i x Hx). apply Hp. lia.
Qed.

Lemma lengths_positive_witness :
  exists L,
    calculate_minimum_redundancy 20 [1; 1; 2; 3] 4 = Ok L
    /\ length L = 4%nat
    /\ Forall (Z.le 1) L.
Proof.
  apply (lengths_positive [1; 1; 2; 3] 20).
  - repeat constructor; lia.
  - repeat constructor; lia.
  - vm_compute. discriminate.
  - vm_compute. discriminate.
Defined.

(** C10, as stated: on every non-decreasing sequence of two or more
    non-negative frequencies the combined weights never decrease.  This
    fails when the sum of two weights leaves the range of [long long]:
    on [0, M, M, M] with [M = 2^63 - 1] the first weight is [M] and the
    second is [M + M] reduced to 64 bits, that is [-2]. *)
Lemma weights_wrap_around :
  Forall (Z.le 0) [0; INT64_MAX; INT64_MAX; INT64_MAX]
  /\ Sorted Z.le [0; INT64_MAX; INT64_MAX; INT64_MAX]
  /\ weight_at [0; INT64_MAX; INT64_MAX; INT64_MAX] 0 = Ok INT64_MAX
  /\ weight_at [0; INT64_MAX; INT64_MAX; INT64_MAX] 1 = Ok (-2)
  /\ ~ INT64_MAX <= -2.
Proof.
  split; [repeat constructor; discriminate|].
  split; [repeat constructor; discriminate|].
  split; [reflexivity|]. split; [reflexivity|].
  unfold INT64_MAX. lia.
Qed.

(** C10, amended: on a non-decreasing sequence of two or more
    non-negative frequencies whose total fits a [long long], the combined
    weights of the first pass never decrease: the first one is
    [A[0] + A[1]], and the value stored in [A[k+1]] by the iteration
    [next = k+1] is at least the value stored in [A[k]] by the one
    before. *)
Theorem weights_nondecreasing (A : list Z) :
  Forall (Z.le 0) A -> Sorted Z.le A -> 2 <= len A ->
  total A <= INT64_MAX ->
  weight_at A 0 = Ok (geti A 0 + geti A 1)
  /\ forall k : nat, Z.of_nat k + 1 <= len A - 2 ->
       exists a b,
         weight_at A k = Ok a /\ weight_at A (S k) = Ok b /\ a <= b.
Proof.
  intros Hpos Hsort Hn Htot.
  pose proof (valid_ascending A Hpos Hsort) as Hasc.
  destruct (pass1_init_weights A Hn Hasc Htot) as (s0 & E0 & Hinv0 & Hw0 & H0).
  split.
  - unfold weight_at. rewrite E0. simpl. change (Z.of_nat 0) with 0.
    rewrite rd_in by (destruct Hinv0; lia). rewrite H0. reflexivity.
  - intros k Hk.
    destruct (pass1_iter_weights A (len A) k s0 Hasc Hinv0 Hw0 ltac:(lia))
      as (s & E & Hinv & Hw).
    destruct (pass1_body_weights A (len A) (1 + Z.of_nat k) s ltac:(lia) Hasc
                Hinv Hw) as (s' & E' & Hinv' & _ & Hgrow).
    exists (geti (p1_A s) (Z.of_nat k)), (geti (p1_A s') (Z.of_nat (S k))).
    unfold weight_at. rewrite E0, !res_bind_Ok.
    rewrite pass1_iter_snoc, E, !res_bind_Ok, E', !res_bind_Ok.
    rewrite !rd_in by (destruct Hinv, Hinv'; lia).
    split; [reflexivity|]. split; [reflexivity|].
    replace (1 + Z.of_nat k - 1) with (Z.of_nat k) in Hgrow by lia.
    replace (1 + Z.of_nat k) with (Z.of_nat (S k)) in Hgrow by lia.
    assumption.
Qed.

Lemma weights_nondecreasing_witness :
  weight_at [1; 1; 2; 3] 0 = Ok (geti [1; 1; 2; 3] 0 + geti [1; 1; 2; 3] 1)
  /\ forall k : nat, Z.of_nat k + 1 <= len [1; 1; 2; 3] - 2 ->
       exists a b,
         weight_at [1; 1; 2; 3] k = Ok a
         /\ weight_at [1; 1; 2; 3] (S k) = Ok b /\ a <= b.
Proof.
  apply (weights_nondecreasing [1; 1; 2; 3]).
  - repeat constructor; lia.
  - repeat constructor; lia.
  - vm_compute. discriminate.
  - vm_compute. discriminate.
Defined.

(** * Further properties of the code *)

(** ** [checksum.c] *)

Lemma wrap64_small (z : Z) : - 2 ^ 63 <= z <= INT64_MAX -> wrap64 z = z.
Proof.
  unfold wrap64, INT64_MAX. intros H. rewrite Z.mod_small by lia. lia.
Qed.

Lemma wrap64_range (z : Z) : - 2 ^ 63 <= wrap64 z <= INT64_MAX.
Proof.
  unfold wrap64, INT64_MAX.
  pose proof (Z.mod_pos_bound (z + 2 ^ 63) (2 ^ 64) ltac:(lia)). lia.
Qed.

Lemma wrap64_add_l (a b : Z) : wrap64 (wrap64 a + b) = wrap64 (a + b).
Proof.
  unfold wrap64.
  replace ((a + 2 ^ 63) `mod` 2 ^ 64 - 2 ^ 63 + b + 2 ^ 63)
    with ((a + 2 ^ 63) `mod` 2 ^ 64 + b) by lia.
  rewrite Zplus_mod_idemp_l.
  replace (a + 2 ^ 63 + b) with (a + b + 2 ^ 63) by lia. reflexivity.
Qed.

Lemma checksum_loop_sum (input : list Z) : forall check : Z,
  Checksum.loop input (wrap64 check) = wrap64 (check + sum_chars input).
Proof.
  induction input as [|c rest IH]; intros check; simpl.
  - rewrite Z.add_0_r. reflexivity.
  - destruct (c >? 32).
    + unfold add64. rewrite wrap64_add_l, IH. f_equal. lia.
    + rewrite IH. f_equal.
Qed.

Lemma checksum_main_sum (input : list Z) :
  Checksum.main input = wrap64 (sum_chars input).
Proof.
  unfold Checksum.main. change 0 with (wrap64 0) at 1.
  rewrite checksum_loop_sum. reflexivity.
Qed.

Lemma sum_chars_perm (a b : list Z) : a ≡ₚ b -> sum_chars a = sum_chars b.
Proof.
  induction 1 as [|x a b _ IH|x y a|a b c _ IH1 _ IH2]; simpl; lia.
Qed.

Lemma sum_chars_app (a b : list Z) :
  sum_chars (a ++ b) = sum_chars a + sum_chars b.
Proof. induction a as [|c a IH]; simpl; lia. Qed.

Lemma sum_chars_bounds (input : list Z) :
  Forall (fun c => 0 <= c <= 255) input ->
  0 <= sum_chars input <= 255 * len input.
Proof.
  unfold len. induction 1 as [|c rest Hc _ IH]; simpl length; simpl sum_chars.
  - lia.
  - destruct (Z.gtb_spec c 32); lia.
Qed.

Lemma wrap64_add (a b : Z) :
  wrap64 (wrap64 a + wrap64 b) = wrap64 (a + b).
Proof.
  rewrite wrap64_add_l. rewrite (Z.add_comm a (wrap64 b)).
  rewrite wrap64_add_l. f_equal. lia.
Qed.

(** X1. The checksum does not depend on the order of the characters: two
    inputs that are permutations of each other give the same number. *)
Theorem checksum_permutation (a b : list Z) :
  a ≡ₚ b -> Checksum.main a = Checksum.main b.
Proof.
  intros H. rewrite !checksum_main_sum, (sum_chars_perm a b H). reflexivity.
Qed.

Lemma checksum_permutation_witness :
  Checksum.main [104; 105; 10] = Checksum.main [10; 105; 104].
Proof.
  apply (checksum_permutation [104; 105; 10] [10; 105; 104]).
  change [104; 105; 10] with ([104; 105] ++ [10]).
  change [10; 105; 104] with ([10] ++ [105; 104]).
  rewrite (Permutation_app_comm [104; 105] [10]).
  apply Permutation_app_head. apply perm_swap.
Defined.

(** X2. Characters up to 32 (controls, line ends and spaces) do not count:
    removing them all from the input leaves the checksum unchanged. *)
Theorem checksum_ignores_controls (input : list Z) :
  Checksum.main (filter (fun c => 32 < c) input) = Checksum.main input.
Proof.
  rewrite !checksum_main_sum. f_equal.
  induction input as [|c rest IH]; [reflexivity|].
  rewrite filter_cons. simpl sum_chars at 2.
  destruct (decide (32 < c)) as [Hc|Hc].
  - simpl. rewrite IH. reflexivity.
  - rewrite IH. destruct (Z.gtb_spec c 32); lia.
Qed.

(** X3. The checksum of a concatenation is the sum, reduced to 64 bits,
    of the checksums of the parts. *)
Theorem checksum_concat (a b : list Z) :
  Checksum.main (a ++ b) = add64 (Checksum.main a) (Checksum.main b).
Proof.
  rewrite !checksum_main_sum, sum_chars_app. unfold add64.
  rewrite wrap64_add. reflexivity.
Qed.

(** X4. On an input of bytes short enough for [255 * length] to fit a
    [long long], no addition overflows: the checksum is the plain sum of
    the characters above 32, between 0 and [255 * length]. *)
Theorem checksum_exact (input : list Z) :
  Forall (fun c => 0 <= c <= 255) input ->
  255 * len input <= INT64_MAX ->
  Checksum.main input = sum_chars input
  /\ 0 <= Checksum.main input <= 255 * len input.
Proof.
  intros Hb Hlen. pose proof (sum_chars_bounds input Hb) as Hs.
  rewrite checksum_main_sum, wrap64_small by lia. lia.
Qed.

Lemma checksum_exact_witness :
  Checksum.main [72; 105; 32; 33; 10] = sum_chars [72; 105; 32; 33; 10]
  /\ 0 <= Checksum.main [72; 105; 32; 33; 10]
     <= 255 * len [72; 105; 32; 33; 10].
Proof.
  apply (checksum_exact [72; 105; 32; 33; 10]).
  - repeat constructor; lia.
  - vm_compute. discriminate.
Defined.

(** ** [webbase.c] *)

Lemma fixCR_snoc (s : list Z) (c : Z) :
  Webbase.fixCR (s ++ [c]) = if c =? Webbase.CR then s else s ++ [c].
Proof.
  unfold Webbase.fixCR.
  rewrite length_app. simpl length.
  replace (length s + 1 - 1)%nat with (length s) by lia.
  destruct (Nat.eqb_spec (length s + 1) 0) as [?|_]; [lia|].
  rewrite lookup_app_r by lia. rewrite Nat.sub_diag. simpl.
  destruct (c =? Webbase.CR); [|reflexivity].
  rewrite take_app_length. reflexivity.
Qed.

(** X5. [fixCR] looks at the last character only: a final carriage return
    is removed, once, and every other string is left as it is. *)
Theorem fixCR_last :
  Webbase.fixCR [] = []
  /\ (forall s : list Z, Webbase.fixCR (s ++ [Webbase.CR]) = s)
  /\ (forall s : list Z,
        Webbase.fixCR (s ++ [Webbase.CR; Webbase.CR]) = s ++ [Webbase.CR])
  /\ (forall (s : list Z) (c : Z),
        c <> Webbase.CR -> Webbase.fixCR (s ++ [c]) = s ++ [c]).
Proof.
  split; [reflexivity|]. split; [|split].
  - intros s. rewrite fixCR_snoc. reflexivity.
  - intros s. change [Webbase.CR; Webbase.CR]
      with ([Webbase.CR] ++ [Webbase.CR]).
    rewrite app_assoc, fixCR_snoc. reflexivity.
  - intros s c Hc. rewrite fixCR_snoc.
    destruct (Z.eqb_spec c Webbase.CR); [contradiction|reflexivity].
Qed.

Lemma isalpha_tolower (c : Z) :
  Webbase.isalpha c = true ->
  Webbase.isalpha (Webbase.tolower c) = true
  /\ Webbase.tolower (Webbase.tolower c) = Webbase.tolower c.
Proof.
  unfold Webbase.isalpha, Webbase.tolower. intros H.
  destruct (Z.leb_spec 65 c), (Z.leb_spec c 90), (Z.leb_spec 97 c),
    (Z.leb_spec c 122); simpl in *; try discriminate; split;
    repeat match goal with
    | |- context [?a <=? ?b] => destruct (Z.leb_spec a b)
    end; simpl; try reflexivity; lia.
Qed.

(** X6. [fixProtocol] lowers the run of letters that starts the string
    and nothing else: the rest of the string, which is empty or starts
    with a character that is not a letter, is unchanged, and the length
    is kept.  Every string splits in this way. *)
Theorem fixProtocol_scheme (p rest : list Z) :
  Forall (fun x => Webbase.isalpha x = true) p ->
  (forall c, head rest = Some c -> Webbase.isalpha c = false) ->
  Webbase.fixProtocol (p ++ rest) = map Webbase.tolower p ++ rest
  /\ length (Webbase.fixProtocol (p ++ rest)) = length (p ++ rest).
Proof.
  intros Hp Hc.
  assert (Webbase.fixProtocol (p ++ rest) = map Webbase.tolower p ++ rest)
    as E.
  { induction Hp as [|x p Hx _ IH]; simpl.
    - destruct rest as [|c rest]; [reflexivity|].
      simpl. rewrite (Hc c eq_refl). reflexivity.
    - rewrite Hx, IH. reflexivity. }
  split; [assumption|]. rewrite E, !length_app, length_map. reflexivity.
Qed.

Lemma fixProtocol_scheme_witness :
  Webbase.fixProtocol ([72; 84; 116; 80] ++ [])
  = map Webbase.tolower [72; 84; 116; 80] ++ []
  /\ length (Webbase.fixProtocol ([72; 84; 116; 80] ++ []))
     = length ([72; 84; 116; 80] ++ []).
Proof.
  apply (fixProtocol_scheme [72; 84; 116; 80] []).
  - repeat constructor.
  - intros c Hc. discriminate Hc.
Defined.

(** X7. [fixProtocol] is idempotent. *)
Theorem fixProtocol_idempotent (s : list Z) :
  Webbase.fixProtocol (Webbase.fixProtocol s) = Webbase.fixProtocol s.
Proof.
  induction s as [|c rest IH]; [reflexivity|]. simpl.
  destruct (Webbase.isalpha c) eqn:Ec; simpl.
  - destruct (isalpha_tolower c Ec) as [E1 E2]. rewrite E1, E2, IH.
    reflexivity.
  - rewrite Ec. reflexivity.
Qed.

Lemma fixProtocol_snoc (s : list Z) : forall c : Z,
  exists (t : list Z) (c' : Z),
    Webbase.fixProtocol (s ++ [c]) = t ++ [c']
    /\ (c' = c \/ c' = Webbase.tolower c)
    /\ (Webbase.isalpha c = false -> t = Webbase.fixProtocol s /\ c' = c).
Proof.
  induction s as [|x s IH]; intros c; simpl.
  - destruct (Webbase.isalpha c) eqn:Ec.
    + exists [], (Webbase.tolower c). repeat split; auto. discriminate.
    + exists [], c. repeat split; auto.
  - destruct (Webbase.isalpha x) eqn:Ex.
    + destruct (IH c) as (t & c' & E & Hc & Hn).
      exists (Webbase.tolower x :: t), c'. rewrite E.
      split; [reflexivity|]. split; [assumption|].
      intros Hc'. destruct (Hn Hc') as [-> ->]. split; reflexivity.
    + exists (x :: s), c. repeat split; auto.
Qed.

Lemma tolower_not_CR (c : Z) :
  c <> Webbase.CR -> Webbase.tolower c <> Webbase.CR.
Proof.
  unfold Webbase.tolower, Webbase.CR.
  destruct (Z.leb_spec 65 c), (Z.leb_spec c 90); simpl; lia.
Qed.

(** X8. The program applies [fixCR] and then [fixProtocol] to a link; the
    two commute, so the order does not matter. *)
Theorem fixCR_fixProtocol_commute (s : list Z) :
  Webbase.fixProtocol (Webbase.fixCR s)
  = Webbase.fixCR (Webbase.fixProtocol s).
Proof.
  induction s as [|c s _] using rev_ind; [reflexivity|].
  rewrite fixCR_snoc.
  destruct (fixProtocol_snoc s c) as (t & c' & E & Hc & Hn).
  rewrite E, fixCR_snoc.
  destruct (Z.eqb_spec c Webbase.CR) as [->|Hne].
  - destruct (Hn eq_refl) as [-> ->]. reflexivity.
  - rewrite E.
    destruct (Z.eqb_spec c' Webbase.CR) as [Heq|_]; [|reflexivity].
    destruct Hc as [->| ->]; [contradiction|].
    apply tolower_not_CR in Hne. contradiction.
Qed.

(** ** The calculator *)

(** X9. The calculator needs its precondition neither for safety nor for
    termination: on an array of two or more cells with any contents,
    sorted or not, it stays inside the array, returns within [5n] loop
    tests of the third pass, and the lengths it leaves are at least 1,
    never increase with the position and satisfy Kraft's equality. *)
Theorem calculator_total (A : list Z) (fuel : nat) :
  2 <= len A -> 5 * len A <= Z.of_nat fuel ->
  exists L,
    calculate_minimum_redundancy fuel A (len A) = Ok L
    /\ length L = length A
    /\ Qeq (kraft L) 1
    /\ Forall (Z.le 1) L
    /\ forall (i j : nat) (x y : Z),
         (i <= j)%nat -> L !! i = Some x -> L !! j = Some y -> y <= x.
Proof.
  intros Hn Hfuel.
  destruct (cmr_spec A fuel Hn Hfuel) as (L & E & Hlen & Hk & Hp & Hd).
  exists L. split; [assumption|]. split; [unfold len in Hlen; lia|].
  split; [assumption|]. split.
  - apply Forall_lookup. intros i x Hx.
    pose proof (lookup_in_len L i x Hx) as Hi. rewrite Hlen in Hi.
    rewrite <- (geti_lookup L i x Hx). apply Hp. lia.
  - intros i j x y Hij Hx Hy.
    pose proof (lookup_in_len L j y Hy) as Hj. rewrite Hlen in Hj.
    rewrite <- (geti_lookup L i x Hx), <- (geti_lookup L j y Hy).
    apply Hd; lia.
Qed.

Lemma calculator_total_witness :
  exists L,
    calculate_minimum_redundancy 25 [9; -3; 4; 0; 7] 5 = Ok L
    /\ length L = 5%nat
    /\ Qeq (kraft L) 1
    /\ Forall (Z.le 1) L
    /\ forall (i j : nat) (x y : Z),
         (i <= j)%nat -> L !! i = Some x -> L !! j = Some y -> y <= x.
Proof.
  apply (calculator_total [9; -3; 4; 0; 7] 25).
  - vm_compute. discriminate.
  - vm_compute. discriminate.
Defined.

(** ** The third pass, level by level *)

Section Deepest.

Variables (n : Z) (P D : arr).
Hypothesis Hn : 2 <= n.
Hypothesis HP : parents n P.
Hypothesis HD : depths n P D.

(** What one level does to the state, in full. *)
Lemma pass3_level_shape (f : nat) (s : p3) :
  inv3 n P D s -> 0 < p3_avbl s ->
  5 * (p3_root s + 1) + p3_avbl s + 3 <= Z.of_nat f ->
  exists (u : Z) (A' : arr) (f1 f2 : nat),
    scan_level f s
    = Ok (P3 (p3_A s) (p3_root s - u) (p3_next s) (p3_avbl s) u (p3_dpth s),
          f1)
    /\ fill_level f1
         (P3 (p3_A s) (p3_root s - u) (p3_next s) (p3_avbl s) u (p3_dpth s))
       = Ok (P3 A' (p3_root s - u) (p3_root s + u) u u (p3_dpth s), f2)
    /\ 0 <= u <= p3_avbl s
    /\ u <= p3_root s + 1
    /\ (0 <= p3_root s -> 1 <= u)
    /\ (forall i, p3_root s + u < i <= p3_next s -> geti A' i = p3_dpth s)
    /\ inv3 n P D (P3 A' (p3_root s - u) (p3_root s + u) (2 * u) 0
                      (p3_dpth s + 1))
    /\ need3 (P3 A' (p3_root s - u) (p3_root s + u) (2 * u) 0
                 (p3_dpth s + 1)) <= Z.of_nat f2
    /\ (f2 <= f)%nat.
Proof.
  intros Hinv Havbl Hfuel.
  destruct (pass3_level n P D Hn HP HD f s Hinv Havbl Hfuel)
    as (s1 & f1 & s2 & f2 & E1 & E2 & Hinv' & Hneed' & Hf2 & _).
  pose proof Hinv as [Hlen Hroot Hnext Hnhi Hused Hdpth Hsame Hhere _ _ _ _ _ _].
  destruct s as [A root next avbl used d]; simpl in *. subst used.
  destruct (scan_level_spec f (P3 A root next avbl 0 d))
    as (u & f1' & E1' & Hu & Hf1 & Hall & Hstop); simpl in *; [lia|lia|].
  replace (0 + u) with u in E1' by lia.
  rewrite E1 in E1'. injection E1' as -> <-.
  assert (0 <= root -> 1 <= u) as Hu1.
  { intros Hr. destruct (Z.eq_dec u 0) as [->|]; [|lia].
    replace (root - 0) with root in Hstop by lia.
    specialize (Hstop Hr). rewrite Hsame in Hstop by lia.
    specialize (Hhere Hr). contradiction. }
  assert (u <= avbl) as Hua.
  { destruct (Z_le_gt_dec u avbl) as [|Hgt]; [assumption|].
    destruct f1 as [|f1]; simpl in E2; [discriminate|].
    destruct (Z.gtb_spec avbl u) as [?|_]; [lia|].
    injection E2 as <- <-. simpl in Hinv'.
    pose proof (i3_next _ _ _ _ Hinv') as Hn'. simpl in Hn'. lia. }
  destruct (fill_level_spec (Z.to_nat (avbl - u)) f1
              (P3 A (root - u) next avbl u d))
    as (A' & f2' & E2' & Hf2' & Hlen' & Hsame' & Hnew & _); simpl in *;
    [lia|lia|lia|lia|].
  rewrite Z2Nat.id in * by lia.
  replace (next - (avbl - u)) with (root + u) in * by lia.
  rewrite E2 in E2'. injection E2' as -> <-. simpl in *.
  exists u, A', f1, f2.
  split; [exact E1|]. split; [exact E2|].
  split; [lia|]. split; [lia|]. split; [assumption|].
  split; [assumption|]. split; [assumption|]. split; assumption.
Qed.

(** The depth never exceeds the number of internal nodes scanned, and the
    deepest level receives the slots 0 and 1. *)
Lemma pass3_loop_deepest (gas : nat) :
  forall (fuel : nat) (s s' : p3) (f' : nat),
  inv3 n P D s -> (fuel <= gas)%nat -> need3 s <= Z.of_nat fuel ->
  0 < p3_avbl s -> p3_dpth s + p3_root s <= n - 2 ->
  pass3_loop gas fuel s = Ok (s', f') ->
  p3_dpth s' <= n /\ geti (p3_A s') 0 = geti (p3_A s') 1.
Proof.
  induction gas as [|gas IH]; intros fuel s s' f' Hinv Hgas Hneed Havbl HJ E.
  - destruct fuel; simpl in E; discriminate.
  - destruct fuel as [|f]; [simpl in E; discriminate|]. simpl in E.
    destruct (Z.gtb_spec (p3_avbl s) 0) as [_|?]; [|lia].
    assert (5 * (p3_root s + 1) + p3_avbl s + 3 <= Z.of_nat f) as Hf.
    { unfold need3 in Hneed.
      destruct (Z.eqb_spec (p3_avbl s) 0); lia. }
    destruct (pass3_level_shape f s Hinv Havbl Hf)
      as (u & A' & f1 & f2 & E1 & E2 & Hu & Hur & Hu1 & Hnew & Hinv' & Hneed'
          & Hf2).
    rewrite E1 in E; simpl in E. rewrite E2 in E; simpl in E.
    destruct (Z.eq_dec u 0) as [->|Hu0].
    + (* the deepest level *)
      assert (p3_root s = -1) as Hr.
      { pose proof (i3_root _ _ _ _ Hinv). lia. }
      destruct gas as [|gas]; [destruct f2; simpl in E; discriminate|].
      destruct f2 as [|f2]; [simpl in E; discriminate|].
      simpl in E. injection E as <- _. simpl.
      pose proof (i3_next _ _ _ _ Hinv) as Hnx.
      destruct (i3_width _ _ _ _ Hinv) as [(_ & _ & Hr2)|(_ & c & Hc & Hac & _)];
        [lia|].
      rewrite (Hnew 0) by lia. rewrite (Hnew 1) by lia. lia.
    + apply (IH f2 _ s' f' Hinv'); simpl; try lia. assumption.
Qed.

End Deepest.

Lemma cmr_deepest (A : arr) (fuel : nat) :
  2 <= len A -> 5 * len A <= Z.of_nat fuel ->
  exists L,
    calculate_minimum_redundancy fuel A (len A) = Ok L
    /\ len L = len A
    /\ (forall i, 0 <= i <= len A - 1 -> geti L i <= len A - 1)
    /\ geti L 0 = geti L 1.
Proof.
  intros Hn Hfuel.
  unfold calculate_minimum_redundancy, calculate_minimum_redundancy_steps.
  destruct (Z.eqb_spec (len A) 0) as [?|_]; [lia|].
  destruct (Z.eqb_spec (len A) 1) as [?|_]; [lia|].
  destruct (pass1_parents A Hn) as (s1 & E1 & HP). rewrite E1; simpl.
  destruct (pass2_depths (len A) (p1_A s1) Hn HP) as (D & E2 & HD).
  rewrite E2; simpl. unfold pass3.
  set (n := len A) in *. set (P := p1_A s1) in *.
  pose proof (inv3_start n P D Hn HD) as Hstart.
  destruct (pass3_loop_spec n P D Hn HP HD fuel fuel
              (P3 D (n - 2) (n - 1) 1 0 0) Hstart ltac:(lia)
              ltac:(unfold need3; simpl; lia))
    as (s & f & E & Hinv & Hav & _).
  destruct (pass3_loop_deepest n P D Hn HP HD fuel fuel
              (P3 D (n - 2) (n - 1) 1 0 0) s f Hstart ltac:(lia)
              ltac:(unfold need3; simpl; lia) ltac:(simpl; lia)
              ltac:(simpl; lia) E) as [Hd H01].
  rewrite E; simpl. exists (p3_A s).
  destruct Hinv as [Hlen Hroot Hnext _ _ _ _ _ _ Hdone _ _ Hout _].
  specialize (Hdone Hav).
  split; [reflexivity|]. split; [assumption|]. split; [|assumption].
  intros i Hi. pose proof (Hout i ltac:(lia)). lia.
Qed.

(** X10. On an array of [n >= 2] cells no length exceeds [n - 1]. *)
Theorem lengths_at_most (A : list Z) (fuel : nat) :
  2 <= len A -> 5 * len A <= Z.of_nat fuel ->
  exists L,
    calculate_minimum_redundancy fuel A (len A) = Ok L
    /\ Forall (fun l => l <= len A - 1) L.
Proof.
  intros Hn Hfuel.
  destruct (cmr_deepest A fuel Hn Hfuel) as (L & E & Hlen & Hmax & _).
  exists L. split; [assumption|].
  apply Forall_lookup. intros i x Hx.
  pose proof (lookup_in_len L i x Hx) as Hi. rewrite Hlen in Hi.
  rewrite <- (geti_lookup L i x Hx). apply Hmax. lia.
Qed.

Lemma lengths_at_most_witness :
  exists L,
    calculate_minimum_redundancy 20 [1; 1; 2; 3] 4 = Ok L
    /\ Forall (fun l => l <= len [1; 1; 2; 3] - 1) L.
Proof.
  apply (lengths_at_most [1; 1; 2; 3] 20).
  - vm_compute. discriminate.
  - vm_compute. discriminate.
Defined.

(** X11. The first two symbols, the least frequent ones, receive the same
    length (by C2, the longest of the code). *)
Theorem two_longest_equal (A : list Z) (fuel : nat) :
  2 <= len A -> 5 * len A <= Z.of_nat fuel ->
  exists (L : list Z) (l : Z),
    calculate_minimum_redundancy fuel A (len A) = Ok L
    /\ L !! 0%nat = Some l /\ L !! 1%nat = Some l.
Proof.
  intros Hn Hfuel.
  destruct (cmr_deepest A fuel Hn Hfuel) as (L & E & Hlen & _ & H01).
  exists L, (geti L 0). split; [assumption|].
  split.
  - apply (geti_in L 0). lia.
  - rewrite H01. apply (geti_in L 1). lia.
Qed.

Lemma two_longest_equal_witness :
  exists (L : list Z) (l : Z),
    calculate_minimum_redundancy 20 [1; 1; 2; 3] 4 = Ok L
    /\ L !! 0%nat = Some l /\ L !! 1%nat = Some l.
Proof.
  apply (two_longest_equal [1; 1; 2; 3] 20).
  - vm_compute. discriminate.
  - vm_compute. discriminate.
Defined.

(** ** The first pass keeps the total weight *)

Lemma pass1_body_total (A : arr) (n next : Z) (s : p1) (T : Z) :
  1 <= next <= n - 2 -> ascending A n ->
  inv1 n next s -> weights_inv A n next s ->
  sumrange (p1_A s) (p1_root s) next + sumrange A (p1_leaf s) n = T ->
  exists s',
    pass1_body n next s = Ok s'
    /\ sumrange (p1_A s') (p1_root s') (next + 1)
       + sumrange A (p1_leaf s') n = T.
Proof.
  intros Hnext Hasc Hinv Hw HT.
  destruct (pass1_body_shape n next s Hnext Hinv)
    as (s' & x & y & E & Hpair & Hnew & Hframe & Hlen').
  exists s'. split; [assumption|].
  pose proof Hinv as [Hlen Hroot Hsum Hlo Hhi _ _ _].
  pose proof Hw as [Hleaves _ Hnonneg _ Htot].
  destruct s as [B root leaf], s' as [B' root' leaf']; simpl in *.
  assert (0 <= x /\ 0 <= y /\ root <= root' <= next /\ leaf <= leaf'
          /\ sumrange B root' next + (x + y) + sumrange A leaf' n = T)
    as (Hx & Hy & Hr & Hl & Hsplit).
  { unfold pairing in Hpair; simpl in Hpair.
    destruct Hpair as [(-> & -> & Hr1 & -> & -> & _)
                      |[(-> & -> & Hl1 & -> & -> & _)
                      |[(-> & -> & Hl1 & -> & -> & _)
                       |(-> & -> & Hl1 & -> & -> & _)]]].
    - pose proof (Hnonneg root ltac:(lia)).
      pose proof (Hnonneg (root + 1) ltac:(lia)).
      rewrite (sumrange_head B root next) in HT by lia.
      rewrite (sumrange_head B (root + 1) next) in HT by lia.
      replace (root + 1 + 1) with (root + 2) in HT by lia.
      repeat split; lia.
    - pose proof (Hnonneg root ltac:(lia)).
      rewrite (Hleaves leaf) in * by lia.
      pose proof (Hasc leaf leaf ltac:(lia) ltac:(lia) ltac:(lia)).
      rewrite (sumrange_head B root next) in HT by lia.
      rewrite (sumrange_head A leaf n) in HT by lia.
      repeat split; lia.
    - pose proof (Hnonneg root ltac:(lia)).
      rewrite (Hleaves leaf) in * by lia.
      pose proof (Hasc leaf leaf ltac:(lia) ltac:(lia) ltac:(lia)).
      rewrite (sumrange_head B root next) in HT by lia.
      rewrite (sumrange_head A leaf n) in HT by lia.
      repeat split; lia.
    - rewrite (Hleaves leaf) in * by lia.
      rewrite (Hleaves (leaf + 1)) in * by lia.
      pose proof (Hasc leaf (leaf + 1) ltac:(lia) ltac:(lia) ltac:(lia)).
      rewrite (sumrange_head A leaf n) in HT by lia.
      rewrite (sumrange_head A (leaf + 1) n) in HT by lia.
      replace (leaf + 1 + 1) with (leaf + 2) in HT by lia.
      repeat split; lia. }
  assert (0 <= sumrange B root' next) as Hs1.
  { apply sumrange_nonneg. intros i Hi. apply Hnonneg. lia. }
  pose proof (sumrange_asc_nonneg A n leaf' Hasc ltac:(lia)) as Hs2.
  rewrite add64_small in Hnew by (unfold INT64_MAX in *; lia).
  rewrite sumrange_last by lia. rewrite Hnew.
  rewrite (sumrange_ext B' B root' next); [lia|].
  intros i Hi. apply Hframe; lia.
Qed.

Lemma pass1_iter_total (A : arr) (k : nat) :
  2 <= len A -> ascending A (len A) -> total A <= INT64_MAX ->
  1 + Z.of_nat k <= len A - 1 ->
  exists s0 s,
    pass1_init A = Ok s0
    /\ pass1_iter (len A) k 1 s0 = Ok s
    /\ inv1 (len A) (1 + Z.of_nat k) s
    /\ weights_inv A (len A) (1 + Z.of_nat k) s
    /\ sumrange (p1_A s) (p1_root s) (1 + Z.of_nat k)
       + sumrange A (p1_leaf s) (len A) = total A.
Proof.
  intros Hn Hasc Htot.
  destruct (pass1_init_weights A Hn Hasc Htot) as (s0 & E0 & Hinv0 & Hw0 & H0).
  induction k as [|k IH]; intros Hk.
  - exists s0, s0. split; [assumption|]. split; [reflexivity|].
    split; [assumption|]. split; [assumption|].
    destruct Hinv0 as [Hlen Hroot Hsum Hlo Hhi _ _ _].
    assert (p1_root s0 = 0) as -> by lia.
    assert (p1_leaf s0 = 2) as -> by lia.
    change (1 + Z.of_nat 0) with 1.
    rewrite (sumrange_head _ 0 1) by lia. rewrite sumrange_empty by lia.
    rewrite H0. rewrite <- sumrange_total.
    rewrite (sumrange_head A 0) by lia.
    rewrite (sumrange_head A (0 + 1)) by lia.
    change (0 + 1 + 1) with 2. change (0 + 1) with 1. lia.
  - destruct (IH ltac:(lia)) as (s0' & s & E0' & E & Hinv & Hw & HT).
    destruct (pass1_body_weights A (len A) (1 + Z.of_nat k) s ltac:(lia) Hasc
                Hinv Hw) as (s' & E' & Hinv' & Hw' & _).
    destruct (pass1_body_total A (len A) (1 + Z.of_nat k) s (total A)
                ltac:(lia) Hasc Hinv Hw HT) as (s'' & E'' & HT').
    rewrite E' in E''. injection E'' as <-.
    exists s0', s'. split; [assumption|].
    rewrite pass1_iter_snoc, E, res_bind_Ok.
    replace (1 + Z.of_nat (S k)) with (1 + Z.of_nat k + 1) by lia.
    split; [assumption|]. split; [assumption|]. split; assumption.
Qed.

(** X12. On a non-decreasing sequence of two or more non-negative
    frequencies whose total fits a [long long], the last combined weight
    of the first pass, the one of the root of the tree in slot [n-2], is
    the total of the frequencies. *)
Theorem root_weight_is_total (A : list Z) :
  Forall (Z.le 0) A -> Sorted Z.le A -> 2 <= len A ->
  total A <= INT64_MAX ->
  weight_at A (Z.to_nat (len A - 2)) = Ok (total A).
Proof.
  intros Hpos Hsort Hn Htot.
  pose proof (valid_ascending A Hpos Hsort) as Hasc.
  destruct (pass1_iter_total A (Z.to_nat (len A - 2)) Hn Hasc Htot
              ltac:(lia)) as (s0 & s & E0 & E & Hinv & Hw & HT).
  unfold weight_at. rewrite E0, res_bind_Ok, E, res_bind_Ok.
  replace (1 + Z.of_nat (Z.to_nat (len A - 2))) with (len A - 1) in * by lia.
  rewrite Z2Nat.id by lia.
  destruct (inv1_final (len A) s Hinv) as (Hr & Hl & _).
  rewrite Hr, Hl in HT.
  replace (len A - 1) with (len A - 2 + 1) in HT by lia.
  rewrite (sumrange_head _ (len A - 2)) in HT by lia.
  rewrite !sumrange_empty in HT by lia.
  rewrite rd_in by (destruct Hinv; lia). f_equal. lia.
Qed.

Lemma root_weight_is_total_witness :
  weight_at [1; 1; 2; 3] (Z.to_nat (len [1; 1; 2; 3] - 2))
  = Ok (total [1; 1; 2; 3]).
Proof.
  apply (root_weight_is_total [1; 1; 2; 3]).
  - repeat constructor; lia.
  - repeat constructor; lia.
  - vm_compute. discriminate.
  - vm_compute. discriminate.
Defined.

(** ** The program around the calculator *)

Lemma check_freqs_total (A : list Z) : forall (prev : option Z) (t : Z),
  Forall (Z.le 0) A -> Sorted Z.le A ->
  (forall p, prev = Some p -> HdRel Z.le p A) ->
  check_freqs prev A (wrap64 t) = Some (wrap64 (t + total A)).
Proof.
  induction A as [|a A IH]; intros prev t Hpos Hsort Hhd; simpl.
  - rewrite Z.add_0_r. reflexivity.
  - inversion Hpos as [|? ? Ha Hpos']; subst.
    inversion Hsort as [|? ? Hsort' Hhd']; subst.
    destruct (Z.ltb_spec a 0) as [?|_]; [lia|]. simpl.
    assert ((match prev with Some p => p >? a | None => false end) = false)
      as ->.
    { destruct prev as [p|]; [|reflexivity].
      specialize (Hhd p eq_refl). inversion Hhd; subst.
      destruct (Z.gtb_spec p a); [lia|reflexivity]. }
    unfold add64. rewrite wrap64_add_l.
    rewrite (IH (Some a) (t + a) Hpos' Hsort').
    + f_equal. f_equal. lia.
    + intros p [= <-]. assumption.
Qed.

Lemma total_bits_dot (L : list Z) : forall (B : list Z) (t : Z),
  total_bits L B (wrap64 t) = wrap64 (t + dot L B).
Proof.
  induction L as [|l L IH]; intros [|b B] t; simpl;
    try (rewrite Z.add_0_r; reflexivity).
  unfold add64, mul64. rewrite wrap64_add, IH. unfold dot. simpl.
  f_equal. lia.
Qed.

Lemma symbol_lines_lookup (B : list Z) : forall (A : list Z) (i0 : Z),
  length (symbol_lines i0 B A) = Nat.min (length B) (length A)
  /\ forall (k : nat) (b a : Z),
       B !! k = Some b -> A !! k = Some a ->
       symbol_lines i0 B A !! k = Some (SymbolLine (i0 + Z.of_nat k) b a).
Proof.
  induction B as [|b0 B IH]; intros [|a0 A] i0; simpl;
    try (split; [reflexivity|intros k b a; discriminate]).
  destruct (IH A (i0 + 1)) as [Hlen Hk]. split; [rewrite Hlen; reflexivity|].
  intros [|k] b a; simpl.
  - intros [= <-] [= <-]. rewrite Z.add_0_r. reflexivity.
  - intros Hb Ha. rewrite (Hk k b a Hb Ha). do 2 f_equal. lia.
Qed.

Lemma dot_bounds (L B : list Z) (lo hi : Z) :
  Forall (fun l => lo <= l <= hi) L -> Forall (Z.le 0) B ->
  length L = length B ->
  lo * total B <= dot L B <= hi * total B.
Proof.
  intros HL. revert B. unfold dot.
  induction HL as [|l L Hl _ IH]; intros [|b B] HB Hlen; simpl in *;
    try lia; try discriminate.
  inversion HB as [|? ? Hb HB']; subst.
  specialize (IH B HB' ltac:(lia)). nia.
Qed.

(** The calculator on one or more symbols. *)
Lemma calculator_ok (A : list Z) (fuel : nat) :
  1 <= len A -> 5 * len A <= Z.of_nat fuel ->
  exists L,
    calculate_minimum_redundancy fuel A (len A) = Ok L
    /\ length L = length A
    /\ Forall (fun l => (if len A =? 1 then 0 else 1) <= l <= len A - 1) L.
Proof.
  intros Hn Hfuel. destruct (Z.eq_dec (len A) 1) as [H1|H1].
  - destruct A as [|a [|b A]]; unfold len in *; simpl in *; try lia.
    exists [0]. split; [reflexivity|]. split; [reflexivity|].
    repeat constructor; lia.
  - destruct (cmr_spec A fuel ltac:(lia) Hfuel) as (L & E & Hlen & _ & Hp & _).
    destruct (cmr_deepest A fuel ltac:(lia) Hfuel) as (L' & E' & _ & Hmax & _).
    rewrite E in E'. injection E' as <-.
    exists L. split; [assumption|]. split; [unfold len in Hlen; lia|].
    destruct (Z.eqb_spec (len A) 1) as [?|_]; [lia|].
    apply Forall_lookup. intros i x Hx.
    pose proof (lookup_in_len L i x Hx) as Hi. rewrite Hlen in Hi.
    rewrite <- (geti_lookup L i x Hx).
    split; [apply Hp|apply Hmax]; lia.
Qed.

(** What [main] does on frequencies that pass its checks. *)
Lemma process_valid (fuel : nat) (A L : list Z) :
  Forall (Z.le 0) A -> Sorted Z.le A -> 0 < wrap64 (total A) ->
  calculate_minimum_redundancy fuel A (len A) = Ok L ->
  process fuel A
  = Ok (Outcome 0 []
          ((if len A <=? 100 then symbol_lines 0 A L else [])
           ++ [Summary (wrap64 (dot L A)) (wrap64 (total A))])
          [(A, len A)]).
Proof.
  intros Hpos Hsort Htot E. unfold process.
  pose proof (check_freqs_total A None 0 Hpos Hsort ltac:(discriminate))
    as Hc.
  change (wrap64 0) with 0 in Hc. rewrite Z.add_0_l in Hc. rewrite Hc.
  destruct (Z.leb_spec (wrap64 (total A)) 0) as [?|_]; [lia|].
  rewrite E, res_bind_Ok.
  pose proof (total_bits_dot L A 0) as Hb.
  change (wrap64 0) with 0 in Hb. rewrite Z.add_0_l in Hb. rewrite Hb.
  reflexivity.
Qed.

Lemma total_nil_or_pos (A : list Z) : 0 < wrap64 (total A) -> 1 <= len A.
Proof.
  destruct A as [|a A]; [intros H; vm_compute in H; discriminate|].
  intros _. unfold len. simpl. lia.
Qed.

Lemma main_cases (fuel : nat) (n_init : Z) (alloc : Z -> bool)
    (input : list Z) (o : outcome) :
  main fuel n_init alloc input = Ok o ->
  (exists d, o = fail d)
  \/ (exists A L,
        Forall (Z.le 0) A /\ Sorted Z.le A /\ 0 < wrap64 (total A)
        /\ 1 <= len A <= LIMIT
        /\ calculate_minimum_redundancy fuel A (len A) = Ok L
        /\ o = Outcome 0 []
                 ((if len A <=? 100 then symbol_lines 0 A L else [])
                  ++ [Summary (wrap64 (dot L A)) (wrap64 (total A))])
                 [(A, len A)]).
Proof.
  unfold main.
  set (nr := match input with [] => (n_init, []) | t :: rest => (t, rest) end).
  destruct nr as [n rest].
  destruct (Z.leb_spec n 0) as [?|Hn0]; simpl;
    [intros [= <-]; left; eexists; reflexivity|].
  destruct (Z.gtb_spec n LIMIT) as [?|Hn1]; simpl;
    [intros [= <-]; left; eexists; reflexivity|].
  destruct (alloc n); simpl; [|intros [= <-]; left; eexists; reflexivity].
  set (A := read_freqs (Z.to_nat n) rest).
  assert (len A <= LIMIT) as HlenA.
  { subst A. rewrite read_freqs_take. unfold len. rewrite length_take. lia. }
  clearbody A. intros E.
  destruct (check_freqs None A 0) as [t|] eqn:Ec.
  - destruct (check_freqs_Some A None 0 t Ec) as (Hpos & Hsort & _).
    pose proof (check_freqs_total A None 0 Hpos Hsort ltac:(discriminate))
      as Hc.
    change (wrap64 0) with 0 in Hc. rewrite Z.add_0_l in Hc.
    destruct (Z_le_gt_dec (wrap64 (total A)) 0) as [Hle|Hgt].
    + unfold process in E. rewrite Hc in E.
      destruct (Z.leb_spec (wrap64 (total A)) 0) as [_|?]; [|lia].
      injection E as <-. left. eexists; reflexivity.
    + destruct (calculate_minimum_redundancy fuel A (len A)) as [L| |] eqn:EL.
      * rewrite (process_valid fuel A L Hpos Hsort ltac:(lia) EL) in E.
        injection E as <-. right. exists A, L.
        pose proof (total_nil_or_pos A ltac:(lia)).
        repeat split; try assumption; lia.
      * unfold process in E. rewrite Hc in E.
        destruct (Z.leb_spec (wrap64 (total A)) 0) as [?|_]; [lia|].
        rewrite EL in E. discriminate.
      * unfold process in E. rewrite Hc in E.
        destruct (Z.leb_spec (wrap64 (total A)) 0) as [?|_]; [lia|].
        rewrite EL in E. discriminate.
  - unfold process in E. rewrite Ec in E. injection E as <-.
    left. eexists; reflexivity.
Qed.

Lemma main_valid (fuel : nat) (n_init : Z) (alloc : Z -> bool) (n : Z)
    (rest L : list Z) :
  0 < n <= LIMIT -> alloc n = true ->
  Forall (Z.le 0) (take (Z.to_nat n) rest) ->
  Sorted Z.le (take (Z.to_nat n) rest) ->
  0 < wrap64 (total (take (Z.to_nat n) rest)) ->
  calculate_minimum_redundancy fuel (take (Z.to_nat n) rest)
    (len (take (Z.to_nat n) rest)) = Ok L ->
  main fuel n_init alloc (n :: rest)
  = Ok (Outcome 0 []
          ((if len (take (Z.to_nat n) rest) <=? 100
            then symbol_lines 0 (take (Z.to_nat n) rest) L else [])
           ++ [Summary (wrap64 (dot L (take (Z.to_nat n) rest)))
                 (wrap64 (total (take (Z.to_nat n) rest)))])
          [(take (Z.to_nat n) rest, len (take (Z.to_nat n) rest))]).
Proof.
  intros Hn Ha Hpos Hsort Htot E. unfold main.
  destruct (Z.leb_spec n 0) as [?|_]; [lia|].
  destruct (Z.gtb_spec n LIMIT) as [?|_]; [lia|]. simpl.
  rewrite Ha. simpl. rewrite read_freqs_take.
  apply process_valid; assumption.
Qed.

(** X13. The report.  When the declared count is accepted and the
    frequencies read are non-negative, non-decreasing and of a positive
    total that fits a [long long], the program calls the calculator once,
    on the frequencies read, writes no diagnostic and exits with status
    0.  With at most 100 symbols the output has one line per symbol,
    giving its position, its frequency and the length computed for it,
    and then the summary; with more symbols it has the summary only. *)
Theorem main_report (fuel : nat) (n_init : Z) (alloc : Z -> bool) (n : Z)
    (rest : list Z) :
  0 < n <= LIMIT -> alloc n = true ->
  Forall (Z.le 0) (take (Z.to_nat n) rest) ->
  Sorted Z.le (take (Z.to_nat n) rest) ->
  0 < total (take (Z.to_nat n) rest) <= INT64_MAX ->
  5 * n <= Z.of_nat fuel ->
  exists (L : list Z) (lines : list line) (bits : Z),
    calculate_minimum_redundancy fuel (take (Z.to_nat n) rest)
      (len (take (Z.to_nat n) rest)) = Ok L
    /\ main fuel n_init alloc (n :: rest)
       = Ok (Outcome 0 []
               (lines ++ [Summary bits (total (take (Z.to_nat n) rest))])
               [(take (Z.to_nat n) rest, len (take (Z.to_nat n) rest))])
    /\ (len (take (Z.to_nat n) rest) <= 100 ->
        length lines = length (take (Z.to_nat n) rest)
        /\ forall (i : nat) (a l : Z),
             take (Z.to_nat n) rest !! i = Some a -> L !! i = Some l ->
             lines !! i = Some (SymbolLine (Z.of_nat i) a l))
    /\ (100 < len (take (Z.to_nat n) rest) -> lines = []).
Proof.
  intros Hn Ha Hpos Hsort Htot Hfuel.
  set (A := take (Z.to_nat n) rest) in *.
  assert (len A <= n) as HlenA.
  { subst A. unfold len. rewrite length_take. lia. }
  assert (wrap64 (total A) = total A) as Hw
    by (apply wrap64_small; unfold INT64_MAX in *; lia).
  pose proof (total_nil_or_pos A ltac:(lia)) as Hlen1.
  destruct (calculator_ok A fuel Hlen1 ltac:(lia)) as (L & E & HlenL & _).
  exists L, (if len A <=? 100 then symbol_lines 0 A L else []),
    (wrap64 (dot L A)).
  split; [assumption|]. split.
  - rewrite <- Hw. subst A.
    apply main_valid; try assumption. lia.
  - destruct (Z.leb_spec (len A) 100) as [Hle|Hgt].
    + split; [|lia]. intros _.
      destruct (symbol_lines_lookup A L 0) as [Hl Hk].
      split; [rewrite Hl; lia|].
      intros i a l Hi Hl'. rewrite (Hk i a l Hi Hl'). reflexivity.
    + split; [lia|reflexivity].
Qed.

Lemma main_report_witness :
  exists (L : list Z) (lines : list line) (bits : Z),
    calculate_minimum_redundancy 20 (take (Z.to_nat 4) [1; 1; 2; 3])
      (len (take (Z.to_nat 4) [1; 1; 2; 3])) = Ok L
    /\ main 20 0 (fun _ => true) (4 :: [1; 1; 2; 3])
       = Ok (Outcome 0 []
               (lines
                ++ [Summary bits (total (take (Z.to_nat 4) [1; 1; 2; 3]))])
               [(take (Z.to_nat 4) [1; 1; 2; 3],
                 len (take (Z.to_nat 4) [1; 1; 2; 3]))])
    /\ (len (take (Z.to_nat 4) [1; 1; 2; 3]) <= 100 ->
        length lines = length (take (Z.to_nat 4) [1; 1; 2; 3])
        /\ forall (i : nat) (a l : Z),
             take (Z.to_nat 4) [1; 1; 2; 3] !! i = Some a ->
             L !! i = Some l ->
             lines !! i = Some (SymbolLine (Z.of_nat i) a l))
    /\ (100 < len (take (Z.to_nat 4) [1; 1; 2; 3]) -> lines = []).
Proof.
  apply (main_report 20 0 (fun _ => true) 4 [1; 1; 2; 3]).
  - vm_compute. split; [reflexivity|discriminate].
  - reflexivity.
  - repeat constructor; lia.
  - repeat constructor; lia.
  - vm_compute. split; [reflexivity|discriminate].
  - vm_compute. discriminate.
Defined.

(** X14. The two numbers of the summary.  Under the conditions of the
    report and when [(n - 1)] times the total fits a [long long], [bits]
    is the total of the lengths weighted by the frequencies, with no
    overflow, and lies between the total and [n - 1] times the total
    when there are two symbols or more: the average length lies between
    1 and [n - 1] bits.  With one symbol [bits] is 0. *)
Theorem main_summary (fuel : nat) (n_init : Z) (alloc : Z -> bool) (n : Z)
    (rest : list Z) :
  0 < n <= LIMIT -> alloc n = true ->
  Forall (Z.le 0) (take (Z.to_nat n) rest) ->
  Sorted Z.le (take (Z.to_nat n) rest) ->
  0 < total (take (Z.to_nat n) rest) ->
  (Z.max 1 (len (take (Z.to_nat n) rest) - 1))
  * total (take (Z.to_nat n) rest) <= INT64_MAX ->
  5 * n <= Z.of_nat fuel ->
  exists (L : list Z) (lines : list line),
    calculate_minimum_redundancy fuel (take (Z.to_nat n) rest)
      (len (take (Z.to_nat n) rest)) = Ok L
    /\ main fuel n_init alloc (n :: rest)
       = Ok (Outcome 0 []
               (lines ++ [Summary (dot L (take (Z.to_nat n) rest))
                            (total (take (Z.to_nat n) rest))])
               [(take (Z.to_nat n) rest, len (take (Z.to_nat n) rest))])
    /\ (len (take (Z.to_nat n) rest) = 1 ->
        dot L (take (Z.to_nat n) rest) = 0)
    /\ (2 <= len (take (Z.to_nat n) rest) ->
        total (take (Z.to_nat n) rest)
        <= dot L (take (Z.to_nat n) rest)
        <= (len (take (Z.to_nat n) rest) - 1)
           * total (take (Z.to_nat n) rest)).
Proof.
  intros Hn Ha Hpos Hsort Htot Hbig Hfuel.
  set (A := take (Z.to_nat n) rest) in *.
  assert (len A <= n) as HlenA.
  { subst A. unfold len. rewrite length_take. lia. }
  assert (total A <= INT64_MAX) as Htm by nia.
  assert (wrap64 (total A) = total A) as Hw
    by (apply wrap64_small; unfold INT64_MAX in *; lia).
  pose proof (total_nil_or_pos A ltac:(lia)) as Hlen1.
  destruct (calculator_ok A fuel Hlen1 ltac:(lia)) as (L & E & HlenL & HL).
  pose proof (dot_bounds L A _ _ HL Hpos HlenL) as Hd.
  assert (wrap64 (dot L A) = dot L A) as Hwd.
  { apply wrap64_small. unfold INT64_MAX in *.
    destruct (Z.eqb_spec (len A) 1); nia. }
  exists L, (if len A <=? 100 then symbol_lines 0 A L else []).
  split; [assumption|]. split; [|split].
  - rewrite <- Hw, <- Hwd. subst A.
    apply main_valid; try assumption. lia.
  - intros H1. destruct (Z.eqb_spec (len A) 1); lia.
  - intros H2. destruct (Z.eqb_spec (len A) 1); lia.
Qed.

Lemma main_summary_witness :
  exists (L : list Z) (lines : list line),
    calculate_minimum_redundancy 20 (take (Z.to_nat 4) [1; 1; 2; 3])
      (len (take (Z.to_nat 4) [1; 1; 2; 3])) = Ok L
    /\ main 20 0 (fun _ => true) (4 :: [1; 1; 2; 3])
       = Ok (Outcome 0 []
               (lines ++ [Summary (dot L (take (Z.to_nat 4) [1; 1; 2; 3]))
                            (total (take (Z.to_nat 4) [1; 1; 2; 3]))])
               [(take (Z.to_nat 4) [1; 1; 2; 3],
                 len (take (Z.to_nat 4) [1; 1; 2; 3]))])
    /\ (len (take (Z.to_nat 4) [1; 1; 2; 3]) = 1 ->
        dot L (take (Z.to_nat 4) [1; 1; 2; 3]) = 0)
    /\ (2 <= len (take (Z.to_nat 4) [1; 1; 2; 3]) ->
        total (take (Z.to_nat 4) [1; 1; 2; 3])
        <= dot L (take (Z.to_nat 4) [1; 1; 2; 3])
        <= (len (take (Z.to_nat 4) [1; 1; 2; 3]) - 1)
           * total (take (Z.to_nat 4) [1; 1; 2; 3])).
Proof.
  apply (main_summary 20 0 (fun _ => true) 4 [1; 1; 2; 3]).
  - vm_compute. split; [reflexivity|discriminate].
  - reflexivity.
  - repeat constructor; lia.
  - repeat constructor; lia.
  - reflexivity.
  - vm_compute. discriminate.
  - vm_compute. discriminate.
Defined.

(** X15. The calculator is called on checked input only: whatever the
    input of [main], every call of the calculator has as arguments a
    non-empty array of at most [LIMIT] non-negative, non-decreasing
    frequencies and the exact number of its cells. *)
Theorem calculator_called_on_valid
    (fuel : nat) (n_init : Z) (alloc : Z -> bool) (input : list Z)
    (o : outcome) (A : list Z) (m : Z) :
  main fuel n_init alloc input = Ok o -> (A, m) ∈ calls o ->
  m = len A /\ 1 <= m <= LIMIT /\ Forall (Z.le 0) A /\ Sorted Z.le A.
Proof.
  intros E Hin.
  destruct (main_cases fuel n_init alloc input o E)
    as [(d & ->)|(A' & L & Hpos & Hsort & _ & Hlen & _ & ->)]; simpl in Hin.
  - apply elem_of_nil in Hin. contradiction.
  - apply list_elem_of_singleton in Hin. injection Hin as -> ->.
    repeat split; try assumption; lia.
Qed.

Lemma calculator_called_on_valid_witness :
  4 = len [1; 1; 2; 3] /\ 1 <= 4 <= LIMIT
  /\ Forall (Z.le 0) [1; 1; 2; 3] /\ Sorted Z.le [1; 1; 2; 3].
Proof.
  apply (calculator_called_on_valid 20 0 (fun _ => true) [4; 1; 1; 2; 3]
           (Outcome 0 []
              [SymbolLine 0 1 3; SymbolLine 1 1 3; SymbolLine 2 2 2;
               SymbolLine 3 3 1; Summary 13 7]
              [([1; 1; 2; 3], 4)])
           [1; 1; 2; 3] 4).
  - reflexivity.
  - simpl. apply list_elem_of_singleton. reflexivity.
Defined.

Lemma main_total (fuel : nat) (n_init : Z) (alloc : Z -> bool)
    (input : list Z) :
  5 * (match input with [] => n_init | n :: _ => n end) <= Z.of_nat fuel ->
  exists o, main fuel n_init alloc input = Ok o.
Proof.
  intros Hfuel. unfold main.
  set (n := match input with [] => n_init | n :: _ => n end) in *.
  set (rest := match input with [] => [] | _ :: rest => rest end).
  replace (match input with [] => (n_init, []) | t :: rest0 => (t, rest0) end)
    with (n, rest) by (destruct input; reflexivity).
  clearbody n rest.
  destruct ((n <=? 0) || (n >? LIMIT)); [eexists; reflexivity|].
  destruct (alloc n); simpl; [|eexists; reflexivity].
  set (A := read_freqs (Z.to_nat n) rest).
  assert (len A <= Z.max 0 n) as HlenA.
  { subst A. rewrite read_freqs_take. unfold len. rewrite length_take. lia. }
  clearbody A. unfold process.
  destruct (check_freqs None A 0) as [t|] eqn:Ec; [|eexists; reflexivity].
  destruct (check_freqs_Some A None 0 t Ec) as (Hpos & Hsort & _).
  pose proof (check_freqs_total A None 0 Hpos Hsort ltac:(discriminate))
    as Hc.
  change (wrap64 0) with 0 in Hc. rewrite Z.add_0_l in Hc.
  rewrite Ec in Hc. injection Hc as ->.
  destruct (Z.leb_spec (wrap64 (total A)) 0) as [?|Ht];
    [eexists; reflexivity|].
  pose proof (total_nil_or_pos A Ht) as Hlen1.
  destruct (calculator_ok A fuel Hlen1 ltac:(lia)) as (L & E & _).
  rewrite E, res_bind_Ok. eexists; reflexivity.
Qed.

(** X16. The two ways [main] ends.  On a stream of numerals within the
    range of [long long], and with a budget of five loop tests for each
    symbol declared, [main] returns, in one of two ways: with status 0,
    no diagnostic, an output that ends with the summary and one call of
    the calculator; or with status 1, one diagnostic, no output and no
    call. *)
Theorem main_outcome_shape
    (fuel : nat) (n_init : Z) (alloc : Z -> bool) (input : list Z) :
  Forall (fun z => - 2 ^ 63 <= z <= INT64_MAX) input ->
  5 * (match input with [] => n_init | n :: _ => n end) <= Z.of_nat fuel ->
  exists o,
    main fuel n_init alloc input = Ok o
    /\ ((exit_status o = 0 /\ stderr o = []
         /\ (exists lines bits totfreq,
               stdout o = lines ++ [Summary bits totfreq] /\ 0 < totfreq)
         /\ exists A, calls o = [(A, len A)])
        \/ (exit_status o = 1 /\ (exists d, stderr o = [d])
            /\ stdout o = [] /\ calls o = [])).
Proof.
  intros _ Hfuel.
  destruct (main_total fuel n_init alloc input Hfuel) as (o & E).
  exists o. split; [exact E|].
  destruct (main_cases fuel n_init alloc input o E)
    as [(d & ->)|(A & L & _ & _ & Htot & _ & _ & ->)]; simpl.
  - right. repeat split. exists d. reflexivity.
  - left. repeat split.
    + eexists _, _, _. split; [reflexivity|assumption].
    + exists A. reflexivity.
Qed.

Lemma main_outcome_shape_witness :
  exists o,
    main 20 0 (fun _ => true) [4; 1; 1; 2; 3] = Ok o
    /\ ((exit_status o = 0 /\ stderr o = []
         /\ (exists lines bits totfreq,
               stdout o = lines ++ [Summary bits totfreq] /\ 0 < totfreq)
         /\ exists A, calls o = [(A, len A)])
        \/ (exit_status o = 1 /\ (exists d, stderr o = [d])
            /\ stdout o = [] /\ calls o = [])).
Proof.
  apply (main_outcome_shape 20 0 (fun _ => true) [4; 1; 1; 2; 3]).
  - repeat constructor; vm_compute; discriminate.
  - vm_compute. discriminate.
Defined.

(** X17. When the input is accepted.  On a stream of numerals within
    the range of [long long], and with a budget of [5n] loop tests,
    [main] ends with status 0 exactly when the declared count [n] is
    between 1 and [LIMIT], the arrays are allocated, the frequencies read
    are non-negative and non-decreasing, and their total, as [main]
    computes it in 64 bits, is positive. *)
Theorem main_accepts_iff
    (fuel : nat) (n_init : Z) (alloc : Z -> bool) (n : Z) (rest : list Z) :
  Forall (fun z => - 2 ^ 63 <= z <= INT64_MAX) (n :: rest) ->
  5 * n <= Z.of_nat fuel ->
  (exists o, main fuel n_init alloc (n :: rest) = Ok o /\ exit_status o = 0)
  <-> (0 < n <= LIMIT /\ alloc n = true
       /\ Forall (Z.le 0) (take (Z.to_nat n) rest)
       /\ Sorted Z.le (take (Z.to_nat n) rest)
       /\ 0 < wrap64 (total (take (Z.to_nat n) rest))).
Proof.
  intros _ Hfuel. split.
  - intros (o & E & Hst).
    unfold main in E.
    destruct (Z.leb_spec n 0) as [?|Hn0]; simpl in E;
      [injection E as <-; discriminate|].
    destruct (Z.gtb_spec n LIMIT) as [?|Hn1]; simpl in E;
      [injection E as <-; discriminate|].
    destruct (alloc n); simpl in E; [|injection E as <-; discriminate].
    rewrite read_freqs_take in E.
    set (A := take (Z.to_nat n) rest) in *. clearbody A.
    split; [lia|]. split; [reflexivity|].
    unfold process in E.
    destruct (check_freqs None A 0) as [t|] eqn:Ec;
      [|injection E as <-; discriminate].
    destruct (check_freqs_Some A None 0 t Ec) as (Hpos & Hsort & _).
    pose proof (check_freqs_total A None 0 Hpos Hsort ltac:(discriminate))
      as Hc.
    change (wrap64 0) with 0 in Hc. rewrite Z.add_0_l in Hc.
    rewrite Ec in Hc. injection Hc as ->.
    destruct (Z.leb_spec (wrap64 (total A)) 0) as [?|Ht];
      [injection E as <-; discriminate|].
    repeat split; assumption.
  - intros (Hn & Ha & Hpos & Hsort & Htot).
    set (A := take (Z.to_nat n) rest) in *.
    assert (len A <= n) as HlenA.
    { subst A. unfold len. rewrite length_take. lia. }
    pose proof (total_nil_or_pos A Htot) as Hlen1.
    destruct (calculator_ok A fuel Hlen1 ltac:(lia)) as (L & E & _).
    eexists. split.
    + subst A. apply (main_valid fuel n_init alloc n rest L); assumption.
    + reflexivity.
Qed.

Lemma main_accepts_iff_witness :
  (exists o, main 20 0 (fun _ => true) (4 :: [1; 1; 2; 3]) = Ok o
             /\ exit_status o = 0)
  <-> (0 < 4 <= LIMIT /\ (fun _ : Z => true) 4 = true
       /\ Forall (Z.le 0) (take (Z.to_nat 4) [1; 1; 2; 3])
       /\ Sorted Z.le (take (Z.to_nat 4) [1; 1; 2; 3])
       /\ 0 < wrap64 (total (take (Z.to_nat 4) [1; 1; 2; 3]))).
Proof.
  apply (main_accepts_iff 20 0 (fun _ => true) 4 [1; 1; 2; 3]).
  - repeat constructor; vm_compute; discriminate.
  - vm_compute. discriminate.
Defined.

Lemma check_freqs_zeros (A : list Z) : forall prev : option Z,
  Forall (fun x => x = 0) A -> (prev = None \/ prev = Some 0) ->
  check_freqs prev A 0 = Some 0.
Proof.
  induction A as [|a A IH]; intros prev HA Hprev; [reflexivity|].
  inversion HA as [|? ? -> HA']; subst. simpl.
  destruct Hprev as [-> | ->]; simpl; apply IH; auto.
Qed.

(** X18. Frequencies that are all zero, and a stream that ends before the
    first frequency, are rejected with the diagnostic of the zero total,
    not with that of the ordering. *)
Theorem zero_total_rejected
    (fuel : nat) (n_init : Z) (alloc : Z -> bool) (n : Z) (rest : list Z) :
  0 < n <= LIMIT -> alloc n = true ->
  Forall (fun x => x = 0) (take (Z.to_nat n) rest) ->
  main fuel n_init alloc (n :: rest) = Ok (fail ZeroTotal).
Proof.
  intros Hn Ha Hz. unfold main.
  destruct (Z.leb_spec n 0) as [?|_]; [lia|].
  destruct (Z.gtb_spec n LIMIT) as [?|_]; [lia|]. simpl.
  rewrite Ha. simpl. rewrite read_freqs_take. unfold process.
  rewrite (check_freqs_zeros _ None Hz) by (left; reflexivity).
  reflexivity.
Qed.

Lemma zero_total_rejected_witness :
  main 0 0 (fun _ => true) (3 :: [0; 0]) = Ok (fail ZeroTotal).
Proof.
  apply (zero_total_rejected 0 0 (fun _ => true) 3 [0; 0]).
  - vm_compute. split; [reflexivity|discriminate].
  - reflexivity.
  - repeat constructor.
Defined.

(** X19. What follows the declared number of frequencies is never read:
    on a stream with exactly [n] values after the count [n], anything
    appended changes nothing. *)
Theorem surplus_ignored
    (fuel : nat) (n_init : Z) (alloc : Z -> bool) (n : Z)
    (rest extra : list Z) :
  Z.of_nat (length rest) = n ->
  main fuel n_init alloc (n :: rest ++ extra)
  = main fuel n_init alloc (n :: rest).
Proof.
  intros Hn. unfold main.
  destruct ((n <=? 0) || (n >? LIMIT)); [reflexivity|].
  destruct (negb (alloc n)); [reflexivity|].
  rewrite (read_freqs_all _ rest) by lia.
  rewrite read_freqs_take, take_app_le by lia.
  rewrite take_ge by lia. reflexivity.
Qed.

Lemma surplus_ignored_witness :
  main 20 0 (fun _ => true) (2 :: [1; 2] ++ [-5; 0])
  = main 20 0 (fun _ => true) (2 :: [1; 2]).
Proof.
  apply (surplus_ignored 20 0 (fun _ => true) 2 [1; 2] [-5; 0]).
  reflexivity.
Defined.

(** ** [filter.c] *)

Lemma wrap32_small (z : Z) : - 2 ^ 31 <= z < 2 ^ 31 -> Filter.wrap32 z = z.
Proof.
  unfold Filter.wrap32. intros H. rewrite Z.mod_small by lia. lia.
Qed.

Lemma filter_read_fixed (pairs : list (Z * Z)) : forall s : Filter.st,
  1 <= Filter.offset s <= Filter.SIZE ->
  Forall (fun p => - Filter.offset s <= p.2
                   /\ Filter.offset s + p.2 < Filter.SIZE) pairs ->
  exists C',
    Filter.read pairs s
    = Ok (Filter.St C' (Filter.offset s) (last_number pairs (Filter.n s)))
    /\ forall i, default 0 (C' !! i)
                 = count_of pairs (i - Filter.offset s) (Filter.cell s i).
Proof.
  induction pairs as [|[c n] rest IH]; intros [C off n0] Hoff Hall;
    simpl in *.
  - exists C. split; [reflexivity|]. intros i. reflexivity.
  - inversion Hall as [|? ? [Hlo Hhi] Hall']; subst. simpl in *.
    unfold Filter.store, Filter.add32, Filter.SIZE in *. simpl.
    rewrite (wrap32_small (off + n)) by lia.
    destruct (Z.ltb_spec (off + n) 0) as [?|_]; [lia|].
    rewrite (wrap32_small (off + n)) by lia.
    destruct (Z.leb_spec 0 (off + n)) as [_|?]; [|lia].
    destruct (Z.ltb_spec (off + n) 100000000) as [_|?]; [|lia]. simpl.
    destruct (IH (Filter.St (<[off + n := c]> C) off n) Hoff Hall')
      as (C' & E & HC'). simpl in *.
    exists C'. split; [assumption|].
    intros i. rewrite HC'. f_equal.
    destruct (Z.eqb_spec n (i - off)) as [Hn|Hn].
    + replace (off + n) with i by lia. unfold Filter.cell. simpl.
      rewrite lookup_insert_eq. reflexivity.
    + unfold Filter.cell. simpl. rewrite lookup_insert_ne by lia.
      reflexivity.
Qed.

Lemma filter_print_spec (k : nat) : forall (i : Z) (s : Filter.st),
  0 <= i -> i + Z.of_nat k <= Filter.SIZE ->
  1 <= Filter.offset s <= Filter.SIZE ->
  Filter.print k i s
  = Ok ((fun j => (j - Filter.offset s, Filter.cell s j))
        <$> seqZ i (Z.of_nat k)).
Proof.
  induction k as [|k IH]; intros i s Hi Hk Hoff; [reflexivity|].
  cbn [Filter.print]. unfold Filter.SIZE in *.
  destruct (Z.leb_spec 0 i) as [_|?]; [|lia].
  destruct (Z.ltb_spec i 100000000) as [_|?]; [|lia]. simpl.
  rewrite IH by (unfold Filter.SIZE; lia). rewrite res_bind_Ok.
  rewrite (seqZ_cons i (Z.of_nat (S k))) by lia.
  replace (Z.pred (Z.of_nat (S k))) with (Z.of_nat k) by lia.
  unfold Filter.sub32. rewrite wrap32_small by lia. reflexivity.
Qed.

Lemma last_number_Forall (Q : Z -> Prop) (pairs : list (Z * Z)) :
  forall d : Z,
  Forall (fun p => Q p.2) pairs -> Q d -> Q (last_number pairs d).
Proof.
  induction pairs as [|[c n] rest IH]; intros d Hall Hd; simpl;
    [assumption|].
  inversion Hall; subst. apply IH; assumption.
Qed.

(** X20. When the counts are within the range of [int], the first pair
    carries the smallest number [m] and the indices stay below [SIZE],
    the output lists every number from [min m (-1)] to the number of the
    last pair, in order, each with the count last given for it, and 0 for
    a number that was never given.  Numbers above the last one are not
    listed. *)
Theorem filter_listing (n_init c0 m : Z) (rest : list (Z * Z)) :
  Forall (fun p => - 2 ^ 31 <= p.1 < 2 ^ 31) ((c0, m) :: rest) ->
  - Filter.SIZE <= m ->
  Forall (fun p => m <= p.2) rest ->
  Forall (fun p => Z.max 1 (- m) + p.2 < Filter.SIZE) ((c0, m) :: rest) ->
  Filter.main n_init ((c0, m) :: rest)
  = Ok ((fun v => (v, count_of ((c0, m) :: rest) v 0))
        <$> seqZ (Z.min m (-1)) (last_number rest m - Z.min m (-1) + 1)).
Proof.
  intros _ Hm Hmin Hmax. unfold Filter.main.
  inversion Hmax as [|? ? Hm0 Hmax']; subst. simpl in Hm0.
  set (off := Z.max 1 (- m)) in *.
  assert (1 <= off <= Filter.SIZE) as Hoff by (unfold Filter.SIZE in *; lia).
  cbn [Filter.read]. unfold Filter.store, Filter.add32, Filter.neg32.
  cbn [Filter.offset Filter.C Filter.n]. unfold Filter.SIZE in *.
  rewrite (wrap32_small (1 + m)) by lia.
  assert ((if 1 + m <? 0 then Filter.wrap32 (- m) else 1) = off) as ->.
  { destruct (Z.ltb_spec (1 + m) 0); [rewrite wrap32_small|]; lia. }
  rewrite (wrap32_small (off + m)) by lia.
  destruct (Z.leb_spec 0 (off + m)) as [_|?]; [|lia].
  destruct (Z.ltb_spec (off + m) 100000000) as [_|?]; [|lia].
  cbn [andb]. rewrite res_bind_Ok.
  destruct (filter_read_fixed rest (Filter.St (<[off + m := c0]> ∅) off m))
    as (C' & E & HC'); simpl.
  { unfold Filter.SIZE. lia. }
  { apply Forall_forall. intros p Hp.
    pose proof (proj1 (Forall_forall _ _) Hmin p Hp).
    pose proof (proj1 (Forall_forall _ _) Hmax' p Hp).
    simpl in *. unfold Filter.SIZE. lia. }
  simpl in E, HC'. rewrite E, res_bind_Ok. simpl.
  assert (m <= last_number rest m /\ off + last_number rest m < 100000000)
    as [Hl1 Hl2].
  { apply (last_number_Forall
             (fun v => m <= v /\ off + v < 100000000) rest m); [|lia].
    apply Forall_forall. intros p Hp.
    pose proof (proj1 (Forall_forall _ _) Hmin p Hp).
    pose proof (proj1 (Forall_forall _ _) Hmax' p Hp).
    simpl in *. lia. }
  unfold Filter.add32.
  rewrite (wrap32_small (last_number rest m + off)) by lia.
  rewrite filter_print_spec by (simpl; unfold Filter.SIZE; lia).
  simpl. rewrite Z2Nat.id by lia. f_equal.
  replace (Z.min m (-1)) with (0 - off) by lia.
  replace (last_number rest m - (0 - off) + 1)
    with (last_number rest m + off + 1) by lia.
  generalize (last_number rest m + off + 1) as len0. intros len0.
  replace (0 - off) with (- off + 0) by lia.
  rewrite <- (fmap_add_seqZ (- off) 0 len0).
  rewrite <- list_fmap_compose. apply list_fmap_ext.
  intros k j Hj. simpl. f_equal; [lia|].
  unfold Filter.cell at 1. simpl. rewrite HC'.
  replace (- off + j) with (j - off) by lia. f_equal.
  destruct (Z.eqb_spec m (j - off)) as [Hn|Hn].
  - replace (off + m) with j by lia. unfold Filter.cell. simpl.
    rewrite lookup_insert_eq. reflexivity.
  - unfold Filter.cell. simpl. rewrite lookup_insert_ne by lia.
    rewrite lookup_empty. reflexivity.
Qed.

Lemma filter_listing_witness :
  Filter.main 0 ((5, -2) :: [(7, 1); (9, -2); (4, 0)])
  = Ok ((fun v => (v, count_of ((5, -2) :: [(7, 1); (9, -2); (4, 0)]) v 0))
        <$> seqZ (Z.min (-2) (-1))
              (last_number [(7, 1); (9, -2); (4, 0)] (-2)
               - Z.min (-2) (-1) + 1)).
Proof.
  apply (filter_listing 0 5 (-2) [(7, 1); (9, -2); (4, 0)]).
  - repeat constructor; simpl; lia.
  - vm_compute. discriminate.
  - repeat constructor; simpl; lia.
  - repeat constructor; vm_compute; reflexivity.
Defined.

Example filter_scenario :
  Filter.main 0 [(5, -2); (7, 1); (9, -2); (4, 0)]
  = Ok [(-2, 9); (-1, 0); (0, 4)].
Proof. reflexivity. Qed.

Lemma filter_read_safe (lo hi : Z) (pairs : list (Z * Z)) :
  - Filter.SIZE <= lo -> Z.max 1 (- lo) + hi < Filter.SIZE ->
  Forall (fun p => lo <= p.2 <= hi) pairs ->
  forall s : Filter.st,
  1 <= Filter.offset s <= Z.max 1 (- lo) ->
  (pairs = [] -> 0 <= Filter.offset s + Filter.n s < Filter.SIZE) ->
  exists s',
    Filter.read pairs s = Ok s'
    /\ Filter.offset s <= Filter.offset s' <= Z.max 1 (- lo)
    /\ Filter.n s' = last_number pairs (Filter.n s)
    /\ 0 <= Filter.offset s' + Filter.n s' < Filter.SIZE.
Proof.
  intros Hlo Hhi Hall. unfold Filter.SIZE in *.
  induction Hall as [|[c n] rest [Hn1 Hn2] _ IH]; intros [C off n0] Hoff H0;
    simpl in *.
  - exists (Filter.St C off n0). simpl. specialize (H0 eq_refl).
    repeat split; try reflexivity; lia.
  - unfold Filter.store, Filter.add32, Filter.neg32, Filter.SIZE. simpl.
    rewrite (wrap32_small (off + n)) by lia.
    destruct (Z.ltb_spec (off + n) 0) as [Hneg|Hpos].
    + rewrite (wrap32_small (- n)) by lia.
      rewrite (wrap32_small (- n + n)) by lia.
      replace (- n + n) with 0 by lia. simpl.
      destruct (IH (Filter.St (<[0 := c]> C) (- n) n))
        as (s' & E & Ho & Hl & Hb); simpl; try lia.
      exists s'. split; [assumption|]. simpl in *.
      repeat split; try assumption; lia.
    + rewrite (wrap32_small (off + n)) by lia.
      destruct (Z.leb_spec 0 (off + n)) as [_|?]; [|lia].
      destruct (Z.ltb_spec (off + n) 100000000) as [_|?]; [|lia]. simpl.
      destruct (IH (Filter.St (<[off + n := c]> C) off n))
        as (s' & E & Ho & Hl & Hb); simpl; try lia.
      exists s'. split; [assumption|]. simpl in *.
      repeat split; try assumption; lia.
Qed.

(** X21. When the numbers of a non-empty input lie between [lo] and [hi]
    with [max 1 (-lo) + hi < SIZE], the program stays inside the array
    [C], whatever the order of the pairs: a number too small for the
    current offset moves the offset, never the index below 0.  The lines
    written are those of consecutive numbers, from minus the final
    offset to the number of the last pair. *)
Theorem filter_in_bounds (n_init lo hi : Z) (pairs : list (Z * Z)) :
  pairs <> [] ->
  - Filter.SIZE <= lo -> Z.max 1 (- lo) + hi < Filter.SIZE ->
  Forall (fun p => lo <= p.2 <= hi) pairs ->
  exists (off : Z) (lines : list (Z * Z)),
    Filter.main n_init pairs = Ok lines
    /\ 1 <= off <= Z.max 1 (- lo)
    /\ 0 <= off + last_number pairs n_init
    /\ lines.*1 = seqZ (- off) (off + last_number pairs n_init + 1).
Proof.
  intros Hne Hlo Hhi Hall.
  destruct (filter_read_safe lo hi pairs Hlo Hhi Hall (Filter.St ∅ 1 n_init))
    as (s' & E & Ho & Hl & Hb); simpl; [lia|contradiction|].
  simpl in *. unfold Filter.main. rewrite E, res_bind_Ok.
  unfold Filter.add32, Filter.SIZE in *.
  rewrite (wrap32_small (Filter.n s' + Filter.offset s')) by lia.
  rewrite filter_print_spec by (unfold Filter.SIZE; lia).
  exists (Filter.offset s'). eexists. split; [reflexivity|].
  rewrite <- Hl. split; [lia|]. split; [lia|].
  rewrite Z2Nat.id by lia. rewrite <- list_fmap_compose.
  replace (Filter.n s' + Filter.offset s' + 1)
    with (Filter.offset s' + Filter.n s' + 1) by lia.
  generalize (Filter.offset s' + Filter.n s' + 1) as len0. intros len0.
  rewrite <- (Z.add_0_r (- Filter.offset s')).
  rewrite <- (fmap_add_seqZ (- Filter.offset s') 0 len0).
  apply list_fmap_ext. intros k j Hj. simpl. lia.
Qed.

Lemma filter_in_bounds_witness :
  exists (off : Z) (lines : list (Z * Z)),
    Filter.main 0 [(5, 0); (7, -3); (9, 2)] = Ok lines
    /\ 1 <= off <= Z.max 1 (- (-3))
    /\ 0 <= off + last_number [(5, 0); (7, -3); (9, 2)] 0
    /\ lines.*1 = seqZ (- off) (off + last_number [(5, 0); (7, -3); (9, 2)] 0
                                + 1).
Proof.
  apply (filter_in_bounds 0 (-3) 2 [(5, 0); (7, -3); (9, 2)]).
  - discriminate.
  - vm_compute. discriminate.
  - vm_compute. reflexivity.
  - repeat constructor; simpl; lia.
Defined.

(** * The optimality of the code *)

(** ** Merging the two lightest items of a code *)

Lemma cost_cons (w l : Z) (ps : list (Z * Z)) :
  cost ((w, l) :: ps) = w * l + cost ps.
Proof. reflexivity. Qed.

Lemma scaled_kraft_cons (D l : Z) (ls : list Z) :
  scaled_kraft D (l :: ls) = 2 ^ (D - l) + scaled_kraft D ls.
Proof. reflexivity. Qed.

Lemma scaled_kraft_perm (D : Z) (a b : list Z) :
  a ≡ₚ b -> scaled_kraft D a = scaled_kraft D b.
Proof.
  induction 1; rewrite ?scaled_kraft_cons; lia.
Qed.

Lemma cost_perm (a b : list (Z * Z)) : a ≡ₚ b -> cost a = cost b.
Proof.
  induction 1 as [|[w l] a b _ IH|[w l] [w' l'] a|a b c _ IH1 _ IH2];
    rewrite ?cost_cons; lia.
Qed.

Lemma scaled_kraft_nonneg (D : Z) (ls : list Z) : 0 <= scaled_kraft D ls.
Proof.
  induction ls as [|l ls IH]; [reflexivity|].
  rewrite scaled_kraft_cons. pose proof (Z.pow_nonneg 2 (D - l)). lia.
Qed.

(** Kraft's scaled sum of lengths up to [m] is a multiple of
    [2^(D-m)]. *)
Lemma scaled_kraft_multiple (D m : Z) (ls : list Z) :
  m <= D -> Forall (fun l => 0 <= l <= m) ls ->
  exists a, scaled_kraft D ls = a * 2 ^ (D - m).
Proof.
  intros Hm H. induction H as [|l ls Hl _ [a IH]].
  - exists 0. reflexivity.
  - exists (2 ^ (m - l) + a). rewrite scaled_kraft_cons, IH.
    replace (D - l) with ((m - l) + (D - m)) by lia.
    rewrite Z.pow_add_r by lia. ring.
Qed.

(** A length that exceeds all the others can be lowered to the longest
    of the others. *)
Lemma lower_longest (D m l : Z) (ls : list Z) :
  0 <= m -> Forall (fun l' => 0 <= l' <= m) ls -> m < l <= D ->
  2 ^ (D - l) + scaled_kraft D ls <= 2 ^ D ->
  2 ^ (D - m) + scaled_kraft D ls <= 2 ^ D.
Proof.
  intros Hm0 Hls Hl Hk.
  destruct (scaled_kraft_multiple D m ls) as [a Ha]; [lia|assumption|].
  rewrite Ha in *.
  assert (Hg : 0 < 2 ^ (D - m)) by (apply Z.pow_pos_nonneg; lia).
  assert (Ht : 0 < 2 ^ (D - l)) by (apply Z.pow_pos_nonneg; lia).
  assert (Hlt : 2 ^ (D - l) < 2 ^ (D - m))
    by (apply Z.pow_lt_mono_r; lia).
  assert (HD : 2 ^ D = 2 ^ m * 2 ^ (D - m)).
  { rewrite <- Z.pow_add_r by lia. f_equal. lia. }
  rewrite HD in *. clear HD Ha.
  remember (2 ^ (D - m)) as g. remember (2 ^ (D - l)) as t.
  remember (2 ^ m) as M.
  assert (a < M) by nia. nia.
Qed.

(** The longest length of a code can be given to an item that is not
    heavier than any other, at no cost. *)
Lemma give_longest (w l : Z) (rs : list (Z * Z)) :
  Forall (fun z => w <= z) (rs.*1) ->
  exists l' rs',
    rs'.*1 = rs.*1 /\ l' :: rs'.*2 ≡ₚ l :: rs.*2
    /\ Forall (fun l0 => l0 <= l') (rs'.*2)
    /\ cost ((w, l') :: rs') <= cost ((w, l) :: rs).
Proof.
  induction rs as [|[z lz] rs0 IH]; intros Hrs.
  - exists l, []. split; [reflexivity|]. split; [reflexivity|].
    split; [constructor|]. lia.
  - assert (Hrs' : Forall (fun z => w <= z) (z :: rs0.*1)) by exact Hrs.
    inversion Hrs' as [|? ? Hz Hrs0]; subst.
    destruct (IH Hrs0) as (l1 & rs1 & Hw & Hp & Hmax & Hc).
    rewrite !cost_cons in Hc.
    destruct (Z_le_gt_dec lz l1) as [Hle|Hgt].
    + exists l1, ((z, lz) :: rs1).
      split; [change (z :: rs1.*1 = z :: rs0.*1); f_equal; exact Hw|].
      split.
      { change (l1 :: lz :: rs1.*2 ≡ₚ l :: lz :: rs0.*2).
        etrans; [apply Permutation_swap|].
        etrans; [exact (perm_skip lz Hp)|]. apply Permutation_swap. }
      split.
      { change (Forall (fun l0 => l0 <= l1) (lz :: rs1.*2)).
        constructor; assumption. }
      rewrite !cost_cons. lia.
    + exists lz, ((z, l1) :: rs1).
      split; [change (z :: rs1.*1 = z :: rs0.*1); f_equal; exact Hw|].
      split.
      { change (lz :: l1 :: rs1.*2 ≡ₚ l :: lz :: rs0.*2).
        etrans; [exact (perm_skip lz Hp)|]. apply Permutation_swap. }
      split.
      { change (Forall (fun l0 => l0 <= lz) (l1 :: rs1.*2)).
        constructor; [lia|].
        eapply Forall_impl; [exact Hmax|]. cbn. intros; lia. }
      rewrite !cost_cons. nia.
Qed.

(** In a code for at least two items, the two lightest can be merged
    into one item, which saves their combined weight. *)
Lemma merge_two (D x y lx ly : Z) (qs : list (Z * Z)) :
  0 <= x <= y -> Forall (fun z => y <= z) (qs.*1) ->
  code_ok D ((x, lx) :: (y, ly) :: qs) ->
  exists l qs',
    qs'.*1 = qs.*1 /\ code_ok D ((x + y, l) :: qs')
    /\ cost ((x + y, l) :: qs') + (x + y)
       <= cost ((x, lx) :: (y, ly) :: qs).
Proof.
  intros Hxy Hqs [Hb Hk].
  assert (Hb' : Forall (fun l => 0 <= l <= D) (lx :: ly :: qs.*2))
    by exact Hb.
  assert (Hk' : scaled_kraft D (lx :: ly :: qs.*2) <= 2 ^ D) by exact Hk.
  clear Hb Hk.
  destruct (give_longest x lx ((y, ly) :: qs))
    as (l1 & rs1 & Hw1 & Hp1 & Hmax1 & Hc1).
  { change (Forall (fun z => x <= z) (y :: qs.*1)).
    constructor; [lia|].
    eapply Forall_impl; [exact Hqs|]. cbn. intros; lia. }
  destruct rs1 as [|[y' ly1] qs1]; [discriminate|].
  assert (Hw1' : y' :: qs1.*1 = y :: qs.*1) by exact Hw1.
  assert (Hp1' : l1 :: ly1 :: qs1.*2 ≡ₚ lx :: ly :: qs.*2) by exact Hp1.
  assert (Hmax1' : Forall (fun l0 => l0 <= l1) (ly1 :: qs1.*2))
    by exact Hmax1.
  clear Hw1 Hp1 Hmax1. injection Hw1' as -> Hw1.
  destruct (give_longest y ly1 qs1) as (l2 & qs2 & Hw2 & Hp2 & Hmax2 & Hc2).
  { rewrite Hw1. exact Hqs. }
  assert (Hp3 : l1 :: l2 :: qs2.*2 ≡ₚ lx :: ly :: qs.*2).
  { etrans; [exact (perm_skip l1 Hp2)|]. exact Hp1'. }
  assert (Hb2 : Forall (fun l => 0 <= l <= D) (l1 :: l2 :: qs2.*2)).
  { rewrite Hp3. exact Hb'. }
  assert (Hk2 : scaled_kraft D (l1 :: l2 :: qs2.*2) <= 2 ^ D).
  { rewrite (scaled_kraft_perm D _ _ Hp3). exact Hk'. }
  assert (Hl21 : l2 <= l1).
  { assert (Hin : l2 ∈ ly1 :: qs1.*2) by (rewrite <- Hp2; left).
    rewrite Forall_forall in Hmax1'. apply Hmax1', Hin. }
  inversion Hb2 as [|? ? Hl1 Hb3]; subst.
  inversion Hb3 as [|? ? Hl2 Hb4]; subst.
  assert (Hk3 : 2 ^ (D - l2) + scaled_kraft D (l2 :: qs2.*2) <= 2 ^ D).
  { destruct (Z.eq_dec l1 l2) as [->|Hne]; [exact Hk2|].
    apply (lower_longest D l2 l1); [lia| |lia|exact Hk2].
    constructor; [lia|].
    apply Forall_forall. intros l0 Hin.
    pose proof (proj1 (Forall_forall _ _) Hb4 _ Hin) as H1.
    pose proof (proj1 (Forall_forall _ _) Hmax2 _ Hin) as H2.
    cbn in H1, H2. lia. }
  rewrite scaled_kraft_cons in Hk3.
  pose proof (scaled_kraft_nonneg D (qs2.*2)) as Hnn.
  assert (HposD : 0 < 2 ^ D) by (apply Z.pow_pos_nonneg; lia).
  assert (Hl2pos : 1 <= l2).
  { destruct (Z.eq_dec l2 0) as [->|]; [|lia].
    rewrite Z.sub_0_r in Hk3. lia. }
  exists (l2 - 1), qs2.
  split; [congruence|]. split.
  - split.
    + change (Forall (fun l => 0 <= l <= D) (l2 - 1 :: qs2.*2)).
      constructor; [lia|exact Hb4].
    + change (scaled_kraft D (l2 - 1 :: qs2.*2) <= 2 ^ D).
      rewrite scaled_kraft_cons.
      replace (D - (l2 - 1)) with (D - l2 + 1) by lia.
      rewrite Z.pow_add_r by lia. lia.
  - change ((x + y) * (l2 - 1) + cost qs2 + (x + y)
            <= x * lx + (y * ly + cost qs)).
    change (x * l1 + (y * ly1 + cost qs1) <= x * lx + (y * ly + cost qs))
      in Hc1.
    change (y * l2 + cost qs2 <= y * ly1 + cost qs1) in Hc2.
    nia.
Qed.

(** ** Slices *)

Lemma slice_empty (B : arr) (lo hi : Z) : hi <= lo -> slice B lo hi = [].
Proof. intros H. unfold slice. rewrite seqZ_nil by lia. reflexivity. Qed.

Lemma slice_head (B : arr) (lo hi : Z) :
  lo < hi -> slice B lo hi = geti B lo :: slice B (lo + 1) hi.
Proof.
  intros H. unfold slice. rewrite seqZ_cons by lia. rewrite fmap_cons.
  replace (Z.succ lo) with (lo + 1) by lia.
  replace (Z.pred (hi - lo)) with (hi - (lo + 1)) by lia. reflexivity.
Qed.

Lemma slice_last (B : arr) (lo hi : Z) :
  lo <= hi -> slice B lo (hi + 1) = slice B lo hi ++ [geti B hi].
Proof.
  intros H. unfold slice.
  replace (hi + 1 - lo) with ((hi - lo) + 1) by lia.
  rewrite seqZ_app by lia. rewrite fmap_app.
  replace (lo + (hi - lo)) with hi by lia. reflexivity.
Qed.

Lemma slice_ext (B B' : arr) (lo hi : Z) :
  (forall i, lo <= i < hi -> geti B i = geti B' i) ->
  slice B lo hi = slice B' lo hi.
Proof.
  intros H. unfold slice. apply Forall_fmap_ext_1, Forall_forall.
  intros i Hi. apply elem_of_seqZ in Hi. apply H. lia.
Qed.

Lemma Forall_slice (Q : Z -> Prop) (B : arr) (lo hi : Z) :
  (forall i, lo <= i < hi -> Q (geti B i)) -> Forall Q (slice B lo hi).
Proof.
  intros H. unfold slice. apply Forall_fmap, Forall_forall.
  intros i Hi. apply elem_of_seqZ in Hi. apply H. lia.
Qed.

Lemma slice_cons (a : Z) (A : arr) (lo hi : Z) :
  0 <= lo -> slice (a :: A) (lo + 1) (hi + 1) = slice A lo hi.
Proof.
  intros Hlo. unfold slice.
  replace (hi + 1 - (lo + 1)) with (hi - lo) by lia.
  replace (lo + 1) with (1 + lo) by lia.
  rewrite <- (fmap_add_seqZ 1 lo), <- list_fmap_compose.
  apply Forall_fmap_ext_1, Forall_forall.
  intros i Hi. apply elem_of_seqZ in Hi. cbn.
  replace (1 + i) with (i + 1) by lia. apply geti_cons. lia.
Qed.

Lemma slice_all (A : list Z) : slice A 0 (len A) = A.
Proof.
  induction A as [|a A IH]; [reflexivity|].
  replace (len (a :: A)) with (len A + 1) by (unfold len; simpl; lia).
  rewrite slice_head by (unfold len; lia).
  rewrite (slice_cons a A 0 (len A)) by lia.
  rewrite IH. reflexivity.
Qed.

(** ** One iteration of the first pass, in full *)

Lemma pass1_step (A : arr) (n next : Z) (s : p1) :
  1 <= next <= n - 2 -> ascending A n ->
  inv1 n next s -> weights_inv A n next s ->
  exists s' x y,
    pass1_body n next s = Ok s'
    /\ inv1 n (next + 1) s' /\ weights_inv A n (next + 1) s'
    /\ pairing n next s s' x y
    /\ geti (p1_A s') next = x + y
    /\ (forall i, 0 <= i -> i <> next -> i < p1_root s \/ p1_root s' <= i ->
                  geti (p1_A s') i = geti (p1_A s) i)
    /\ 0 <= x <= y
    /\ (forall i, p1_root s' <= i <= next - 1 -> y <= geti (p1_A s) i)
    /\ (forall i, p1_leaf s' <= i <= n - 1 -> y <= geti (p1_A s) i).
Proof.
  intros Hnext Hasc Hinv Hw.
  destruct (pass1_body_shape n next s Hnext Hinv)
    as (s' & x & y & E & Hpair & Hnew & Hframe & Hlen').
  destruct (pass1_body_weights A n next s Hnext Hasc Hinv Hw)
    as (s'' & E' & Hinv' & Hw' & _).
  rewrite E in E'. injection E' as <-.
  exists s', x, y. split; [assumption|]. split; [assumption|].
  split; [assumption|]. split; [assumption|].
  pose proof Hinv as [Hlen Hroot Hsum Hlo Hhi _ _ _].
  pose proof Hw as [Hleaves Hqueue Hnonneg _ Htot].
  destruct s as [B root leaf], s' as [B' root' leaf']; simpl in *.
  assert (0 <= x <= y
          /\ sumrange B root' next + (x + y) + sumrange A leaf' n
             <= INT64_MAX
          /\ root <= root' <= next /\ leaf <= leaf'
          /\ (forall i, root' <= i <= next - 1 -> y <= geti B i)
          /\ (forall i, leaf' <= i <= n - 1 -> y <= geti B i))
    as (Hxy & Htot' & Hr & Hl & Hfr & Hfl).
  { unfold pairing in Hpair; simpl in Hpair.
    destruct Hpair as [(-> & -> & Hr1 & -> & -> & Hlt)
                      |[(-> & -> & Hl1 & -> & -> & Hlt & Hle)
                      |[(-> & -> & Hl1 & -> & -> & Hle & Hlt)
                       |(-> & -> & Hl1 & -> & -> & Hle1 & Hle2)]]].
    - (* two roots *)
      pose proof (Hnonneg root ltac:(lia)).
      pose proof (Hqueue root (root + 1) ltac:(lia) ltac:(lia) ltac:(lia)).
      rewrite (sumrange_head B root next) in Htot by lia.
      rewrite (sumrange_head B (root + 1) next) in Htot by lia.
      replace (root + 1 + 1) with (root + 2) in Htot by lia.
      repeat split; try lia.
      + intros i Hi. apply Hqueue; lia.
      + intros i Hi. pose proof (Hlt ltac:(lia)) as [_ Hy].
        rewrite (Hleaves leaf) in Hy by lia. rewrite (Hleaves i) by lia.
        pose proof (Hasc leaf i ltac:(lia) ltac:(lia) ltac:(lia)). lia.
    - (* a root, then a leaf *)
      pose proof (Hnonneg root ltac:(lia)).
      rewrite (Hleaves leaf) in * by lia.
      pose proof (Hasc leaf leaf ltac:(lia) ltac:(lia) ltac:(lia)).
      rewrite (sumrange_head B root next) in Htot by lia.
      rewrite (sumrange_head A leaf n) in Htot by lia.
      repeat split; try lia.
      + intros i Hi. specialize (Hle ltac:(lia)).
        pose proof (Hqueue (root + 1) i ltac:(lia) ltac:(lia) ltac:(lia)).
        lia.
      + intros i Hi. rewrite (Hleaves i) by lia.
        pose proof (Hasc leaf i ltac:(lia) ltac:(lia) ltac:(lia)). lia.
    - (* a leaf, then a root *)
      pose proof (Hnonneg root ltac:(lia)).
      rewrite (Hleaves leaf) in * by lia.
      pose proof (Hasc leaf leaf ltac:(lia) ltac:(lia) ltac:(lia)).
      rewrite (sumrange_head B root next) in Htot by lia.
      rewrite (sumrange_head A leaf n) in Htot by lia.
      repeat split; try lia.
      + intros i Hi. apply Hqueue; lia.
      + intros i Hi. specialize (Hlt ltac:(lia)).
        rewrite (Hleaves (leaf + 1)) in Hlt by lia.
        rewrite (Hleaves i) by lia.
        pose proof (Hasc (leaf + 1) i ltac:(lia) ltac:(lia) ltac:(lia)).
        lia.
    - (* two leaves *)
      rewrite (Hleaves leaf) in * by lia.
      rewrite (Hleaves (leaf + 1)) in * by lia.
      pose proof (Hasc leaf (leaf + 1) ltac:(lia) ltac:(lia) ltac:(lia)).
      rewrite (sumrange_head A leaf n) in Htot by lia.
      rewrite (sumrange_head A (leaf + 1) n) in Htot by lia.
      replace (leaf + 1 + 1) with (leaf + 2) in Htot by lia.
      repeat split; try lia.
      + intros i Hi.
        pose proof (Hqueue root i ltac:(lia) ltac:(lia) ltac:(lia)). lia.
      + intros i Hi. rewrite (Hleaves i) by lia.
        pose proof (Hasc (leaf + 1) i ltac:(lia) ltac:(lia) ltac:(lia)).
        lia. }
  assert (0 <= sumrange B root' next) as Hs1.
  { apply sumrange_nonneg. intros i Hi. apply Hnonneg. lia. }
  pose proof (sumrange_asc_nonneg A n leaf' Hasc ltac:(lia)) as Hs2.
  rewrite add64_small in Hnew by (unfold INT64_MAX in *; lia).
  split; [assumption|]. split; [assumption|]. split; [assumption|].
  split; assumption.
Qed.

(** The items before and after an iteration. *)
Lemma items_step (n next : Z) (s s' : p1) (x y : Z) :
  1 <= next <= n - 2 -> inv1 n next s ->
  pairing n next s s' x y ->
  geti (p1_A s') next = x + y ->
  (forall i, 0 <= i -> i <> next -> i < p1_root s \/ p1_root s' <= i ->
             geti (p1_A s') i = geti (p1_A s) i) ->
  items n next s
  ≡ₚ x :: y :: slice (p1_A s) (p1_root s') next
               ++ slice (p1_A s) (p1_leaf s') n
  /\ items n (next + 1) s'
     ≡ₚ (x + y) :: slice (p1_A s) (p1_root s') next
                   ++ slice (p1_A s) (p1_leaf s') n.
Proof.
  intros Hnext [Hlen Hroot Hsum Hlo Hhi _ _ _] Hpair Hnew Hframe.
  destruct s as [B root leaf], s' as [B' root' leaf'];
    unfold items; simpl in *.
  assert (root <= root' <= next /\ leaf <= leaf') as [Hr Hl].
  { unfold pairing in Hpair; simpl in Hpair.
    destruct Hpair as [(_ & _ & ? & -> & -> & _)
                      |[(_ & _ & ? & -> & -> & _)
                      |[(_ & _ & ? & -> & -> & _)
                       |(_ & _ & ? & -> & -> & _)]]]; lia. }
  split.
  - unfold pairing in Hpair; simpl in Hpair.
    destruct Hpair as [(-> & -> & Hr1 & -> & -> & _)
                      |[(-> & -> & Hl1 & -> & -> & _)
                      |[(-> & -> & Hl1 & -> & -> & _)
                       |(-> & -> & Hl1 & -> & -> & _)]]].
    + rewrite (slice_head B root next) by lia.
      rewrite (slice_head B (root + 1) next) by lia.
      replace (root + 1 + 1) with (root + 2) by lia. reflexivity.
    + rewrite (slice_head B root next) by lia.
      rewrite (slice_head B leaf n) by lia.
      cbn [app]. apply perm_skip. symmetry. apply Permutation_middle.
    + rewrite (slice_head B root next) by lia.
      rewrite (slice_head B leaf n) by lia.
      cbn [app]. etrans; [|apply Permutation_swap].
      apply perm_skip. symmetry. apply Permutation_middle.
    + rewrite (slice_head B leaf n) by lia.
      rewrite (slice_head B (leaf + 1) n) by lia.
      replace (leaf + 1 + 1) with (leaf + 2) by lia.
      symmetry. etrans; [apply perm_skip, Permutation_middle|].
      apply Permutation_middle.
  - rewrite slice_last by lia. rewrite Hnew.
    rewrite (slice_ext B' B root' next)
      by (intros i Hi; apply Hframe; lia).
    rewrite (slice_ext B' B leaf' n)
      by (intros i Hi; apply Hframe; lia).
    rewrite <- app_assoc. cbn [app]. symmetry. apply Permutation_middle.
Qed.

(** ** No code is cheaper than the combined weights *)

Lemma cost_nonneg (ps : list (Z * Z)) :
  Forall (fun w => 0 <= w) (ps.*1) -> Forall (fun l => 0 <= l) (ps.*2) ->
  0 <= cost ps.
Proof.
  induction ps as [|[w l] ps IH]; intros Hw Hl; [reflexivity|].
  assert (Hw' : Forall (fun w => 0 <= w) (w :: ps.*1)) by exact Hw.
  assert (Hl' : Forall (fun l => 0 <= l) (l :: ps.*2)) by exact Hl.
  inversion Hw' as [|? ? Hw0 Hw1]; subst.
  inversion Hl' as [|? ? Hl0 Hl1]; subst.
  rewrite cost_cons. specialize (IH Hw1 Hl1). nia.
Qed.

Lemma code_ok_perm (D : Z) (ps ps' : list (Z * Z)) :
  ps ≡ₚ ps' -> code_ok D ps -> code_ok D ps'.
Proof.
  intros Hp [Hb Hk].
  assert (Hp2 : ps.*2 ≡ₚ ps'.*2) by (apply fmap_Permutation; exact Hp).
  split.
  - rewrite <- Hp2. exact Hb.
  - rewrite <- (scaled_kraft_perm D _ _ Hp2). exact Hk.
Qed.

Lemma weights_perm_inv (ps : list (Z * Z)) (ws : list Z) :
  ps.*1 ≡ₚ ws -> exists ps', ps ≡ₚ ps' /\ ps'.*1 = ws.
Proof.
  intros Hp. symmetry in Hp.
  destruct (Permutation_map_inv fst ps Hp) as (ps' & E & Hp').
  exists ps'. split; [exact Hp'|]. symmetry. exact E.
Qed.

Lemma items_nonneg (A : arr) (n next : Z) (s : p1) :
  ascending A n -> inv1 n next s -> weights_inv A n next s ->
  Forall (fun w => 0 <= w) (items n next s).
Proof.
  intros Hasc [Hlen Hroot Hsum Hlo Hhi _ _ _] [Hleaves _ Hnonneg _ _].
  unfold items. apply Forall_app. split; apply Forall_slice; intros i Hi.
  - apply Hnonneg. lia.
  - rewrite Hleaves by lia. apply (Hasc i i); lia.
Qed.

Lemma greedy_lower_bound (A : arr) (n : Z) (j : nat) :
  ascending A n ->
  forall (next : Z) (s : p1),
  1 <= next -> next + Z.of_nat j = n - 1 ->
  inv1 n next s -> weights_inv A n next s ->
  forall (D : Z) (ps : list (Z * Z)),
  ps.*1 ≡ₚ items n next s -> code_ok D ps ->
  total (merged_weights n j next s) <= cost ps.
Proof.
  intros Hasc. induction j as [|j IH];
    intros next s Hnext Hj Hinv Hw D ps Hps Hok.
  - cbn [merged_weights total foldr].
    apply cost_nonneg.
    + rewrite Hps. apply (items_nonneg A); assumption.
    + destruct Hok as [Hb _].
      eapply Forall_impl; [exact Hb|]. cbn. intros; lia.
  - destruct (pass1_step A n next s ltac:(lia) Hasc Hinv Hw)
      as (s' & x & y & E & Hinv' & Hw' & Hpair & Hnew & Hframe & Hxy
          & Hfr & Hfl).
    cbn [merged_weights]. rewrite E.
    destruct (items_step n next s s' x y ltac:(lia) Hinv Hpair Hnew Hframe)
      as [Hold Hnext'].
    set (rest := slice (p1_A s) (p1_root s') next
                 ++ slice (p1_A s) (p1_leaf s') n) in *.
    destruct (weights_perm_inv ps (x :: y :: rest))
      as (ps1 & Hp1 & Ew); [rewrite Hps; exact Hold|].
    destruct ps1 as [|[x' lx] [|[y' ly] qs]]; try discriminate.
    assert (Ew' : x' :: y' :: qs.*1 = x :: y :: rest) by exact Ew.
    injection Ew' as -> -> Eq.
    destruct (merge_two D x y lx ly qs Hxy) as (l & qs' & Eq' & Hok' & Hc).
    { rewrite Eq. unfold rest. apply Forall_app.
      split; apply Forall_slice; intros i Hi; [apply Hfr|apply Hfl]; lia. }
    { apply (code_ok_perm D ps); assumption. }
    pose proof (IH (next + 1) s' ltac:(lia) ltac:(lia) Hinv' Hw' D
                   ((x + y, l) :: qs')) as Hrec.
    rewrite (cost_perm ps _ Hp1).
    change (total (geti (p1_A s') next :: merged_weights n j (next + 1) s'))
      with (geti (p1_A s') next + total (merged_weights n j (next + 1) s')).
    rewrite Hnew.
    enough (total (merged_weights n j (next + 1) s')
            <= cost ((x + y, l) :: qs')) by lia.
    apply Hrec; [|exact Hok'].
    change (((x + y, l) :: qs').*1) with ((x + y) :: qs'.*1).
    rewrite Eq', Eq. symmetry. exact Hnext'.
Qed.

Lemma combined_lower_bound (A : list Z) :
  2 <= len A -> ascending A (len A) -> total A <= INT64_MAX ->
  forall (D : Z) (ps : list (Z * Z)),
  ps.*1 = A -> code_ok D ps ->
  total (combined_weights A) <= cost ps.
Proof.
  intros Hn Hasc Htot D ps Eps Hok.
  destruct (pass1_init_weights A Hn Hasc Htot) as (s0 & E0 & Hinv0 & Hw0 & H0).
  unfold combined_weights. rewrite E0.
  change (total (?a :: ?l)) with (a + total l). rewrite H0.
  pose proof E0 as E0'.
  unfold pass1_init in E0'. rewrite !rd_in in E0' by lia.
  rewrite !res_bind_Ok in E0'. rewrite wr_in in E0' by lia.
  rewrite res_bind_Ok in E0'. injection E0' as <-.
  destruct ps as [|[a0 l0] [|[a1 l1] qs]];
    try (subst A; unfold len in Hn; simpl in Hn; lia).
  assert (EA : A = a0 :: a1 :: qs.*1) by (symmetry; exact Eps).
  assert (Ha0 : geti A 0 = a0) by (rewrite EA; reflexivity).
  assert (Ha1 : geti A 1 = a1) by (rewrite EA; reflexivity).
  rewrite Ha0, Ha1 in *.
  assert (Hadd : add64 a0 a1 = a0 + a1).
  { cbn [p1_A] in H0. rewrite geti_seti_eq in H0 by lia. exact H0. }
  rewrite Hadd in *.
  assert (Hrest : slice A 2 (len A) = qs.*1).
  { rewrite EA.
    replace (len (a0 :: a1 :: qs.*1)) with (len (qs.*1) + 1 + 1)
      by (unfold len; simpl; lia).
    rewrite (slice_cons a0 _ 1 (len (qs.*1) + 1)) by lia.
    rewrite (slice_cons a1 _ 0 (len (qs.*1))) by lia.
    apply slice_all. }
  pose proof (Hasc 0 1 ltac:(lia) ltac:(lia) ltac:(lia)) as H01.
  rewrite Ha0, Ha1 in H01.
  destruct (merge_two D a0 a1 l0 l1 qs ltac:(lia))
    as (l & qs' & Eq' & Hok' & Hc); [|exact Hok|].
  { rewrite <- Hrest. apply Forall_slice. intros i Hi.
    pose proof (Hasc 1 i ltac:(lia) ltac:(lia) ltac:(lia)) as H.
    rewrite Ha1 in H. lia. }
  pose proof (greedy_lower_bound A (len A) (Z.to_nat (len A - 2)) Hasc 1 _
                ltac:(lia) ltac:(lia) Hinv0 Hw0 D ((a0 + a1, l) :: qs'))
    as Hrec.
  enough (total (merged_weights (len A) (Z.to_nat (len A - 2)) 1
                   (P1 (seti A 0 (a0 + a1)) 0 2))
          <= cost ((a0 + a1, l) :: qs')) by lia.
  apply Hrec; [|exact Hok'].
  change (((a0 + a1, l) :: qs').*1) with ((a0 + a1) :: qs'.*1).
  rewrite Eq'. unfold items; cbn [p1_A p1_root p1_leaf].
  rewrite (slice_head _ 0 1) by lia. rewrite slice_empty by lia.
  rewrite geti_seti_eq by lia.
  rewrite (slice_ext _ A 2 (len A))
    by (intros i Hi; apply geti_seti_ne; lia).
  rewrite Hrest. reflexivity.
Qed.

(** ** The third pass gives each leaf the depth of its parent, plus one *)

Section LeafDepths.

Variables (n : Z) (P D : arr).
Hypothesis Hn : 2 <= n.
Hypothesis HP : parents n P.
Hypothesis HD : depths n P D.

(** The number of nodes paired before an iteration grows by at most two
    from an iteration to the next. *)
Lemma paired_before_mono (k k' r r' : Z) :
  paired_before n P k r -> paired_before n P k' r' -> k <= k' ->
  r <= r' /\ r' - r <= 2 * (k' - k).
Proof.
  intros [Hr Hc] [Hr' Hc'] Hk. split.
  - destruct (Z_le_gt_dec r r') as [|Hgt]; [assumption|].
    pose proof (proj1 (Hc r' ltac:(lia)) ltac:(lia)).
    pose proof (proj2 (Hc' r' ltac:(lia)) ltac:(lia)). lia.
  - destruct (Z_le_gt_dec (r' - r) (2 * (k' - k))) as [|Hgt]; [assumption|].
    pose proof (parents_stride n P HP (Z.to_nat (k' - k)) r ltac:(lia)
                  ltac:(lia)) as Hs.
    rewrite Z2Nat.id in Hs by lia.
    assert (k <= geti P r).
    { destruct (Z_le_gt_dec k (geti P r)) as [|Hlt]; [assumption|].
      pose proof (proj2 (Hc r ltac:(lia)) ltac:(lia)). lia. }
    pose proof (proj1 (Hc' (r + 2 * (k' - k)) ltac:(lia)) ltac:(lia)).
    lia.
Qed.

(** One level of the third pass, with what it leaves unchanged. *)
Lemma pass3_level_frame (f : nat) (s : p3) :
  inv3 n P D s -> 0 < p3_avbl s ->
  5 * (p3_root s + 1) + p3_avbl s + 3 <= Z.of_nat f ->
  exists (u : Z) (A' : arr) (f1 f2 : nat),
    scan_level f s
    = Ok (P3 (p3_A s) (p3_root s - u) (p3_next s) (p3_avbl s) u (p3_dpth s),
          f1)
    /\ fill_level f1
         (P3 (p3_A s) (p3_root s - u) (p3_next s) (p3_avbl s) u (p3_dpth s))
       = Ok (P3 A' (p3_root s - u) (p3_root s + u) u u (p3_dpth s), f2)
    /\ 0 <= u <= p3_avbl s
    /\ u <= p3_root s + 1
    /\ (0 <= p3_root s -> 1 <= u)
    /\ (forall i, p3_root s + u < i <= p3_next s -> geti A' i = p3_dpth s)
    /\ (forall i, p3_next s < i -> geti A' i = geti (p3_A s) i)
    /\ inv3 n P D (P3 A' (p3_root s - u) (p3_root s + u) (2 * u) 0
                      (p3_dpth s + 1))
    /\ need3 (P3 A' (p3_root s - u) (p3_root s + u) (2 * u) 0
                 (p3_dpth s + 1)) <= Z.of_nat f2
    /\ (f2 <= f)%nat.
Proof.
  intros Hinv Havbl Hfuel.
  destruct (pass3_level_shape n P D Hn HP HD f s Hinv Havbl Hfuel)
    as (u & A' & f1 & f2 & E1 & E2 & Hu & Hur & Hu1 & Hnew & Hinv' & Hneed'
        & Hf2).
  exists u, A', f1, f2.
  split; [exact E1|]. split; [exact E2|]. split; [exact Hu|].
  split; [exact Hur|]. split; [exact Hu1|]. split; [exact Hnew|].
  split; [|split; [exact Hinv'|split; [exact Hneed'|exact Hf2]]].
  pose proof Hinv as [Hlen Hroot Hnext Hnhi _ _ _ _ _ _ _ _ _ _].
  destruct s as [A root next avbl used d]; simpl in *.
  assert (Hf1 : (Z.to_nat (avbl - u) < f1)%nat).
  { destruct (scan_level_spec f (P3 A root next avbl used d))
      as (u' & f1' & E1' & Hu' & Hf1' & _); simpl in *; [lia|lia|].
    rewrite E1 in E1'. injection E1' as Eu _ Ef. lia. }
  destruct (fill_level_spec (Z.to_nat (avbl - u)) f1
              (P3 A (root - u) next avbl u d))
    as (A'' & f2' & E2' & _ & _ & Hsame & _); simpl in *;
    [lia|exact Hf1|lia|lia|].
  rewrite E2 in E2'. injection E2' as -> _.
  intros i Hi. apply Hsame; lia.
Qed.

(** A level keeps the invariant on the leaves. *)
Lemma leaves3_level (s : p3) (u : Z) (A' : arr) :
  inv3 n P D s -> leaves3 n P D s -> 0 < p3_avbl s ->
  0 <= u <= p3_avbl s -> u <= p3_root s + 1 ->
  (0 <= p3_root s -> 1 <= u) ->
  (forall i, p3_root s + u < i <= p3_next s -> geti A' i = p3_dpth s) ->
  (forall i, p3_next s < i -> geti A' i = geti (p3_A s) i) ->
  inv3 n P D (P3 A' (p3_root s - u) (p3_root s + u) (2 * u) 0
                 (p3_dpth s + 1)) ->
  leaves3 n P D (P3 A' (p3_root s - u) (p3_root s + u) (2 * u) 0
                    (p3_dpth s + 1)).
Proof.
  intros Hinv [Hdone Hlevel] Havbl Hu Hur Hu1 Hnew Hframe Hinv'.
  pose proof Hinv as [_ Hroot Hnext _ _ Hdpth _ Hhere Habove _ Hwidth _ _ _].
  pose proof Hinv' as [_ _ _ _ _ _ _ Hhere' Habove' _ _ _ _ _].
  pose proof HP as [_ Pptr _ _]. pose proof HD as [_ _ Dchild].
  destruct s as [A b next avbl used d]; simpl in *.
  assert (Hcut : paired_before n P (b + 1) (b - u + 1)).
  { split; [lia|]. intros x Hx.
    pose proof (Pptr x Hx) as Hpx. pose proof (Dchild x Hx) as Hdx.
    split.
    - intros Hlt.
      pose proof (Hhere' ltac:(lia)) as Hd1.
      pose proof (depths_mono n P D Hn HP HD x (b - u) ltac:(lia)
                    ltac:(lia) ltac:(lia)).
      destruct (Z_lt_le_dec (geti P x) (b + 1)) as [|Hge]; [assumption|].
      pose proof (Habove (geti P x) ltac:(lia)). lia.
    - intros Hlt.
      destruct (Z_lt_le_dec x (b - u + 1)) as [|Hge]; [assumption|].
      pose proof (Hhere ltac:(lia)) as Hd0.
      pose proof (Habove' x ltac:(lia)).
      pose proof (depths_mono n P D Hn HP HD x b ltac:(lia) ltac:(lia)
                    ltac:(lia)).
      pose proof (depths_mono n P D Hn HP HD (geti P x) b ltac:(lia)
                    ltac:(lia) ltac:(lia)).
      lia. }
  constructor; simpl.
  - intros k r r' i Hk Hr Hr' Hi Hrange.
    destruct (Z_lt_le_dec next i) as [Hout|Hin].
    { rewrite Hframe by lia. apply (Hdone k r r'); assumption || lia. }
    rewrite Hnew by lia.
    destruct Hwidth as [(Hd0 & Ha1 & Hr2)|(Hd1 & c & Hc & Hac & _)].
    { specialize (Hu1 ltac:(lia)). lia. }
    destruct (Hlevel Hd1 Havbl c Hac) as [Hdc Hcutc].
    assert (k <= c) as Hkc.
    { destruct (Z_le_gt_dec k c) as [|Hgt]; [assumption|].
      pose proof (paired_before_mono (c + 1) k (b + 1) r Hcutc Hr
                    ltac:(lia)). lia. }
    assert (b < k) as Hbk.
    { destruct (Z_lt_le_dec b k) as [|Hle]; [assumption|].
      pose proof (paired_before_mono (k + 1) (b + 1) r' (b - u + 1) Hr' Hcut
                    ltac:(lia)). lia. }
    pose proof (Habove k ltac:(lia)).
    pose proof (depths_mono n P D Hn HP HD k c ltac:(lia) ltac:(lia)
                  ltac:(lia)).
    lia.
  - intros _ Hu2 c Hc. assert (c = b) by lia. subst c.
    split; [|exact Hcut].
    specialize (Hhere ltac:(lia)). lia.
Qed.

Lemma leaves3_start : leaves3 n P D (P3 D (n - 2) (n - 1) 1 0 0).
Proof. constructor; simpl; intros; lia. Qed.

Lemma pass3_loop_leaves (gas : nat) :
  forall (fuel : nat) (s s' : p3) (f' : nat),
  inv3 n P D s -> (fuel <= gas)%nat -> need3 s <= Z.of_nat fuel ->
  leaves3 n P D s ->
  pass3_loop gas fuel s = Ok (s', f') ->
  leaves3 n P D s'.
Proof.
  induction gas as [|gas IH]; intros fuel s s' f' Hinv Hgas Hneed Hl E.
  - destruct fuel; simpl in E; discriminate.
  - destruct fuel as [|f]; [simpl in E; discriminate|]. simpl in E.
    destruct (Z.gtb_spec (p3_avbl s) 0) as [Havbl|?].
    + assert (5 * (p3_root s + 1) + p3_avbl s + 3 <= Z.of_nat f) as Hf.
      { unfold need3 in Hneed.
        destruct (Z.eqb_spec (p3_avbl s) 0); lia. }
      destruct (pass3_level_frame f s Hinv Havbl Hf)
        as (u & A' & f1 & f2 & E1 & E2 & Hu & Hur & Hu1 & Hnew & Hframe
            & Hinv' & Hneed' & Hf2).
      rewrite E1 in E; simpl in E. rewrite E2 in E; simpl in E.
      apply (IH f2 _ s' f' Hinv'); [lia|exact Hneed'| |exact E].
      apply leaves3_level; assumption.
    + injection E as <- _. exact Hl.
Qed.

End LeafDepths.

Lemma cmr_leaves (A : arr) (fuel : nat) :
  2 <= len A -> 5 * len A <= Z.of_nat fuel ->
  exists (s1 : p1) (D L : arr),
    pass1 (len A) A = Ok s1
    /\ parents (len A) (p1_A s1)
    /\ depths (len A) (p1_A s1) D
    /\ calculate_minimum_redundancy fuel A (len A) = Ok L
    /\ len L = len A
    /\ forall k r r' i,
         0 <= k <= len A - 2 ->
         paired_before (len A) (p1_A s1) k r ->
         paired_before (len A) (p1_A s1) (k + 1) r' ->
         0 <= i <= len A - 1 -> 2 * k - r <= i < 2 * (k + 1) - r' ->
         geti L i = geti D k + 1.
Proof.
  intros Hn Hfuel.
  unfold calculate_minimum_redundancy, calculate_minimum_redundancy_steps.
  destruct (Z.eqb_spec (len A) 0) as [?|_]; [lia|].
  destruct (Z.eqb_spec (len A) 1) as [?|_]; [lia|].
  destruct (pass1_parents A Hn) as (s1 & E1 & HP). rewrite E1; simpl.
  destruct (pass2_depths (len A) (p1_A s1) Hn HP) as (D & E2 & HD).
  rewrite E2; simpl. unfold pass3.
  set (n := len A) in *. set (P := p1_A s1) in *.
  pose proof (inv3_start n P D Hn HD) as Hstart.
  destruct (pass3_loop_spec n P D Hn HP HD fuel fuel
              (P3 D (n - 2) (n - 1) 1 0 0) Hstart ltac:(lia)
              ltac:(unfold need3; simpl; lia))
    as (s & f & E & Hinv & Hav & _).
  pose proof (pass3_loop_leaves n P D Hn HP HD fuel fuel
                (P3 D (n - 2) (n - 1) 1 0 0) s f Hstart ltac:(lia)
                ltac:(unfold need3; simpl; lia) (leaves3_start n P D) E)
    as [Hdone _].
  rewrite E; simpl. exists s1, D, (p3_A s).
  destruct Hinv as [Hlen Hroot Hnext _ _ _ _ _ _ Hfin _ _ _ _].
  specialize (Hfin Hav).
  split; [reflexivity|]. split; [assumption|]. split; [assumption|].
  split; [reflexivity|]. split; [assumption|].
  intros k r r' i Hk Hr Hr' Hi Hrange.
  apply (Hdone k r r'); assumption || lia.
Qed.

(** ** The parent pointers and the cursor [root] *)

Ltac finish_pointer :=
  eexists; split; [reflexivity|];
  simpl; intros c0 Hc0; split_geti; lia.

(** The slots that an iteration takes from the queue of internal nodes
    receive the pointer [next]. *)
Lemma pass1_body_pointer (n next : Z) (s : p1) :
  1 <= next <= n - 2 -> inv1 n next s ->
  exists s',
    pass1_body n next s = Ok s'
    /\ forall c, p1_root s <= c < p1_root s' -> geti (p1_A s') c = next.
Proof.
  intros Hnext [Hlen Hroot Hsum Hlo Hhi _ _ _].
  destruct s as [A root leaf]; simpl in *.
  unfold pass1_body, select_first, select_second, take_first, take_second;
    simpl.
  destruct (Z.geb_spec leaf n) as [Hl|Hl]; simpl.
  - repeat run_step.
    destruct (Z.geb_spec leaf n) as [_|?]; [simpl|lia].
    repeat run_step. finish_pointer.
  - repeat run_step.
    destruct (Z.ltb_spec (geti A root) (geti A leaf)) as [Hc|Hc]; simpl.
    + repeat run_step.
      destruct (Z.geb_spec leaf n) as [?|_]; [lia|simpl].
      destruct (Z.ltb_spec (root + 1) next) as [Hr|Hr]; simpl.
      * repeat run_step.
        match goal with
        | |- context [if ?a <? ?b then _ else _] =>
            destruct (Z.ltb_spec a b) as [Hc2|Hc2]
        end; simpl; repeat run_step; finish_pointer.
      * repeat run_step. finish_pointer.
    + repeat run_step.
      destruct (Z.geb_spec (leaf + 1) n) as [Hl1|Hl1]; simpl.
      * repeat run_step. finish_pointer.
      * destruct (Z.ltb_spec root next) as [Hr|Hr]; [simpl|lia].
        repeat run_step.
        match goal with
        | |- context [if ?a <? ?b then _ else _] =>
            destruct (Z.ltb_spec a b) as [Hc2|Hc2]
        end; simpl; repeat run_step; finish_pointer.
Qed.

(** The pointers below [root] are final, and the later ones point to
    [next] or to its right. *)
Lemma pass1_iter_pointers (n : Z) (j : nat) :
  forall (next : Z) (s sF : p1),
  1 <= next -> next + Z.of_nat j = n - 1 -> inv1 n next s ->
  pass1_iter n j next s = Ok sF ->
  (forall x, 0 <= x < p1_root s -> geti (p1_A sF) x = geti (p1_A s) x)
  /\ (forall x, p1_root s <= x <= n - 3 -> next <= geti (p1_A sF) x).
Proof.
  induction j as [|j IH]; intros next s sF Hnext Hj Hinv E.
  - simpl in E. injection E as <-.
    destruct (inv1_final n s) as (Hr & _).
    { replace (n - 1) with next by lia. exact Hinv. }
    split; [reflexivity|]. intros x Hx. lia.
  - destruct (pass1_body_shape n next s ltac:(lia) Hinv)
      as (s' & x0 & y0 & E' & Hpair & _ & Hframe & _).
    destruct (pass1_body_pointer n next s ltac:(lia) Hinv)
      as (s'' & E'' & Hptr).
    rewrite E' in E''. injection E'' as <-.
    destruct (pass1_body_inv n next s ltac:(lia) Hinv) as (s'' & E'' & Hinv').
    rewrite E' in E''. injection E'' as <-.
    change (pass1_iter n (S j) next s)
      with (s1 ← pass1_body n next s; pass1_iter n j (next + 1) s1) in E.
    rewrite E', res_bind_Ok in E.
    destruct (IH (next + 1) s' sF ltac:(lia) ltac:(lia) Hinv' E)
      as [Hlow Hhigh].
    pose proof Hinv as [_ Hroot Hsum Hlo _ _ _ _].
    assert (p1_root s <= p1_root s') as Hrr.
    { unfold pairing in Hpair.
      destruct Hpair as [(_ & _ & _ & -> & _)
                        |[(_ & _ & _ & -> & _)
                        |[(_ & _ & _ & -> & _)
                         |(_ & _ & _ & -> & _)]]]; lia. }
    split.
    + intros x Hx. rewrite Hlow by lia. apply Hframe; lia.
    + intros x Hx. destruct (Z_lt_le_dec x (p1_root s')) as [Hlt|Hge].
      * rewrite Hlow by lia. rewrite Hptr by lia. lia.
      * pose proof (Hhigh x ltac:(lia)). lia.
Qed.

Lemma pass1_iter_paired (n : Z) (j : nat) (next : Z) (s sF : p1) :
  1 <= next -> next + Z.of_nat j = n - 1 -> inv1 n next s ->
  pass1_iter n j next s = Ok sF ->
  paired_before n (p1_A sF) next (p1_root s).
Proof.
  intros Hnext Hj Hinv E.
  destruct (pass1_iter_pointers n j next s sF Hnext Hj Hinv E)
    as [Hlow Hhigh].
  destruct Hinv as [_ Hroot Hsum Hlo _ Hptr _ _].
  split; [lia|]. intros x Hx. split.
  - intros Hlt. rewrite Hlow by lia. apply Hptr. lia.
  - intros Hlt. destruct (Z_lt_le_dec x (p1_root s)) as [|Hge]; [assumption|].
    pose proof (Hhigh x ltac:(lia)). lia.
Qed.

(** ** The cost of the code is the sum of the combined weights *)

Lemma geti_zip_mul (W D : arr) (i : Z) :
  geti (zip_with Z.mul W D) i = geti W i * geti D i.
Proof.
  unfold geti. rewrite lookup_zip_with.
  destruct (W !! Z.to_nat i), (D !! Z.to_nat i); simpl; lia.
Qed.

Section CostIdentity.

Variables (A : arr) (n : Z) (sF : p1) (D L : arr).
Hypothesis Hasc : ascending A n.
Hypothesis HD : depths n (p1_A sF) D.
Hypothesis HL : forall k r r' i,
  0 <= k <= n - 2 ->
  paired_before n (p1_A sF) k r -> paired_before n (p1_A sF) (k + 1) r' ->
  0 <= i <= n - 1 -> 2 * k - r <= i < 2 * (k + 1) - r' ->
  geti L i = geti D k + 1.

(** The cost of the items that remain, each at its depth in the tree, is
    the sum of the weights still to be stored. *)
Lemma cost_from (j : nat) :
  forall (next : Z) (s : p1),
  1 <= next -> next + Z.of_nat j = n - 1 ->
  inv1 n next s -> weights_inv A n next s ->
  pass1_iter n j next s = Ok sF ->
  sumrange (zip_with Z.mul (p1_A s) D) (p1_root s) next
  + sumrange (zip_with Z.mul (p1_A s) L) (p1_leaf s) n
  = total (merged_weights n j next s).
Proof.
  induction j as [|j IH]; intros next s Hnext Hj Hinv Hw E.
  - destruct (inv1_final n s) as (Hr & Hl & _).
    { replace (n - 1) with next by lia. exact Hinv. }
    rewrite Hr, Hl. replace next with (n - 2 + 1) by lia.
    rewrite sumrange_head by lia. rewrite !sumrange_empty by lia.
    rewrite geti_zip_mul. rewrite (dp_root _ _ _ HD).
    cbn [merged_weights total foldr]. lia.
  - destruct (pass1_step A n next s ltac:(lia) Hasc Hinv Hw)
      as (s' & x & y & E' & Hinv' & Hw' & Hpair & Hnew & Hframe & Hxy & _).
    destruct (pass1_body_pointer n next s ltac:(lia) Hinv)
      as (s'' & E'' & Hptr).
    rewrite E' in E''. injection E'' as <-.
    pose proof (pass1_iter_paired n (S j) next s sF Hnext Hj Hinv E) as Hcut.
    change (pass1_iter n (S j) next s)
      with (s1 ← pass1_body n next s; pass1_iter n j (next + 1) s1) in E.
    rewrite E', res_bind_Ok in E.
    pose proof (pass1_iter_paired n j (next + 1) s' sF ltac:(lia) ltac:(lia)
                  Hinv' E) as Hcut'.
    destruct (pass1_iter_pointers n j (next + 1) s' sF ltac:(lia) ltac:(lia)
                Hinv' E) as [Hlow _].
    specialize (IH (next + 1) s' ltac:(lia) ltac:(lia) Hinv' Hw' E).
    cbn [merged_weights]. rewrite E'.
    change (total (?a :: ?l)) with (a + total l). rewrite Hnew.
    rewrite <- IH. clear IH.
    pose proof Hinv as [Hlen Hroot Hsum Hlo Hhi _ _ _].
    pose proof Hinv' as [Hlen' Hroot' Hsum' Hlo' Hhi' _ _ _].
    (* the depth of a node or leaf paired by this iteration *)
    assert (Hnode : forall c, p1_root s <= c < p1_root s' ->
                              geti D c = geti D next + 1).
    { intros c Hc.
      rewrite (dp_child _ _ _ HD c) by lia.
      rewrite Hlow by lia. rewrite Hptr by lia. reflexivity. }
    assert (Hleaf : forall i, p1_leaf s <= i < p1_leaf s' ->
                              geti L i = geti D next + 1).
    { intros i Hi. apply (HL next (p1_root s) (p1_root s')); try assumption;
        lia. }
    destruct s as [B root leaf], s' as [B' root' leaf']; simpl in *.
    assert (root <= root' <= next /\ leaf <= leaf') as [Hr Hl].
    { unfold pairing in Hpair; simpl in Hpair.
      destruct Hpair as [(_ & _ & ? & -> & -> & _)
                        |[(_ & _ & ? & -> & -> & _)
                        |[(_ & _ & ? & -> & -> & _)
                         |(_ & _ & ? & -> & -> & _)]]]; lia. }
    rewrite (sumrange_last _ root' next) by lia.
    rewrite (sumrange_ext (zip_with Z.mul B' D) (zip_with Z.mul B D)
               root' next)
      by (intros i Hi; rewrite !geti_zip_mul, Hframe by lia; reflexivity).
    rewrite (sumrange_ext (zip_with Z.mul B' L) (zip_with Z.mul B L)
               leaf' n)
      by (intros i Hi; rewrite !geti_zip_mul, Hframe by lia; reflexivity).
    rewrite (geti_zip_mul B' D next), Hnew.
    unfold pairing in Hpair; simpl in Hpair.
    destruct Hpair as [(-> & -> & Hr1 & -> & -> & _)
                      |[(-> & -> & Hl1 & -> & -> & _)
                      |[(-> & -> & Hl1 & -> & -> & _)
                       |(-> & -> & Hl1 & -> & -> & _)]]].
    + rewrite (sumrange_head _ root next) by lia.
      rewrite (sumrange_head _ (root + 1) next) by lia.
      replace (root + 1 + 1) with (root + 2) by lia.
      rewrite !geti_zip_mul.
      rewrite (Hnode root), (Hnode (root + 1)) by lia. lia.
    + rewrite (sumrange_head _ root next) by lia.
      rewrite (sumrange_head _ leaf n) by lia.
      rewrite !geti_zip_mul.
      rewrite (Hnode root), (Hleaf leaf) by lia. lia.
    + rewrite (sumrange_head _ root next) by lia.
      rewrite (sumrange_head _ leaf n) by lia.
      rewrite !geti_zip_mul.
      rewrite (Hnode root), (Hleaf leaf) by lia. lia.
    + rewrite (sumrange_head _ leaf n) by lia.
      rewrite (sumrange_head _ (leaf + 1) n) by lia.
      replace (leaf + 1 + 1) with (leaf + 2) by lia.
      rewrite !geti_zip_mul.
      rewrite (Hleaf leaf), (Hleaf (leaf + 1)) by lia. lia.
Qed.

End CostIdentity.

(** ** The combined weights, one by one *)

Lemma merged_weights_lookup (n : Z) (j : nat) :
  forall (next : Z) (s : p1) (i : nat) (w : Z),
  merged_weights n j next s !! i = Some w ->
  exists sF,
    pass1_iter n (S i) next s = Ok sF
    /\ w = geti (p1_A sF) (next + Z.of_nat i).
Proof.
  induction j as [|j IH]; intros next s i w Hw; [discriminate|].
  cbn [merged_weights] in Hw.
  change (pass1_iter n (S i) next s)
    with (s1 ← pass1_body n next s; pass1_iter n i (next + 1) s1).
  destruct (pass1_body n next s) as [s'| |]; try discriminate.
  rewrite res_bind_Ok.
  destruct i as [|i].
  - injection Hw as <-. exists s'. split; [reflexivity|].
    change (Z.of_nat 0) with 0. rewrite Z.add_0_r. reflexivity.
  - change (merged_weights n j (next + 1) s' !! i = Some w) in Hw.
    destruct (IH (next + 1) s' i w Hw) as (sF & E & ->).
    exists sF. split; [exact E|]. f_equal. lia.
Qed.

Lemma merged_weights_length (n : Z) (j : nat) :
  forall (next : Z) (s : p1),
  1 <= next -> next + Z.of_nat j <= n - 1 -> inv1 n next s ->
  length (merged_weights n j next s) = j.
Proof.
  induction j as [|j IH]; intros next s Hnext Hj Hinv; [reflexivity|].
  destruct (pass1_body_inv n next s ltac:(lia) Hinv) as (s' & E & Hinv').
  cbn [merged_weights]. rewrite E. cbn [length]. f_equal.
  apply IH; [lia|lia|exact Hinv'].
Qed.

Lemma combined_weights_spec (A : arr) :
  2 <= len A ->
  Z.of_nat (length (combined_weights A)) = len A - 1
  /\ forall k w, combined_weights A !! k = Some w -> weight_at A k = Ok w.
Proof.
  intros Hn. destruct (pass1_init_inv A Hn) as (s0 & E0 & Hinv0).
  unfold combined_weights, weight_at. rewrite E0. split.
  - cbn [length]. rewrite (merged_weights_length (len A)); [lia|lia|lia|].
    exact Hinv0.
  - intros k w Hk. rewrite res_bind_Ok.
    assert (Hlt : (k < S (Z.to_nat (len A - 2)))%nat).
    { apply lookup_lt_Some in Hk. cbn [length] in Hk.
      rewrite (merged_weights_length (len A)) in Hk; [lia|lia|lia|].
      exact Hinv0. }
    destruct k as [|k].
    + injection Hk as <-. cbn [pass1_iter]. rewrite res_bind_Ok.
      apply rd_in. destruct Hinv0 as [Hlen _ _ _ _ _ _ _]. lia.
    + change (merged_weights (len A) (Z.to_nat (len A - 2)) 1 s0 !! k
              = Some w) in Hk.
      destruct (merged_weights_lookup _ _ _ _ _ _ Hk) as (sF & E & ->).
      rewrite E, res_bind_Ok.
      destruct (pass1_iter_inv (len A) (S k) 1 s0 ltac:(lia) ltac:(lia)
                  Hinv0)
        as (sF' & E' & [Hlen _ _ _ _ _ _ _]).
      rewrite E in E'. injection E' as <-.
      replace (Z.of_nat (S k)) with (1 + Z.of_nat k) by lia.
      apply rd_in. lia.
Qed.

(** ** The cost of the code that the calculator returns *)

Lemma cmr_cost (A : list Z) (fuel : nat) :
  2 <= len A -> ascending A (len A) -> total A <= INT64_MAX ->
  5 * len A <= Z.of_nat fuel ->
  exists L,
    calculate_minimum_redundancy fuel A (len A) = Ok L
    /\ dot L A = total (combined_weights A).
Proof.
  intros Hn Hasc Htot Hfuel.
  destruct (cmr_leaves A fuel Hn Hfuel)
    as (s1 & D & L & E1 & HP & HD & E & Hlen & HL).
  exists L. split; [exact E|].
  destruct (pass1_init_weights A Hn Hasc Htot) as (s0 & E0 & Hinv0 & Hw0 & H0).
  unfold pass1 in E1. rewrite E0, res_bind_Ok in E1.
  pose proof (cost_from A (len A) s1 D L Hasc HD HL (Z.to_nat (len A - 2)) 1
                s0 ltac:(lia) ltac:(lia) Hinv0 Hw0 E1) as Hc.
  unfold combined_weights. rewrite E0.
  change (total (?a :: ?l)) with (a + total l). rewrite <- Hc, H0.
  pose proof E0 as E0'.
  unfold pass1_init in E0'. rewrite !rd_in in E0' by lia.
  rewrite !res_bind_Ok in E0'. rewrite wr_in in E0' by lia.
  rewrite res_bind_Ok in E0'. injection E0' as <-.
  cbn [p1_A p1_root p1_leaf] in *.
  set (B0 := seti A 0 (add64 (geti A 0) (geti A 1))) in *.
  assert (HB : forall i, 1 <= i -> geti B0 i = geti A i).
  { intros i Hi. apply geti_seti_ne; lia. }
  pose proof HP as [_ Pptr _ _].
  assert (H00 : paired_before (len A) (p1_A s1) 0 0).
  { split; [lia|]. intros x Hx. pose proof (Pptr x Hx). lia. }
  assert (H10 : paired_before (len A) (p1_A s1) (0 + 1) 0).
  { split; [lia|]. intros x Hx. pose proof (Pptr x Hx). lia. }
  pose proof (HL 0 0 0 0 ltac:(lia) H00 H10 ltac:(lia) ltac:(lia)) as HL0.
  pose proof (HL 0 0 0 1 ltac:(lia) H00 H10 ltac:(lia) ltac:(lia)) as HL1.
  assert (HS : sumrange (zip_with Z.mul B0 D) 0 1 = geti B0 0 * geti D 0).
  { rewrite sumrange_head by lia. rewrite sumrange_empty by lia.
    rewrite geti_zip_mul. lia. }
  assert (HT : dot L A
               = geti L 0 * geti A 0 + geti L 1 * geti A 1
                 + sumrange (zip_with Z.mul B0 L) 2 (len A)).
  { unfold dot. change (foldr Z.add 0 (zip_with Z.mul L A))
      with (total (zip_with Z.mul L A)).
    rewrite <- sumrange_total.
    replace (len (zip_with Z.mul L A)) with (len A)
      by (unfold len in *; rewrite length_zip_with; lia).
    rewrite (sumrange_head _ 0 (len A)) by lia.
    rewrite (sumrange_head _ (0 + 1) (len A)) by lia.
    change (0 + 1 + 1) with 2. change (0 + 1) with 1.
    rewrite !geti_zip_mul.
    rewrite (sumrange_ext (zip_with Z.mul L A) (zip_with Z.mul B0 L) 2
               (len A)); [lia|].
    intros i Hi. rewrite !geti_zip_mul. rewrite HB by lia. lia. }
  rewrite HT, HS, HL0, HL1, H0. lia.
Qed.

(** ** Kraft's inequality, scaled *)

Lemma kraft_scaled (D : Z) (ls : list Z) :
  Forall (fun l => 0 <= l <= D) ls ->
  Qeq (kraft ls * inject_Z (2 ^ D)) (inject_Z (scaled_kraft D ls)).
Proof.
  induction 1 as [|l ls Hl _ IH].
  - cbn [kraft scaled_kraft foldr]. change (inject_Z 0) with 0%Q. ring.
  - rewrite kraft_cons, scaled_kraft_cons, inject_Z_plus, <- IH.
    rewrite (Zpower_Qpower 2 (D - l)) by lia.
    rewrite (Zpower_Qpower 2 D) by lia.
    unfold kraft_term. change (inject_Z 2) with 2%Q.
    replace (D - l) with (- l + D) by lia.
    rewrite (Qpower_plus 2 (- l) D) by discriminate. ring.
Qed.

Lemma max_bound (M : list Z) : Forall (fun l => l <= foldr Z.max 0 M) M.
Proof.
  induction M as [|m M IH]; [constructor|].
  cbn [foldr]. constructor; [lia|].
  eapply Forall_impl; [exact IH|]. cbn. intros; lia.
Qed.

Lemma kraft_code_ok (A M : list Z) :
  length M = length A -> Forall (Z.le 0) M -> Qle (kraft M) 1 ->
  code_ok (foldr Z.max 0 M) (zip A M).
Proof.
  intros Hlen Hpos Hk. set (D := foldr Z.max 0 M).
  assert (HD : 0 <= D).
  { subst D. clear. induction M as [|m M IH]; cbn [foldr]; lia. }
  assert (Hb : Forall (fun l => 0 <= l <= D) M).
  { apply Forall_forall. intros l Hl.
    pose proof (proj1 (Forall_forall _ _) Hpos l Hl).
    pose proof (proj1 (Forall_forall _ _) (max_bound M) l Hl) as H2.
    cbn in H2. fold D in H2. lia. }
  unfold code_ok. rewrite snd_zip by lia. split; [exact Hb|].
  rewrite Zle_Qle. rewrite <- (kraft_scaled D M Hb).
  rewrite <- (Qmult_1_l (inject_Z (2 ^ D))) at 2.
  apply Qmult_le_compat_r; [exact Hk|].
  change 0%Q with (inject_Z 0). rewrite <- Zle_Qle.
  apply Z.pow_nonneg. lia.
Qed.

Lemma cost_zip (A : list Z) : forall M : list Z,
  cost (zip A M) = dot M A.
Proof.
  induction A as [|a A IH]; intros [|m M]; try reflexivity.
  change (a * m + cost (zip A M) = m * a + dot M A).
  rewrite IH. lia.
Qed.

(** ** The weighted length of the code *)

(** X22. On a non-decreasing sequence of two or more non-negative
    frequencies whose total fits a [long long], the weighted length of
    the code, the sum of [A[i]] times the length of symbol [i], is the
    sum of the [n-1] combined weights that the first pass stores. *)
Theorem cost_is_sum_of_weights (A : list Z) (fuel : nat) :
  Forall (Z.le 0) A -> Sorted Z.le A -> 2 <= len A ->
  total A <= INT64_MAX -> 5 * len A <= Z.of_nat fuel ->
  exists L ws,
    calculate_minimum_redundancy fuel A (len A) = Ok L
    /\ Z.of_nat (length ws) = len A - 1
    /\ (forall k w, ws !! k = Some w -> weight_at A k = Ok w)
    /\ dot L A = total ws.
Proof.
  intros Hpos Hsort Hn Htot Hfuel.
  pose proof (valid_ascending A Hpos Hsort) as Hasc.
  destruct (cmr_cost A fuel Hn Hasc Htot Hfuel) as (L & E & Hc).
  destruct (combined_weights_spec A Hn) as [Hlen Hws].
  exists L, (combined_weights A).
  split; [exact E|]. split; [exact Hlen|]. split; [exact Hws|exact Hc].
Qed.

Lemma cost_is_sum_of_weights_witness :
  exists L ws,
    calculate_minimum_redundancy 20 [1; 1; 2; 3] (len [1; 1; 2; 3]) = Ok L
    /\ Z.of_nat (length ws) = len [1; 1; 2; 3] - 1
    /\ (forall k w, ws !! k = Some w -> weight_at [1; 1; 2; 3] k = Ok w)
    /\ dot L [1; 1; 2; 3] = total ws.
Proof.
  apply (cost_is_sum_of_weights [1; 1; 2; 3] 20).
  - repeat constructor; lia.
  - repeat constructor; lia.
  - vm_compute. discriminate.
  - vm_compute. discriminate.
  - vm_compute. discriminate.
Defined.

(** ** The code is optimal *)

Lemma cmr_optimal (A : list Z) (fuel : nat) (D : Z) (M : list Z) :
  Forall (Z.le 0) A -> Sorted Z.le A -> total A <= INT64_MAX ->
  5 * len A <= Z.of_nat fuel ->
  length M = length A -> code_ok D (zip A M) ->
  exists L,
    calculate_minimum_redundancy fuel A (len A) = Ok L
    /\ dot L A <= dot M A.
Proof.
  intros Hpos Hsort Htot Hfuel Hlen Hok.
  destruct A as [|a [|b A']].
  - exists []. split; [reflexivity|].
    destruct M; [reflexivity|discriminate].
  - exists [0]. split; [reflexivity|].
    destruct M as [|m [|? ?]]; try discriminate.
    inversion Hpos; subst. destruct Hok as [Hb _].
    inversion Hb; subst. cbn in *.
    unfold dot; simpl. nia.
  - set (A := a :: b :: A') in *.
    assert (Hn : 2 <= len A) by (unfold len; simpl; lia).
    pose proof (valid_ascending A Hpos Hsort) as Hasc.
    destruct (cmr_cost A fuel Hn Hasc Htot Hfuel) as (L & E & Hc).
    exists L. split; [exact E|].
    rewrite Hc, <- cost_zip.
    apply (combined_lower_bound A Hn Hasc Htot D); [|exact Hok].
    apply fst_zip. lia.
Qed.

(** X23. The code is a minimum-redundancy code.  On a non-decreasing
    sequence of non-negative frequencies whose total fits a [long long],
    no assignment [M] of non-negative lengths that satisfies Kraft's
    inequality has a smaller weighted length than the lengths [L] that
    the calculator returns. *)
Theorem lengths_optimal (A : list Z) (fuel : nat) (M : list Z) :
  Forall (Z.le 0) A -> Sorted Z.le A -> total A <= INT64_MAX ->
  5 * len A <= Z.of_nat fuel ->
  length M = length A -> Forall (Z.le 0) M -> Qle (kraft M) 1 ->
  exists L,
    calculate_minimum_redundancy fuel A (len A) = Ok L
    /\ dot L A <= dot M A.
Proof.
  intros Hpos Hsort Htot Hfuel Hlen HM Hk.
  apply (cmr_optimal A fuel (foldr Z.max 0 M) M); try assumption.
  apply kraft_code_ok; assumption.
Qed.

Lemma lengths_optimal_witness :
  exists L,
    calculate_minimum_redundancy 20 [1; 1; 2; 3] (len [1; 1; 2; 3]) = Ok L
    /\ dot L [1; 1; 2; 3] <= dot [2; 2; 2; 2] [1; 1; 2; 3].
Proof.
  apply (lengths_optimal [1; 1; 2; 3] 20 [2; 2; 2; 2]).
  - repeat constructor; lia.
  - repeat constructor; lia.
  - vm_compute. discriminate.
  - vm_compute. discriminate.
  - reflexivity.
  - repeat constructor; lia.
  - vm_compute. discriminate.
Defined.

Lemma scaled_kraft_replicate (d : Z) (k : nat) :
  scaled_kraft d (replicate k d) = Z.of_nat k.
Proof.
  induction k as [|k IH]; [reflexivity|].
  cbn [replicate]. rewrite scaled_kraft_cons, IH, Z.sub_diag.
  change (2 ^ 0) with 1. lia.
Qed.

Lemma dot_replicate (d : Z) (A : list Z) :
  dot (replicate (length A) d) A = d * total A.
Proof.
  induction A as [|a A IH]; [unfold dot; simpl; lia|].
  change (d * a + dot (replicate (length A) d) A = d * (a + total A)).
  rewrite IH. lia.
Qed.

(** X24. The code is never longer than a fixed-length code: when [d]
    bits suffice to number the [n] symbols, the weighted length is at
    most [d] times the total of the frequencies. *)
Theorem no_worse_than_fixed_length (A : list Z) (fuel : nat) (d : Z) :
  Forall (Z.le 0) A -> Sorted Z.le A -> total A <= INT64_MAX ->
  5 * len A <= Z.of_nat fuel ->
  0 <= d -> len A <= 2 ^ d ->
  exists L,
    calculate_minimum_redundancy fuel A (len A) = Ok L
    /\ dot L A <= d * total A.
Proof.
  intros Hpos Hsort Htot Hfuel Hd Hfit.
  rewrite <- dot_replicate.
  apply (cmr_optimal A fuel d); try assumption.
  - apply length_replicate.
  - unfold code_ok. rewrite snd_zip by (rewrite length_replicate; lia).
    split.
    + apply Forall_replicate. lia.
    + rewrite scaled_kraft_replicate. exact Hfit.
Qed.

Lemma no_worse_than_fixed_length_witness :
  exists L,
    calculate_minimum_redundancy 20 [1; 1; 2; 3] (len [1; 1; 2; 3]) = Ok L
    /\ dot L [1; 1; 2; 3] <= 2 * total [1; 1; 2; 3].
Proof.
  apply (no_worse_than_fixed_length [1; 1; 2; 3] 20 2).
  - repeat constructor; lia.
  - repeat constructor; lia.
  - vm_compute. discriminate.
  - vm_compute. discriminate.
  - lia.
  - vm_compute. discriminate.
Defined.

(** * The program of [webbase.c] *)

(** ** Reading a line *)

Lemma gets_spec (input input' : list (list Z)) (s s' : Webbase.st)
    (ok : bool) :
  Webbase.gets input s = Ok (ok, s', input') ->
  (ok = false /\ input = [] /\ input' = [] /\ s' = s)
  \/ (exists l, ok = true /\ input = l :: input'
                /\ s' = Webbase.with_b l s /\ len l < Webbase.BUFSIZE).
Proof.
  unfold Webbase.gets. destruct input as [|l rest].
  - intros [= <- <- <-]. left. repeat split.
  - destruct (Z.ltb_spec (len l) Webbase.BUFSIZE) as [Hl|Hl];
      [|discriminate].
    intros [= <- <- <-]. right. exists l. repeat split. exact Hl.
Qed.

Lemma gets_short (input : list (list Z)) (s : Webbase.st) :
  Forall (fun l => len l < Webbase.BUFSIZE) input ->
  exists ok s' input',
    Webbase.gets input s = Ok (ok, s', input')
    /\ Forall (fun l => len l < Webbase.BUFSIZE) input'
    /\ (length input' <= length input)%nat.
Proof.
  intros H. unfold Webbase.gets. destruct input as [|l rest].
  - exists false, s, []. repeat split; [constructor|lia].
  - inversion H as [|? ? Hl Hrest]; subst.
    destruct (Z.ltb_spec (len l) Webbase.BUFSIZE) as [_|?]; [|lia].
    exists true, (Webbase.with_b l s), rest.
    repeat split; [assumption|simpl; lia].
Qed.

(** ** The characters of a line *)

Lemma check_url_frame (cs : list Z) : forall s : Webbase.st,
  Webbase.b (Webbase.check_url cs s) = Webbase.b s
  /\ Webbase.u (Webbase.check_url cs s) = Webbase.u s
  /\ Webbase.p (Webbase.check_url cs s) = Webbase.p s
  /\ Webbase.seen (Webbase.check_url cs s) = Webbase.seen s
  /\ Webbase.output (Webbase.check_url cs s) = Webbase.output s
  /\ Webbase.stdout (Webbase.check_url cs s) = Webbase.stdout s.
Proof.
  induction cs as [|c cs IH]; intros s; [repeat split|].
  cbn [Webbase.check_url].
  destruct (IH (if c <=? 32
                then Webbase.with_skip true
                       (Webbase.warn
                          (Webbase.ControlChar c (Webbase.u s) (Webbase.p s))
                          s)
                else s)) as (-> & -> & -> & -> & -> & ->).
  destruct (c <=? 32); repeat split.
Qed.

Lemma check_url_skip (cs : list Z) : forall s : Webbase.st,
  Webbase.skip (Webbase.check_url cs s)
  = Webbase.skip s || negb (clean cs).
Proof.
  induction cs as [|c cs IH]; intros s.
  - cbn. rewrite orb_false_r. reflexivity.
  - cbn [Webbase.check_url clean forallb]. rewrite IH.
    destruct (Z.leb_spec c 32) as [Hc|Hc], (Z.ltb_spec 32 c) as [Hc'|Hc'];
      try lia; cbn.
    + rewrite orb_true_r. reflexivity.
    + reflexivity.
Qed.

Lemma clean_Forall (l : list Z) :
  clean l = true <-> Forall (fun c => 32 < c) l.
Proof.
  unfold clean. induction l as [|c l IH]; cbn [forallb].
  - split; [constructor|reflexivity].
  - rewrite andb_true_iff, IH, Z.ltb_lt. split.
    + intros [Hc Hl]. constructor; assumption.
    + intros H. inversion H; subst. split; assumption.
Qed.

Lemma clean_reverse (l : list Z) : clean (reverse l) = clean l.
Proof.
  destruct (clean l) eqn:E.
  - apply clean_Forall. rewrite Forall_reverse. apply clean_Forall, E.
  - destruct (clean (reverse l)) eqn:E'; [|reflexivity].
    apply clean_Forall in E'. rewrite Forall_reverse in E'.
    apply clean_Forall in E'. rewrite E' in E. discriminate.
Qed.

Lemma last_control_spec (cs : list Z) : forall i : Z,
  i = len cs - 1 ->
  (Webbase.last_control cs i >=? 0) = negb (clean cs).
Proof.
  induction cs as [|c cs IH]; intros i Hi; [reflexivity|].
  cbn [Webbase.last_control clean forallb].
  assert (Hlen : len (c :: cs) = len cs + 1) by (unfold len; simpl; lia).
  destruct (Z.leb_spec c 32) as [Hc|Hc], (Z.ltb_spec 32 c) as [Hc'|Hc'];
    try lia; cbn.
  - destruct (Z.geb_spec i 0) as [|Hneg]; [reflexivity|].
    pose proof (len_nonneg cs). lia.
  - apply IH. lia.
Qed.

Lemma fixProtocol_clean (l : list Z) :
  Forall (fun c => 32 < c) l -> Forall (fun c => 32 < c) (Webbase.fixProtocol l).
Proof.
  induction 1 as [|c l Hc Hl IH]; [constructor|].
  cbn [Webbase.fixProtocol].
  destruct (Webbase.isalpha c); [|constructor; assumption].
  constructor; [|exact IH].
  unfold Webbase.tolower. destruct ((65 <=? c) && (c <=? 90)); lia.
Qed.

Lemma fixCR_clean (l : list Z) :
  Forall (fun c => 32 < c) l -> Webbase.fixCR l = l.
Proof.
  intros H. destruct l as [|c l] using rev_ind; [reflexivity|].
  rewrite fixCR_snoc.
  apply Forall_app in H as [_ H]. inversion H; subst.
  unfold Webbase.CR. destruct (Z.eqb_spec c 13); [lia|reflexivity].
Qed.

(** ** The header of a page *)

Lemma gets_frame (input input' : list (list Z)) (s s' : Webbase.st)
    (ok : bool) :
  Webbase.gets input s = Ok (ok, s', input') ->
  input' = drop 1 input
  /\ Webbase.u s' = Webbase.u s /\ Webbase.p s' = Webbase.p s
  /\ Webbase.skip s' = Webbase.skip s /\ Webbase.seen s' = Webbase.seen s
  /\ Webbase.output s' = Webbase.output s
  /\ Webbase.stdout s' = Webbase.stdout s
  /\ Webbase.stderr s' = Webbase.stderr s.
Proof.
  intros E. apply gets_spec in E
    as [(_ & -> & -> & ->)|(l & _ & -> & -> & _)].
  - repeat split.
  - repeat split.
Qed.

Lemma examine_spec (u_addr : Z) (s : Webbase.st) :
  let s' := Webbase.examine u_addr s in
  Webbase.b s' = Webbase.b s /\ Webbase.u s' = Webbase.b s
  /\ Webbase.p s' = Webbase.p s /\ Webbase.seen s' = Webbase.seen s
  /\ Webbase.output s' = Webbase.output s
  /\ Webbase.stdout s' = Webbase.stdout s
  /\ Webbase.skip s'
     = Webbase.robots u_addr (Webbase.b s)
       || negb (clean (drop 5 (Webbase.b s)))
       || negb (Webbase.starts_with Webbase.HTTP
                  (Webbase.tolower <$> take 4 (drop 5 (Webbase.b s)))).
Proof.
  unfold Webbase.examine. cbn zeta.
  set (s1 := Webbase.with_skip _ (Webbase.with_u (Webbase.b s) s)).
  set (cs := reverse (drop 5 (Webbase.u s1))).
  destruct (check_url_frame cs s1) as (Hb & Hu & Hp & Hseen & Hout & Hstd).
  pose proof (check_url_skip cs s1) as Hskip.
  assert (Hcs : clean cs = clean (drop 5 (Webbase.b s)))
    by (subst cs; apply clean_reverse).
  rewrite Hcs in Hskip.
  change (Webbase.b s1) with (Webbase.b s) in Hb.
  change (Webbase.u s1) with (Webbase.b s) in Hu.
  change (Webbase.p s1) with (Webbase.p s) in Hp.
  change (Webbase.seen s1) with (Webbase.seen s) in Hseen.
  change (Webbase.output s1) with (Webbase.output s) in Hout.
  change (Webbase.stdout s1) with (Webbase.stdout s) in Hstd.
  change (Webbase.skip s1) with (Webbase.robots u_addr (Webbase.b s))
    in Hskip.
  clearbody cs. clearbody s1. rewrite Hb.
  destruct (Webbase.starts_with Webbase.HTTP
              (Webbase.tolower <$> take 4 (drop 5 (Webbase.b s)))); cbn.
  - rewrite Hb, Hu, Hp, Hseen, Hout, Hstd, Hskip, orb_false_r.
    repeat split.
  - rewrite Hb, Hu, Hp, Hseen, Hout, Hstd, orb_true_r. repeat split.
Qed.

Lemma announce_spec (s : Webbase.st) :
  5 <= len (Webbase.b s) ->
  let s' := Webbase.announce s in
  Webbase.u s' = Webbase.u s /\ Webbase.skip s' = Webbase.skip s
  /\ Webbase.seen s' = Webbase.seen s
  /\ Webbase.output s' = Webbase.output s
  /\ (Webbase.skip s = true ->
      Webbase.stdout s' = Webbase.stdout s /\ Webbase.p s' = Webbase.p s)
  /\ (Webbase.skip s = false ->
      Webbase.stdout s'
      = Webbase.stdout s
        ++ (if Webbase.p s =? -1 then [] else [Webbase.NL])
        ++ Webbase.fixProtocol (drop 5 (Webbase.b s))
      /\ Webbase.p s' = Webbase.next_page (Webbase.p s)).
Proof.
  intros Hlen. unfold Webbase.announce.
  destruct (Webbase.skip s) eqn:Hskip; cbn [negb].
  - repeat split; try assumption; discriminate.
  - cbn zeta.
    assert (Hdrop : drop 5 (take 5 (Webbase.b s)
                            ++ Webbase.fixProtocol (drop 5 (Webbase.b s)))
                    = Webbase.fixProtocol (drop 5 (Webbase.b s))).
    { apply drop_app_length'. rewrite length_take. unfold len in Hlen. lia. }
    destruct (Z.rem (Webbase.p s) 1000000 =? 0); cbn;
      destruct (Z.eqb_spec (Webbase.p s) (-1)) as [Hp|Hp]; cbn;
      rewrite ?Hdrop, ?app_nil_r, <- ?app_assoc;
      repeat split; try assumption; try discriminate.
Qed.

Lemma skip_three_spec (input input' : list (list Z)) (s s' : Webbase.st) :
  Webbase.skip_three input s = Ok (s', input') ->
  input' = drop 3 input
  /\ Webbase.u s' = Webbase.u s /\ Webbase.p s' = Webbase.p s
  /\ Webbase.skip s' = Webbase.skip s /\ Webbase.seen s' = Webbase.seen s
  /\ Webbase.output s' = Webbase.output s
  /\ Webbase.stdout s' = Webbase.stdout s.
Proof.
  unfold Webbase.skip_three. intros E.
  destruct (Webbase.gets input s) as [[[ok1 s1] input1]| |] eqn:G1;
    try discriminate.
  rewrite res_bind_Ok in E. cbn beta iota in E.
  destruct (Webbase.gets input1 s1) as [[[ok2 s2] input2]| |] eqn:G2;
    try discriminate.
  rewrite res_bind_Ok in E. cbn beta iota in E.
  destruct (Webbase.gets input2 s2) as [[[ok3 s3] input3]| |] eqn:G3;
    try discriminate.
  rewrite res_bind_Ok in E. cbn beta iota in E.
  apply gets_frame in G1 as (-> & Hu1 & Hp1 & Hs1 & Hn1 & Ho1 & Hd1 & _).
  apply gets_frame in G2 as (-> & Hu2 & Hp2 & Hs2 & Hn2 & Ho2 & Hd2 & _).
  apply gets_frame in G3 as (-> & Hu3 & Hp3 & Hs3 & Hn3 & Ho3 & Hd3 & _).
  injection E as <- <-.
  split; [rewrite !drop_drop; reflexivity|].
  destruct (negb (bool_decide (Webbase.b s3 = []))); cbn;
    rewrite ?Hu3, ?Hp3, ?Hs3, ?Hn3, ?Ho3, ?Hd3, ?Hu2, ?Hp2, ?Hs2, ?Hn2, ?Ho2,
      ?Hd2; repeat split; assumption.
Qed.

Lemma starts_with_length (pre s : list Z) :
  Webbase.starts_with pre s = true -> len pre <= len s.
Proof.
  unfold Webbase.starts_with. intros H. apply bool_decide_eq_true in H.
  apply (f_equal length) in H. rewrite length_take in H. unfold len. lia.
Qed.

Lemma page_spec (u_addr : Z) (input : list (list Z)) (s : Webbase.st)
    (r : Webbase.next) :
  Webbase.page u_addr input s = Ok r ->
  exists ok1 s1 input1,
    Webbase.gets input s = Ok (ok1, s1, input1)
    /\ let b1 := Webbase.fixCR (Webbase.b s1) in
       (Webbase.starts_with Webbase.URL b1 = false
        /\ r = Webbase.Return 1
                 (Webbase.warn (Webbase.NoURL (Webbase.p s) b1)
                    (Webbase.with_b b1 s1)))
       \/ (Webbase.starts_with Webbase.URL b1 = true
           /\ exists input' s',
               r = Webbase.Continue input' s'
               /\ input' = drop 3 input1
               /\ Webbase.seen s' = Webbase.seen s
               /\ Webbase.output s' = Webbase.output s
               /\ Webbase.u s' = b1
               /\ Webbase.skip s'
                  = Webbase.robots u_addr b1
                    || negb (clean (drop 5 b1))
                    || negb (Webbase.starts_with Webbase.HTTP
                               (Webbase.tolower <$> take 4 (drop 5 b1)))
               /\ (Webbase.skip s' = true ->
                   Webbase.stdout s' = Webbase.stdout s
                   /\ Webbase.p s' = Webbase.p s)
               /\ (Webbase.skip s' = false ->
                   Webbase.stdout s'
                   = Webbase.stdout s
                     ++ (if Webbase.p s =? -1 then [] else [Webbase.NL])
                     ++ Webbase.fixProtocol (drop 5 b1)
                   /\ Webbase.p s' = Webbase.next_page (Webbase.p s))).
Proof.
  intros E. unfold Webbase.page in E.
  destruct (Webbase.gets input s) as [[[ok1 s1] input1]| |] eqn:G1;
    try discriminate.
  rewrite res_bind_Ok in E. cbn beta iota zeta in E.
  exists ok1, s1, input1. split; [reflexivity|]. cbn zeta.
  apply gets_frame in G1 as (_ & Hu1 & Hp1 & Hs1 & Hn1 & Ho1 & Hd1 & _).
  set (s2 := Webbase.with_b (Webbase.fixCR (Webbase.b s1)) s1) in *.
  change (Webbase.b s2) with (Webbase.fixCR (Webbase.b s1)) in E.
  change (Webbase.p s2) with (Webbase.p s1) in E.
  destruct (Webbase.starts_with Webbase.URL (Webbase.fixCR (Webbase.b s1)))
    eqn:Hurl; cbn [negb] in E.
  - right. split; [reflexivity|].
    destruct (Webbase.skip_three input1
                (Webbase.announce (Webbase.examine u_addr s2)))
      as [[s' input']| |] eqn:G3; try discriminate.
    rewrite res_bind_Ok in E. cbn beta iota in E. injection E as <-.
    exists input', s'. split; [reflexivity|].
    apply skip_three_spec in G3 as (Hk & Hu3 & Hp3 & Hs3 & Hn3 & Ho3 & Hd3).
    destruct (examine_spec u_addr s2) as (Hb & Hu & Hp & Hn & Ho & Hd & Hs).
    apply starts_with_length in Hurl.
    destruct (announce_spec (Webbase.examine u_addr s2))
      as (Hu' & Hs' & Hn' & Ho' & Hskip & Hnoskip).
    { rewrite Hb. exact Hurl. }
    rewrite Hb, Hp, Hd in *.
    change (Webbase.b s2) with (Webbase.fixCR (Webbase.b s1)) in *.
    change (Webbase.p s2) with (Webbase.p s1) in *.
    change (Webbase.stdout s2) with (Webbase.stdout s1) in *.
    change (Webbase.seen s2) with (Webbase.seen s1) in *.
    change (Webbase.output s2) with (Webbase.output s1) in *.
    rewrite Hp1, Hd1 in *.
    split; [exact Hk|].
    split; [congruence|]. split; [congruence|]. split; [congruence|].
    split; [congruence|].
    rewrite Hs3, Hs', Hd3, Hp3. split; assumption.
  - left. split; [reflexivity|]. injection E as <-. rewrite Hp1.
    reflexivity.
Qed.

(** ** A line of a successor list *)

Lemma successor_spec (s : Webbase.st) :
  let s' := Webbase.successor s in
  Webbase.skip s' = Webbase.skip s /\ Webbase.p s' = Webbase.p s
  /\ Webbase.u s' = Webbase.u s /\ Webbase.stderr s' = Webbase.stderr s
  /\ Webbase.stdout s'
     = Webbase.stdout s ++ (if Webbase.skip s then [] else link (Webbase.b s))
  /\ Webbase.seen s'
     = (if Webbase.skip s then Webbase.seen s
        else add64 (Webbase.seen s) 1)
  /\ Webbase.output s'
     = (if Webbase.skip s then Webbase.output s
        else if clean (Webbase.b s)
                && Webbase.starts_with Webbase.HTTP (Webbase.b s)
             then add64 (Webbase.output s) 1
             else Webbase.output s).
Proof.
  unfold Webbase.successor, link. cbn zeta.
  destruct (Webbase.skip s) eqn:Hs.
  - rewrite app_nil_r. repeat split; assumption.
  - change (Webbase.b (Webbase.with_seen (add64 (Webbase.seen s) 1) s))
      with (Webbase.b s).
    rewrite (last_control_spec (reverse (Webbase.b s)))
      by (unfold len; rewrite length_reverse; reflexivity).
    rewrite clean_reverse.
    destruct (clean (Webbase.b s)) eqn:Hc; cbn.
    + destruct (Webbase.starts_with Webbase.HTTP (Webbase.b s)); cbn.
      * rewrite fixCR_clean by (apply clean_Forall, Hc).
        repeat split; assumption.
      * rewrite app_nil_r. repeat split; assumption.
    + rewrite app_nil_r. repeat split; assumption.
Qed.

(** ** One iteration *)

Lemma step_spec (u_addr : Z) (input : list (list Z)) (s : Webbase.st)
    (r : Webbase.next) :
  Webbase.step u_addr input s = Ok r ->
  (input = []
   /\ r = Webbase.Return 0
            (Webbase.warn
               (Webbase.Pages (Webbase.p s) (Webbase.seen s)
                  (Webbase.output s))
               (Webbase.say [Webbase.NL] s)))
  \/ (exists l rest,
        input = l :: rest /\ len l < Webbase.BUFSIZE
        /\ ((l = Webbase.COOKIE
             /\ Webbase.page u_addr rest (Webbase.with_b l s) = Ok r)
            \/ (l <> Webbase.COOKIE
                /\ r = Webbase.Continue rest
                         (Webbase.successor (Webbase.with_b l s))))).
Proof.
  unfold Webbase.step. intros E.
  destruct (Webbase.gets input s) as [[[ok s1] input1]| |] eqn:G;
    try discriminate.
  rewrite res_bind_Ok in E. cbn beta iota in E.
  apply gets_spec in G as [(-> & -> & -> & ->)|(l & -> & -> & -> & Hl)];
    cbn [negb] in E.
  - left. injection E as <-. split; reflexivity.
  - right. exists l, input1. split; [reflexivity|]. split; [exact Hl|].
    change (Webbase.b (Webbase.with_b l s)) with l in E.
    destruct (bool_decide (l = Webbase.COOKIE)) eqn:Hc.
    + apply bool_decide_eq_true in Hc. left. split; assumption.
    + apply bool_decide_eq_false in Hc. right. injection E as <-.
      split; [assumption|reflexivity].
Qed.

Lemma skip_three_total (input : list (list Z)) (s : Webbase.st) :
  Forall (fun l => len l < Webbase.BUFSIZE) input ->
  exists s' input', Webbase.skip_three input s = Ok (s', input').
Proof.
  intros H. unfold Webbase.skip_three.
  destruct (gets_short input s H) as (ok1 & s1 & input1 & -> & H1 & _).
  rewrite res_bind_Ok; cbn beta iota.
  destruct (gets_short input1 s1 H1) as (ok2 & s2 & input2 & -> & H2 & _).
  rewrite res_bind_Ok; cbn beta iota.
  destruct (gets_short input2 s2 H2) as (ok3 & s3 & input3 & -> & H3 & _).
  rewrite res_bind_Ok; cbn beta iota.
  eexists _, _. reflexivity.
Qed.

Lemma page_total (u_addr : Z) (input : list (list Z)) (s : Webbase.st) :
  Forall (fun l => len l < Webbase.BUFSIZE) input ->
  exists r, Webbase.page u_addr input s = Ok r.
Proof.
  intros H. unfold Webbase.page.
  destruct (gets_short input s H) as (ok1 & s1 & input1 & -> & H1 & _).
  rewrite res_bind_Ok; cbn beta iota zeta.
  destruct (negb _); [eexists; reflexivity|].
  destruct (skip_three_total input1
              (Webbase.announce
                 (Webbase.examine u_addr
                    (Webbase.with_b (Webbase.fixCR (Webbase.b s1)) s1))) H1)
    as (s' & input' & ->).
  rewrite res_bind_Ok; cbn beta iota. eexists; reflexivity.
Qed.

Lemma step_total (u_addr : Z) (input : list (list Z)) (s : Webbase.st) :
  Forall (fun l => len l < Webbase.BUFSIZE) input ->
  exists r, Webbase.step u_addr input s = Ok r.
Proof.
  intros H. unfold Webbase.step.
  destruct (gets_short input s H) as (ok1 & s1 & input1 & -> & H1 & _).
  rewrite res_bind_Ok; cbn beta iota.
  destruct (negb ok1); [eexists; reflexivity|].
  destruct (bool_decide _); [|eexists; reflexivity].
  apply page_total. exact H1.
Qed.

(** An iteration that does not return has read at least one line, and on a
    cookie at least two. *)
Lemma step_continue (u_addr : Z) (input input' : list (list Z))
    (s s' : Webbase.st) :
  Webbase.step u_addr input s = Ok (Webbase.Continue input' s') ->
  exists k : nat, (1 <= k)%nat /\ (k <= length input)%nat
                  /\ input' = drop k input.
Proof.
  intros E. apply step_spec in E
    as [[_ ?]|(l & rest & -> & Hl & [[-> E]|[Hne E]])]; [discriminate| |].
  - apply page_spec in E as (ok1 & s1 & input1 & G & [[_ ?]|(_ & R)]);
      [discriminate|].
    destruct R as (i' & t' & [= <- <-] & -> & _).
    apply gets_frame in G as (-> & _).
    exists (Nat.min 5 (S (length rest))). split; [lia|].
    split; [cbn [length]; lia|].
    rewrite drop_drop.
    destruct (Nat.le_gt_cases 5 (S (length rest))) as [Hle|Hgt].
    + rewrite Nat.min_l by lia. reflexivity.
    + rewrite Nat.min_r by lia. rewrite !drop_ge by (simpl; lia).
      reflexivity.
  - injection E as -> ->. exists 1%nat. split; [lia|].
    split; [cbn [length]; lia|]. reflexivity.
Qed.

(** ** The loop *)

Lemma loop_total (u_addr : Z) (fuel : nat) :
  forall (input : list (list Z)) (s : Webbase.st),
  Forall (fun l => len l < Webbase.BUFSIZE) input ->
  (length input < fuel)%nat ->
  exists status s', Webbase.loop fuel u_addr input s = Ok (status, s').
Proof.
  induction fuel as [|fuel IH]; intros input s Hshort Hfuel; [lia|].
  cbn [Webbase.loop].
  destruct (step_total u_addr input s Hshort) as (r & E). rewrite E.
  rewrite res_bind_Ok. destruct r as [input' s'|status s'].
  - apply step_continue in E as (k & Hk1 & Hk2 & ->).
    apply IH; [apply Forall_drop, Hshort|].
    rewrite length_drop. lia.
  - eexists _, _. reflexivity.
Qed.

Lemma loop_invariant (I : nat -> Webbase.st -> Prop) (u_addr : Z) :
  (forall input s r,
     I (length input) s -> Webbase.step u_addr input s = Ok r ->
     match r with
     | Webbase.Continue input' s' => I (length input') s'
     | Webbase.Return _ s' => exists k, I k s'
     end) ->
  forall (fuel : nat) (input : list (list Z)) (s s' : Webbase.st)
         (status : Z),
  I (length input) s ->
  Webbase.loop fuel u_addr input s = Ok (status, s') ->
  exists k, I k s'.
Proof.
  intros Hstep. induction fuel as [|fuel IH]; intros input s s' status HI E;
    [discriminate|].
  cbn [Webbase.loop] in E.
  destruct (Webbase.step u_addr input s) as [r| |] eqn:Es; try discriminate.
  rewrite res_bind_Ok in E. specialize (Hstep input s r HI Es).
  destruct r as [input1 s1|status1 s1].
  - apply (IH input1 s1 s' status Hstep E).
  - injection E as <- <-. exact Hstep.
Qed.

Lemma loop_return (u_addr : Z) (fuel : nat) :
  forall (input : list (list Z)) (s s' : Webbase.st) (status : Z),
  Webbase.loop fuel u_addr input s = Ok (status, s') ->
  exists input0 s0,
    Webbase.step u_addr input0 s0 = Ok (Webbase.Return status s').
Proof.
  induction fuel as [|fuel IH]; intros input s s' status E; [discriminate|].
  cbn [Webbase.loop] in E.
  destruct (Webbase.step u_addr input s) as [r| |] eqn:Es; try discriminate.
  rewrite res_bind_Ok in E. destruct r as [input1 s1|status1 s1].
  - apply (IH input1 s1 s' status E).
  - injection E as <- <-. exists input, s. exact Es.
Qed.

(** X25. On lines that fit the buffer the program terminates, after at
    most one iteration per line and one more, without writing outside a
    buffer.  It returns 0 at the end of the input, after a newline on the
    output and the report of its counters on [stderr]; or it returns 1,
    after the message that a line following a cookie does not start with
    ["URL: "]. *)
Theorem webbase_terminates (fuel : nat) (u_addr : Z)
    (input : list (list Z)) :
  Forall (fun l => len l < Webbase.BUFSIZE) input ->
  (length input < fuel)%nat ->
  exists status s,
    Webbase.main fuel u_addr input = Ok (status, s)
    /\ ((status = 0
         /\ last (Webbase.stdout s) = Some Webbase.NL
         /\ last (Webbase.stderr s)
            = Some (Webbase.Pages (Webbase.p s) (Webbase.seen s)
                      (Webbase.output s)))
        \/ (status = 1
            /\ exists found,
                last (Webbase.stderr s)
                = Some (Webbase.NoURL (Webbase.p s) found)
                /\ Webbase.starts_with Webbase.URL found = false)).
Proof.
  intros Hshort Hfuel. unfold Webbase.main.
  destruct (loop_total u_addr fuel input
              (Webbase.St [] [] (-1) false 0 0 [] []) Hshort Hfuel)
    as (status & s & E).
  exists status, s. split; [exact E|].
  apply loop_return in E as (input0 & s0 & E).
  apply step_spec in E
    as [[_ [= -> ->]]|(l & rest & -> & Hl & [[-> E]|[_ ?]])];
    [| |discriminate].
  - left. split; [reflexivity|]. cbn. rewrite !last_snoc. split; reflexivity.
  - apply page_spec in E as (ok1 & s1 & input1 & G & [[Hurl E]|(_ & R)]).
    + injection E as -> ->. right. split; [reflexivity|].
      exists (Webbase.fixCR (Webbase.b s1)). cbn. rewrite last_snoc.
      apply gets_frame in G as (_ & _ & -> & _). split; [reflexivity|].
      exact Hurl.
    + destruct R as (? & ? & ? & _). discriminate.
Qed.

Lemma webbase_terminates_witness :
  exists status s,
    Webbase.main 3 4096 [[104; 116; 116; 112]; [120]] = Ok (status, s)
    /\ ((status = 0
         /\ last (Webbase.stdout s) = Some Webbase.NL
         /\ last (Webbase.stderr s)
            = Some (Webbase.Pages (Webbase.p s) (Webbase.seen s)
                      (Webbase.output s)))
        \/ (status = 1
            /\ exists found,
                last (Webbase.stderr s)
                = Some (Webbase.NoURL (Webbase.p s) found)
                /\ Webbase.starts_with Webbase.URL found = false)).
Proof.
  apply (webbase_terminates 3 4096 [[104; 116; 116; 112]; [120]]).
  - repeat constructor.
  - simpl. lia.
Defined.

Lemma link_printable (l : list Z) :
  Forall (fun c => 32 < c \/ c = Webbase.TAB \/ c = Webbase.NL) (link l).
Proof.
  unfold link. destruct (clean l) eqn:Hc; cbn; [|constructor].
  destruct (Webbase.starts_with Webbase.HTTP l); [|constructor].
  constructor; [right; left; reflexivity|].
  eapply Forall_impl;
    [apply fixProtocol_clean, clean_Forall, Hc|].
  cbn. intros; lia.
Qed.

(** X26. Whatever the input, the output holds no space or control
    character other than the tabs and newlines that the program itself
    writes as separators. *)
Theorem webbase_output_clean (fuel : nat) (u_addr : Z)
    (input : list (list Z)) (status : Z) (s : Webbase.st) :
  Webbase.main fuel u_addr input = Ok (status, s) ->
  Forall (fun c => 32 < c \/ c = Webbase.TAB \/ c = Webbase.NL)
    (Webbase.stdout s).
Proof.
  unfold Webbase.main. intros E.
  set (ok := fun c => 32 < c \/ c = Webbase.TAB \/ c = Webbase.NL).
  destruct (loop_invariant (fun _ s0 => Forall ok (Webbase.stdout s0)) u_addr)
    with (fuel := fuel) (input := input)
         (s := Webbase.St [] [] (-1) false 0 0 [] []) (s' := s)
         (status := status) as [_ H];
    [|constructor|exact E|exact H].
  clear. intros input s r HI E.
  apply step_spec in E
    as [[-> ->]|(l & rest & -> & Hl & [[-> E]|[Hne ->]])].
  - exists 0%nat. cbn. apply Forall_app. split; [exact HI|].
    constructor; [right; right; reflexivity|constructor].
  - apply page_spec in E
      as (ok1 & s1 & input1 & G & [[_ ->]|(_ & input' & s' & -> & R)]).
    + exists 0%nat. cbn. apply gets_frame in G as (_ & _ & _ & _ & _ & _ & -> & _).
      exact HI.
    + destruct R as (_ & _ & _ & _ & Hskip & Hyes & Hno).
      destruct (Webbase.skip s') eqn:Hs.
      * destruct (Hyes eq_refl) as [-> _]. exact HI.
      * destruct (Hno eq_refl) as [-> _].
        symmetry in Hskip. apply orb_false_elim in Hskip as [Hskip _].
        apply orb_false_elim in Hskip as [_ Hclean].
        apply negb_false_iff in Hclean.
        apply Forall_app. split; [exact HI|]. apply Forall_app. split.
        -- destruct (_ =? _); [constructor|].
           constructor; [right; right; reflexivity|constructor].
        -- eapply Forall_impl;
             [apply fixProtocol_clean, clean_Forall, Hclean|].
           intros c Hc. left. exact Hc.
  - destruct (successor_spec (Webbase.with_b l s))
      as (_ & _ & _ & _ & -> & _).
    apply Forall_app. split; [exact HI|].
    destruct (Webbase.skip _); [constructor|]. apply link_printable.
Qed.

Lemma webbase_output_clean_witness :
  exists (status : Z) (s : Webbase.st),
    Webbase.main 3 4096 [[104; 116; 116; 112]; [120]] = Ok (status, s)
    /\ Forall (fun c => 32 < c \/ c = Webbase.TAB \/ c = Webbase.NL)
         (Webbase.stdout s).
Proof.
  eexists _, _. split.
  - vm_compute. reflexivity.
  - apply (webbase_output_clean 3 4096 [[104; 116; 116; 112]; [120]] 0).
    vm_compute. reflexivity.
Defined.

Lemma next_page_small (p : Z) :
  - 2 ^ 31 <= p + 1 < 2 ^ 31 -> Webbase.next_page p = p + 1.
Proof.
  intros H. unfold Webbase.next_page. rewrite Z.mod_small by lia. lia.
Qed.

Lemma cookie_is_no_url :
  Webbase.starts_with Webbase.URL (Webbase.fixCR Webbase.COOKIE) = false.
Proof. vm_compute. reflexivity. Qed.

(** X27. On an input of fewer than [2^31] lines the counters do not
    wrap around: at the end [output <= seen], and every page counted in
    [p] has taken two lines of the input, every link seen one. *)
Theorem webbase_counters (fuel : nat) (u_addr : Z) (input : list (list Z))
    (status : Z) (s : Webbase.st) :
  Z.of_nat (length input) < 2 ^ 31 ->
  Webbase.main fuel u_addr input = Ok (status, s) ->
  0 <= Webbase.output s <= Webbase.seen s
  /\ -1 <= Webbase.p s
  /\ 2 * (Webbase.p s + 1) + Webbase.seen s <= Z.of_nat (length input).
Proof.
  unfold Webbase.main. intros HN E.
  set (N := Z.of_nat (length input)) in *.
  destruct (loop_invariant
              (fun k s0 =>
                 0 <= Webbase.output s0 <= Webbase.seen s0
                 /\ -1 <= Webbase.p s0
                 /\ 2 * (Webbase.p s0 + 1) + Webbase.seen s0 + Z.of_nat k
                    <= N) u_addr)
    with (fuel := fuel) (input := input)
         (s := Webbase.St [] [] (-1) false 0 0 [] []) (s' := s)
         (status := status) as [k H];
    [|cbn; lia|exact E|lia].
  clearbody N. clear E s status input fuel.
  intros input s r (Ho & Hp & Hsum) E.
  apply step_spec in E
    as [[-> ->]|(l & rest & -> & Hl & [[-> E]|[Hne ->]])].
  - exists 0%nat. cbn in *. lia.
  - cbn [length] in Hsum.
    apply page_spec in E
      as (ok1 & s1 & input1 & G & [[_ ->]|(Hurl & input' & s' & -> & R)]).
    + exists 0%nat. cbn.
      apply gets_frame in G as (_ & _ & -> & _ & -> & -> & _). cbn. lia.
    + destruct R as (-> & -> & -> & _ & _ & Hyes & Hno). cbn in Hyes, Hno |- *.
      apply gets_spec in G
        as [(_ & -> & -> & ->)|(l & _ & -> & -> & _)].
      { change (Webbase.b (Webbase.with_b Webbase.COOKIE s))
          with Webbase.COOKIE in Hurl.
        rewrite cookie_is_no_url in Hurl. discriminate. }
      pose proof (length_drop input1 3) as Hd. cbn [length] in Hsum.
      destruct (Webbase.skip s') eqn:Hs.
      * destruct (Hyes eq_refl) as [_ ->]. lia.
      * destruct (Hno eq_refl) as [_ ->].
        rewrite next_page_small by lia. lia.
  - cbn [length] in Hsum.
    destruct (successor_spec (Webbase.with_b l s))
      as (_ & -> & _ & _ & _ & -> & ->).
    cbn [Webbase.p Webbase.seen Webbase.output Webbase.skip Webbase.with_b
         Webbase.b].
    destruct (Webbase.skip s); [lia|].
    rewrite (add64_small (Webbase.seen s) 1)
      by (unfold INT64_MAX; lia).
    destruct (clean l && Webbase.starts_with Webbase.HTTP l); [|lia].
    rewrite add64_small by (unfold INT64_MAX; lia). lia.
Qed.

Lemma webbase_counters_witness :
  exists (status : Z) (s : Webbase.st),
    Webbase.main 3 4096 [[104; 116; 116; 112]; [120]] = Ok (status, s)
    /\ 0 <= Webbase.output s <= Webbase.seen s
    /\ -1 <= Webbase.p s
    /\ 2 * (Webbase.p s + 1) + Webbase.seen s
       <= Z.of_nat (length [[104; 116; 116; 112]; [120]]).
Proof.
  eexists _, _. split.
  - vm_compute. reflexivity.
  - apply (webbase_counters 3 4096 [[104; 116; 116; 112]; [120]] 0).
    + vm_compute. reflexivity.
    + vm_compute. reflexivity.
Defined.

(** ** Successor lists *)

(** The lines of a successor list, up to the next cookie. *)
Lemma loop_successors (u_addr : Z) (pre : list (list Z)) :
  Forall (fun l => l <> Webbase.COOKIE /\ len l < Webbase.BUFSIZE) pre ->
  forall s : Webbase.st,
  exists s',
    (forall (fuel : nat) (rest : list (list Z)),
       Webbase.loop (length pre + fuel) u_addr (pre ++ rest) s
       = Webbase.loop fuel u_addr rest s')
    /\ Webbase.skip s' = Webbase.skip s /\ Webbase.p s' = Webbase.p s
    /\ Webbase.stderr s' = Webbase.stderr s
    /\ Webbase.stdout s'
       = Webbase.stdout s
         ++ (if Webbase.skip s then [] else concat (link <$> pre))
    /\ (pre = [] -> s' = s)
    /\ (Webbase.skip s = true ->
        Webbase.seen s' = Webbase.seen s
        /\ Webbase.output s' = Webbase.output s).
Proof.
  induction 1 as [|l pre [Hne Hl] _ IH]; intros s.
  - exists s. split; [reflexivity|].
    destruct (Webbase.skip s); cbn; rewrite app_nil_r; repeat split.
  - destruct (IH (Webbase.successor (Webbase.with_b l s)))
      as (s' & Hloop & Hskip & Hp & Herr & Hout & _ & Hcnt).
    destruct (successor_spec (Webbase.with_b l s))
      as (Hskip1 & Hp1 & _ & Herr1 & Hout1 & Hseen1 & Houtput1).
    cbn in Hskip1, Hp1, Herr1, Hout1, Hseen1, Houtput1.
    exists s'. split.
    { intros fuel rest. cbn [length Nat.add app Webbase.loop].
      unfold Webbase.step, Webbase.gets.
      destruct (Z.ltb_spec (len l) Webbase.BUFSIZE) as [_|?]; [|lia].
      rewrite res_bind_Ok. cbn beta iota. cbn [negb].
      change (Webbase.b (Webbase.with_b l s)) with l.
      rewrite bool_decide_eq_false_2 by exact Hne.
      rewrite res_bind_Ok. apply Hloop. }
    rewrite Hskip, Hp, Herr, Hout, Hskip1, Hp1, Herr1, Hout1.
    split; [reflexivity|]. split; [reflexivity|]. split; [reflexivity|].
    split; [|split; [discriminate|]].
    + destruct (Webbase.skip s); rewrite <- ?app_assoc; reflexivity.
    + intros Hs. rewrite Hskip1, Hs in Hcnt.
      destruct (Hcnt eq_refl) as [-> ->].
      rewrite Hseen1, Houtput1, Hs. split; reflexivity.
Qed.

Lemma loop_eof (u_addr : Z) (fuel : nat) (s : Webbase.st) :
  Webbase.loop (S fuel) u_addr [] s
  = Ok (0, Webbase.warn
             (Webbase.Pages (Webbase.p s) (Webbase.seen s)
                (Webbase.output s))
             (Webbase.say [Webbase.NL] s)).
Proof. reflexivity. Qed.

(** X28. On an input without cookie, whose lines fit the buffer, the
    program prints one link for each line that has no space or control
    character and starts with ["http"]: a tab, then the line with its
    protocol in lower case; [fixCR] never changes such a line.  It ends
    with a newline, reports on [stderr], and returns 0. *)
Theorem webbase_links (u_addr : Z) (input : list (list Z)) :
  Forall (fun l => l <> Webbase.COOKIE /\ len l < Webbase.BUFSIZE) input ->
  exists s,
    Webbase.main (S (length input)) u_addr input = Ok (0, s)
    /\ Webbase.stdout s = concat (link <$> input) ++ [Webbase.NL]
    /\ Webbase.p s = -1
    /\ Webbase.stderr s
       = [Webbase.Pages (-1) (Webbase.seen s) (Webbase.output s)].
Proof.
  intros H. unfold Webbase.main.
  destruct (loop_successors u_addr input H
              (Webbase.St [] [] (-1) false 0 0 [] []))
    as (s' & Hloop & Hskip & Hp & Herr & Hout & _).
  cbn in Hskip, Hp, Herr, Hout.
  specialize (Hloop 1%nat []). rewrite app_nil_r in Hloop.
  replace (S (length input)) with (length input + 1)%nat by lia.
  rewrite Hloop, loop_eof.
  eexists. split; [reflexivity|]. cbn. rewrite Hout, Hp, Herr.
  repeat split.
Qed.

Lemma webbase_links_witness :
  exists s,
    Webbase.main (S (length [[104; 116; 116; 112]; [120]])) 4096
      [[104; 116; 116; 112]; [120]] = Ok (0, s)
    /\ Webbase.stdout s
       = concat (link <$> [[104; 116; 116; 112]; [120]]) ++ [Webbase.NL]
    /\ Webbase.p s = -1
    /\ Webbase.stderr s
       = [Webbase.Pages (-1) (Webbase.seen s) (Webbase.output s)].
Proof.
  apply (webbase_links 4096 [[104; 116; 116; 112]; [120]]).
  repeat constructor; try discriminate.
Defined.

Lemma step_cookie (u_addr : Z) (rest : list (list Z)) (s : Webbase.st) :
  Webbase.step u_addr (Webbase.COOKIE :: rest) s
  = Webbase.page u_addr rest (Webbase.with_b Webbase.COOKIE s).
Proof. reflexivity. Qed.

(** X29. A page whose URL ends with the first ["robots.txt"] that it
    holds is left out, with the whole of its successor list: up to the
    next cookie nothing is printed and no link is counted. *)
Theorem webbase_robots_skipped (fuel : nat) (u_addr : Z) (url : list Z)
    (rest : list (list Z)) (k : nat) :
  len url < Webbase.BUFSIZE ->
  Forall (fun l => len l < Webbase.BUFSIZE) rest ->
  Forall (fun l => l <> Webbase.COOKIE) (drop 3 rest) ->
  Webbase.starts_with Webbase.URL (Webbase.fixCR url) = true ->
  Webbase.strstr (Webbase.fixCR url) Webbase.ROBOTS = Some k ->
  (k + 10 = length (Webbase.fixCR url))%nat ->
  (length rest + 2 < fuel)%nat ->
  exists s,
    Webbase.main fuel u_addr (Webbase.COOKIE :: url :: rest) = Ok (0, s)
    /\ Webbase.stdout s = [Webbase.NL]
    /\ Webbase.p s = -1 /\ Webbase.seen s = 0 /\ Webbase.output s = 0.
Proof.
  intros Hurl Hshort Hfree Hstart Hstr Hk Hfuel. unfold Webbase.main.
  destruct fuel as [|fuel]; [lia|]. cbn [Webbase.loop].
  rewrite step_cookie.
  set (s0 := Webbase.with_b Webbase.COOKIE
               (Webbase.St [] [] (-1) false 0 0 [] [])).
  destruct (page_total u_addr (url :: rest) s0) as (r & E).
  { constructor; assumption. }
  rewrite E, res_bind_Ok.
  apply page_spec in E as (ok1 & s1 & input1 & G & R).
  apply gets_spec in G
    as [(_ & ? & _)|(l & _ & [= <- <-] & -> & _)]; [discriminate|].
  cbn zeta in R.
  change (Webbase.b (Webbase.with_b url s0)) with url in R.
  destruct R as [[Hno _]|(_ & input' & s' & -> & -> & Hseen & Hout & _ & Hskip
                          & Hyes & _)];
    [rewrite Hno in Hstart; discriminate|].
  assert (Hrobots : Webbase.robots u_addr (Webbase.fixCR url) = true).
  { unfold Webbase.robots. rewrite Hstr.
    replace (len (Webbase.fixCR url) - len Webbase.ROBOTS) with (Z.of_nat k).
    - apply Z.eqb_refl.
    - unfold len. rewrite <- Hk. change (length Webbase.ROBOTS) with 10%nat.
      lia. }
  rewrite Hrobots in Hskip. cbn [orb] in Hskip.
  destruct (Hyes Hskip) as [Hstd Hp].
  destruct (loop_successors u_addr (drop 3 rest)) with (s := s')
    as (s'' & Hloop & _ & Hp' & _ & Hstd' & _ & Hcnt).
  { assert (Hs3 : Forall (fun l => len l < Webbase.BUFSIZE) (drop 3 rest))
      by (apply Forall_drop; exact Hshort).
    apply Forall_forall. intros l Hl. split.
    - apply (proj1 (Forall_forall _ _) Hfree l Hl).
    - apply (proj1 (Forall_forall _ _) Hs3 l Hl). }
  destruct (Hcnt Hskip) as [Hseen' Hout'].
  pose proof (length_drop rest 3) as Hlen.
  specialize (Hloop (fuel - length (drop 3 rest))%nat []).
  rewrite app_nil_r in Hloop.
  replace (length (drop 3 rest) + (fuel - length (drop 3 rest)))%nat
    with fuel in Hloop by lia.
  rewrite Hloop.
  destruct (fuel - length (drop 3 rest))%nat as [|f] eqn:Hf; [lia|].
  rewrite loop_eof. eexists. split; [reflexivity|].
  cbn [Webbase.stdout Webbase.p Webbase.seen Webbase.output Webbase.warn
       Webbase.say].
  rewrite Hstd', Hskip, Hstd, Hp', Hp, Hseen', Hseen, Hout', Hout.
  repeat split.
Qed.

Lemma webbase_robots_skipped_witness :
  exists s,
    Webbase.main 4 4096
      [Webbase.COOKIE;
       [85; 82; 76; 58; 32; 104; 116; 116; 112; 58; 47; 47; 97; 47;
        114; 111; 98; 111; 116; 115; 46; 116; 120; 116];
       [104; 116; 116; 112]] = Ok (0, s)
    /\ Webbase.stdout s = [Webbase.NL]
    /\ Webbase.p s = -1 /\ Webbase.seen s = 0 /\ Webbase.output s = 0.
Proof.
  apply (webbase_robots_skipped 4 4096
           [85; 82; 76; 58; 32; 104; 116; 116; 112; 58; 47; 47; 97; 47;
            114; 111; 98; 111; 116; 115; 46; 116; 120; 116]
           [[104; 116; 116; 112]] 14).
  - vm_compute. reflexivity.
  - repeat constructor.
  - constructor.
  - vm_compute. reflexivity.
  - vm_compute. reflexivity.
  - vm_compute. reflexivity.
  - simpl. lia.
Defined.

(** X30. When the line that follows a cookie does not start with
    ["URL: "], or when the input ends with the cookie, the program stops
    at once with status 1: it prints the links of the lines before the
    cookie, no final newline, and no report of its counters. *)
Theorem webbase_stops_without_url (fuel : nat) (u_addr : Z)
    (pre tail : list (list Z)) :
  Forall (fun l => l <> Webbase.COOKIE /\ len l < Webbase.BUFSIZE) pre ->
  Forall (fun l => len l < Webbase.BUFSIZE) (take 1 tail) ->
  Webbase.starts_with Webbase.URL
    (default Webbase.COOKIE (Webbase.fixCR <$> head tail)) = false ->
  (length pre < fuel)%nat ->
  exists s,
    Webbase.main fuel u_addr (pre ++ Webbase.COOKIE :: tail) = Ok (1, s)
    /\ Webbase.stdout s = concat (link <$> pre)
    /\ Webbase.stderr s
       = [Webbase.NoURL (-1)
            (default Webbase.COOKIE (Webbase.fixCR <$> head tail))].
Proof.
  intros Hpre Hshort Hno Hfuel. unfold Webbase.main.
  destruct (loop_successors u_addr pre Hpre
              (Webbase.St [] [] (-1) false 0 0 [] []))
    as (s' & Hloop & _ & Hp & Herr & Hout & _).
  cbn in Hp, Herr, Hout.
  specialize (Hloop (fuel - length pre)%nat (Webbase.COOKIE :: tail)).
  replace (length pre + (fuel - length pre))%nat with fuel in Hloop by lia.
  rewrite Hloop.
  destruct (fuel - length pre)%nat as [|f] eqn:Hf; [lia|].
  cbn [Webbase.loop]. rewrite step_cookie. unfold Webbase.page.
  destruct tail as [|l tail].
  - cbn [Webbase.gets]. rewrite res_bind_Ok. cbn beta iota zeta.
    change (Webbase.b (Webbase.with_b _ (Webbase.with_b Webbase.COOKIE s')))
      with (Webbase.fixCR Webbase.COOKIE).
    rewrite cookie_is_no_url. cbn [negb]. rewrite res_bind_Ok.
    eexists. split; [reflexivity|]. cbn. rewrite Hout, Herr, Hp.
    split; reflexivity.
  - assert (Hno' : Webbase.starts_with Webbase.URL (Webbase.fixCR l) = false)
      by exact Hno.
    assert (Hshort' : Forall (fun l => len l < Webbase.BUFSIZE) [l])
      by exact Hshort.
    inversion Hshort' as [|? ? Hl _]; subst.
    unfold Webbase.gets.
    destruct (Z.ltb_spec (len l) Webbase.BUFSIZE) as [_|?]; [|lia].
    rewrite res_bind_Ok. cbn beta iota zeta.
    change (Webbase.b
              (Webbase.with_b
                 (Webbase.fixCR
                    (Webbase.b
                       (Webbase.with_b l
                          (Webbase.with_b Webbase.COOKIE s'))))
                 (Webbase.with_b l (Webbase.with_b Webbase.COOKIE s'))))
      with (Webbase.fixCR l).
    rewrite Hno'. cbn [negb]. rewrite res_bind_Ok.
    eexists. split; [reflexivity|]. cbn. rewrite Hout, Herr, Hp.
    split; reflexivity.
Qed.

Lemma webbase_stops_without_url_witness :
  exists s,
    Webbase.main 2 4096 ([[104; 116; 116; 112]] ++ Webbase.COOKIE :: [[120]])
    = Ok (1, s)
    /\ Webbase.stdout s = concat (link <$> [[104; 116; 116; 112]])
    /\ Webbase.stderr s
       = [Webbase.NoURL (-1)
            (default Webbase.COOKIE (Webbase.fixCR <$> head [[120]]))].
Proof.
  apply (webbase_stops_without_url 2 4096 [[104; 116; 116; 112]] [[120]]).
  - repeat constructor. discriminate.
  - repeat constructor.
  - vm_compute. reflexivity.
  - simpl. lia.
Defined.
